(** * OKR baseline system: the PropS wrapper

    A shallow embedding of [src/baseline_system/parsers/props_wrapper.py]
    (class [PropSWrapper]) and proofs of properties of the record it builds
    for a sentence.

    Conventions of the embedding.
    - Python objects that are shared by reference (dependency nodes, PropS
      graph nodes) are kept in the lists the wrapper receives them in
      ([graph.dep_tree.values()], [graph.nodes()]) and referred to by their
      position in that list (a handle).  Object identity, which the source
      relies on for [node in self.predicate_nodes] and for sets of nodes, is
      equality of handles.
    - Python dictionaries are finite maps ([gmap]); wherever the source
      iterates over a dictionary or a set, the order in which a hash
      container yields its elements is the section parameter [hash_order].
    - Exceptions are the [Raise] results of an error monad; the instance
      fields ([self.x]) are the state of a state-and-error monad.
    - Strings are sequences of ASCII characters, so that the conversions
      [str(...)] and [unicode(...)] of the source are the identity. *)

From stdpp Require Import gmap strings list fin_maps pretty sorting.
From Stdlib Require Import ZArith Ascii.

Open Scope string_scope.
Open Scope list_scope.

(** ** Exceptions and results *)

Inductive exn :=
  | ValueError | IndexError | KeyError | AttributeError | TypeError
  | AssertionError | RuntimeError
  | BadHandle. (* a handle outside its list: no Python object is like that *)

Inductive result (A : Type) :=
  | Ok (a : A)
  | Raise (e : exn).
Arguments Ok {A} a.
Arguments Raise {A} e.

Global Instance exn_eq_dec : EqDecision exn.
Proof. solve_decision. Defined.

Global Instance result_ret : MRet result := λ A a, Ok a.
Global Instance result_bind : MBind result := λ A B f m,
  match m with Ok a => f a | Raise e => Raise e end.

Definition is_Ok {A} (r : result A) : Prop := ∃ a, r = Ok a.
Definition is_Raise {A} (r : result A) : Prop := ∃ e, r = Raise e.

(** [try: body except: handler] with a bare [except]. *)
Definition try_except {A} (body handler : result A) : result A :=
  match body with Ok a => Ok a | Raise _ => handler end.

Definition py_assert (b : bool) : result unit :=
  if b then Ok tt else Raise AssertionError.

Fixpoint mapM_r {A B} (f : A → result B) (l : list A) : result (list B) :=
  match l with
  | [] => Ok []
  | x :: l' => y ← f x; ys ← mapM_r f l'; Ok (y :: ys)
  end.

(** A list comprehension with a condition that may raise. *)
Fixpoint filterM_r {A} (f : A → result bool) (l : list A) : result (list A) :=
  match l with
  | [] => Ok []
  | x :: l' => b ← f x; ys ← filterM_r f l'; Ok (if b : bool then x :: ys else ys)
  end.

(** ** Python built-ins used by the wrapper *)

(** [l[i]], negative indices counting from the end. *)
Definition py_index {A} (l : list A) (i : Z) : result A :=
  let n := Z.of_nat (length l) in
  let j := if bool_decide (i < 0)%Z then (i + n)%Z else i in
  if bool_decide (0 ≤ j < n)%Z
  then match l !! Z.to_nat j with Some x => Ok x | None => Raise IndexError end
  else Raise IndexError.

(** [min(l)] and [max(l)] on integers. *)
Definition py_min (l : list Z) : result Z :=
  match l with [] => Raise ValueError | x :: l' => Ok (foldl Z.min x l') end.
Definition py_max (l : list Z) : result Z :=
  match l with [] => Raise ValueError | x :: l' => Ok (foldl Z.max x l') end.

(** [min(l, key = key)]: the first element whose key is least. *)
Fixpoint py_min_by_go {A} (key : A → result nat) (best : A) (kbest : nat)
    (l : list A) : result A :=
  match l with
  | [] => Ok best
  | y :: l' =>
      ky ← key y;
      if bool_decide (ky < kbest) then py_min_by_go key y ky l'
      else py_min_by_go key best kbest l'
  end.
Definition py_min_by {A} (key : A → result nat) (l : list A) : result A :=
  match l with
  | [] => Raise ValueError
  | x :: l' => kx ← key x; py_min_by_go key x kx l'
  end.

(** [sorted(l, key = key)]: Python's sort is stable. *)
Fixpoint sorted_insert {A} (key : A → Z) (x : A) (l : list A) : list A :=
  match l with
  | [] => [x]
  | y :: l' =>
      if bool_decide (key x ≤ key y)%Z then x :: y :: l'
      else y :: sorted_insert key x l'
  end.
Definition sorted {A} (key : A → Z) (l : list A) : list A :=
  foldr (sorted_insert key) [] l.

(** [sep.join(l)]. *)
Definition join (sep : string) (l : list string) : string := String.concat sep l.

(** [s.split(" ")]: the pieces between single spaces, empty pieces kept. *)
Fixpoint split (s : string) : list string :=
  match s with
  | EmptyString => [""]
  | String c s' =>
      if Ascii.eqb c " "%char then "" :: split s'
      else match split s' with
           | piece :: pieces => String c piece :: pieces
           | [] => [String c ""]
           end
  end.

(** [range(a, b)]. *)
Definition range (a b : Z) : list Z := seqZ a (b - a).

(** [dict(l)] and dictionary comprehensions: a later pair overrides. *)
Definition py_dict `{Countable K} {V} (l : list (K * V)) : gmap K V :=
  foldl (λ m kv, <[kv.1 := kv.2]> m) ∅ l.

(** ["{{{}}}".format(symbol)]. *)
Definition braces (symbol : string) : string := "{" +:+ symbol +:+ "}".

(** ** Data model *)

(** A word of a PropS node: [w.index] (1-based) and [w.word]. *)
Module Word.
Record t := mk { index : Z; word : string }.
End Word.

(** A node of the dependency tree. [parent] and [children] are handles
    into [graph.dep_tree.values()]. *)
Module Dep.
Record t := mk {
  id : Z;
  word : string;
  pos : string;
  parent_relation : string;
  parent : option nat;
  children : list nat
}.
End Dep.

(** A node of the PropS graph. [neighbors] is the dictionary returned by
    [node.neighbors()], from relation label to nodes (handles into
    [graph.nodes()]), in the order the dictionary yields its items.
    [id] is the attribute [get_node_ind] falls back to, when the object
    has one. *)
Module Props.
Record t := mk {
  isPredicate : bool;
  is_implicit : bool;
  isConj : bool;
  text : list Word.t;
  str : list Word.t;
  neighbors : list (string * list nat);
  features : gmap string string;
  id : option Z
}.
End Props.

(** A named entity of spaCy ([doc.ents]): a span of tokens. *)
Module Span.
Record t := mk {
  start : Z;
  end_ : Z;
  root_i : Z;
  text : string;
  label_ : string
}.
End Span.

Global Instance Word_eq_dec : EqDecision Word.t.
Proof. solve_decision. Defined.
Global Instance Span_eq_dec : EqDecision Span.t.
Proof. solve_decision. Defined.

(** The PropS graph of a sentence, as far as the wrapper reads it. *)
Record Graph := {
  dep_tree_values : list Dep.t;   (* graph.dep_tree.values() *)
  nodes : list Props.t            (* graph.nodes() *)
}.

(** An entity of the OKR: its text and its 0-based token indices. *)
Definition Entity : Type := string * list Z.

(** The ["Surface"] of a head is a word with its index for the predicates
    of the graph and a bare string for the ones entity splitting adds. *)
Inductive surface :=
  | SurfaceAt (w : string) (indices : list Z)
  | SurfaceStr (w : string).

Record Head := { Surface : surface; Lemma_ : string; POS : string }.

Record Predicate := {
  Bare_predicate : Entity;
  Template : string;
  Head_ : Head;
  Arguments_ : list string
}.

Record OKR := {
  Sentence : string;
  Entities : gmap string Entity;
  Predicates : gmap string Predicate
}.

(** The instance once [_init_internal_state] has run on it: the three
    flags given to [__init__], the fields [_init_internal_state] assigns
    and the fields the other methods assign, which are [None] as long as no
    method has assigned them.  [__init__] itself assigns the flags only:
    an instance on which [_init_internal_state] has never run has no
    counters, sentence, entities, predicates or symbols, and is not a value
    of this type; on such an instance every method but [parse], which runs
    [_init_internal_state] first, raises [AttributeError] where it reads
    one of them. *)
Record PropSWrapper := {
  get_implicits : bool;
  get_zero_args : bool;
  get_conj : bool;
  pred_counter : nat;
  ent_counter : nat;
  dep_tree : option (list Dep.t);
  sentence : string;
  entities : gmap string Entity;
  predicates : gmap string Predicate;
  tok_ind_to_symbol : gmap Z string;
  graph : option Graph;
  predicate_nodes : option (list nat);
  _named_entities : option (list Span.t);
  _all_NEs_token_indices : option (list Z)
}.

Definition set_pred_counter (v : nat) (s : PropSWrapper) : PropSWrapper :=
  {| get_implicits := get_implicits s; get_zero_args := get_zero_args s;
     get_conj := get_conj s; pred_counter := v; ent_counter := ent_counter s;
     dep_tree := dep_tree s; sentence := sentence s; entities := entities s;
     predicates := predicates s; tok_ind_to_symbol := tok_ind_to_symbol s;
     graph := graph s; predicate_nodes := predicate_nodes s;
     _named_entities := _named_entities s;
     _all_NEs_token_indices := _all_NEs_token_indices s |}.
Definition set_ent_counter (v : nat) (s : PropSWrapper) : PropSWrapper :=
  {| get_implicits := get_implicits s; get_zero_args := get_zero_args s;
     get_conj := get_conj s; pred_counter := pred_counter s; ent_counter := v;
     dep_tree := dep_tree s; sentence := sentence s; entities := entities s;
     predicates := predicates s; tok_ind_to_symbol := tok_ind_to_symbol s;
     graph := graph s; predicate_nodes := predicate_nodes s;
     _named_entities := _named_entities s;
     _all_NEs_token_indices := _all_NEs_token_indices s |}.
Definition set_dep_tree (v : option (list Dep.t)) (s : PropSWrapper) : PropSWrapper :=
  {| get_implicits := get_implicits s; get_zero_args := get_zero_args s;
     get_conj := get_conj s; pred_counter := pred_counter s;
     ent_counter := ent_counter s;
     dep_tree := v; sentence := sentence s; entities := entities s;
     predicates := predicates s; tok_ind_to_symbol := tok_ind_to_symbol s;
     graph := graph s; predicate_nodes := predicate_nodes s;
     _named_entities := _named_entities s;
     _all_NEs_token_indices := _all_NEs_token_indices s |}.
Definition set_sentence (v : string) (s : PropSWrapper) : PropSWrapper :=
  {| get_implicits := get_implicits s; get_zero_args := get_zero_args s;
     get_conj := get_conj s; pred_counter := pred_counter s;
     ent_counter := ent_counter s;
     dep_tree := dep_tree s; sentence := v; entities := entities s;
     predicates := predicates s; tok_ind_to_symbol := tok_ind_to_symbol s;
     graph := graph s; predicate_nodes := predicate_nodes s;
     _named_entities := _named_entities s;
     _all_NEs_token_indices := _all_NEs_token_indices s |}.
Definition set_entities (v : gmap string Entity) (s : PropSWrapper) : PropSWrapper :=
  {| get_implicits := get_implicits s; get_zero_args := get_zero_args s;
     get_conj := get_conj s; pred_counter := pred_counter s;
     ent_counter := ent_counter s;
     dep_tree := dep_tree s; sentence := sentence s; entities := v;
     predicates := predicates s; tok_ind_to_symbol := tok_ind_to_symbol s;
     graph := graph s; predicate_nodes := predicate_nodes s;
     _named_entities := _named_entities s;
     _all_NEs_token_indices := _all_NEs_token_indices s |}.
Definition set_predicates (v : gmap string Predicate) (s : PropSWrapper) : PropSWrapper :=
  {| get_implicits := get_implicits s; get_zero_args := get_zero_args s;
     get_conj := get_conj s; pred_counter := pred_counter s;
     ent_counter := ent_counter s;
     dep_tree := dep_tree s; sentence := sentence s; entities := entities s;
     predicates := v; tok_ind_to_symbol := tok_ind_to_symbol s;
     graph := graph s; predicate_nodes := predicate_nodes s;
     _named_entities := _named_entities s;
     _all_NEs_token_indices := _all_NEs_token_indices s |}.
Definition set_tok_ind_to_symbol (v : gmap Z string) (s : PropSWrapper) : PropSWrapper :=
  {| get_implicits := get_implicits s; get_zero_args := get_zero_args s;
     get_conj := get_conj s; pred_counter := pred_counter s;
     ent_counter := ent_counter s;
     dep_tree := dep_tree s; sentence := sentence s; entities := entities s;
     predicates := predicates s; tok_ind_to_symbol := v;
     graph := graph s; predicate_nodes := predicate_nodes s;
     _named_entities := _named_entities s;
     _all_NEs_token_indices := _all_NEs_token_indices s |}.
Definition set_graph (v : option Graph) (s : PropSWrapper) : PropSWrapper :=
  {| get_implicits := get_implicits s; get_zero_args := get_zero_args s;
     get_conj := get_conj s; pred_counter := pred_counter s;
     ent_counter := ent_counter s;
     dep_tree := dep_tree s; sentence := sentence s; entities := entities s;
     predicates := predicates s; tok_ind_to_symbol := tok_ind_to_symbol s;
     graph := v; predicate_nodes := predicate_nodes s;
     _named_entities := _named_entities s;
     _all_NEs_token_indices := _all_NEs_token_indices s |}.
Definition set_predicate_nodes (v : option (list nat)) (s : PropSWrapper) : PropSWrapper :=
  {| get_implicits := get_implicits s; get_zero_args := get_zero_args s;
     get_conj := get_conj s; pred_counter := pred_counter s;
     ent_counter := ent_counter s;
     dep_tree := dep_tree s; sentence := sentence s; entities := entities s;
     predicates := predicates s; tok_ind_to_symbol := tok_ind_to_symbol s;
     graph := graph s; predicate_nodes := v;
     _named_entities := _named_entities s;
     _all_NEs_token_indices := _all_NEs_token_indices s |}.
Definition set_named_entities (v : option (list Span.t)) (s : PropSWrapper) : PropSWrapper :=
  {| get_implicits := get_implicits s; get_zero_args := get_zero_args s;
     get_conj := get_conj s; pred_counter := pred_counter s;
     ent_counter := ent_counter s;
     dep_tree := dep_tree s; sentence := sentence s; entities := entities s;
     predicates := predicates s; tok_ind_to_symbol := tok_ind_to_symbol s;
     graph := graph s; predicate_nodes := predicate_nodes s;
     _named_entities := v;
     _all_NEs_token_indices := _all_NEs_token_indices s |}.
Definition set_all_NEs_token_indices (v : option (list Z)) (s : PropSWrapper) : PropSWrapper :=
  {| get_implicits := get_implicits s; get_zero_args := get_zero_args s;
     get_conj := get_conj s; pred_counter := pred_counter s;
     ent_counter := ent_counter s;
     dep_tree := dep_tree s; sentence := sentence s; entities := entities s;
     predicates := predicates s; tok_ind_to_symbol := tok_ind_to_symbol s;
     graph := graph s; predicate_nodes := predicate_nodes s;
     _named_entities := _named_entities s;
     _all_NEs_token_indices := v |}.

(** ** The monad of the methods: state [self] and exceptions *)

Definition M (A : Type) : Type := PropSWrapper → result (A * PropSWrapper).

Definition ret {A} (a : A) : M A := λ s, Ok (a, s).
Definition bind {A B} (m : M A) (f : A → M B) : M B := λ s,
  match m s with Ok (a, s') => f a s' | Raise e => Raise e end.
Definition raise {A} (e : exn) : M A := λ _, Raise e.
Definition gets {A} (f : PropSWrapper → A) : M A := λ s, Ok (f s, s).
Definition modify (f : PropSWrapper → PropSWrapper) : M unit := λ s, Ok (tt, f s).
Definition lift {A} (r : result A) : M A := λ s,
  match r with Ok a => Ok (a, s) | Raise e => Raise e end.
(** Reading an attribute that may not have been assigned. *)
Definition attr {A} (f : PropSWrapper → option A) : M A := λ s,
  match f s with Some a => Ok (a, s) | None => Raise AttributeError end.

Declare Scope M_scope.
Delimit Scope M_scope with M.
Bind Scope M_scope with M.
Notation "x <- m ;; k" := (bind m (λ x, k))
  (at level 100, m at next level, right associativity) : M_scope.
Notation "m ;;; k" := (bind m (λ _, k))
  (at level 100, right associativity) : M_scope.

Fixpoint forM_ {A} (l : list A) (f : A → M unit) : M unit :=
  match l with
  | [] => ret tt
  | x :: l' => bind (f x) (λ _, forM_ l' f)
  end.

Fixpoint mapM {A B} (f : A → M B) (l : list A) : M (list B) :=
  match l with
  | [] => ret []
  | x :: l' => bind (f x) (λ y, bind (mapM f l') (λ ys, ret (y :: ys)))
  end.

(** A loop that carries local variables [acc]. *)
Fixpoint foldM {A B} (f : B → A → M B) (acc : B) (l : list A) : M B :=
  match l with
  | [] => ret acc
  | x :: l' => bind (f acc x) (λ acc', foldM f acc' l')
  end.

(** ** The wrapper *)

Section Methods.

(** The number of nested calls that the interpreter still allows to a
    recursive method where the recursion starts: [sys.getrecursionlimit()]
    less the depth of the stack at that point.  The recursions of the
    wrapper have no other bound. *)
Variable recursion_limit : nat.

(** The order in which the hash containers (a [set], or a [dict] iterated
    over) yield the elements they hold during one call of [parse].  The
    order follows the hashes of the elements; the nodes of a graph and the
    words of a span are hashed by their addresses, which are new for each
    sentence and in each run of the program.  Two calls of [parse], be it
    on the same sentence, need not iterate in the same order: a statement
    about two calls has an order for each. *)
Variable hash_order : ∀ A : Type, list A → list A.
Arguments hash_order {A} _.

(** [props.applications.run.parseSentences]: the graphs of a text, each
    with its textual tree representation. *)
Variable parseSentences : string → list (Graph * string).

(** [self.spacy(unicode(sentence)).ents]. *)
Variable spacy_ents : string → list Span.t.

(** [props.graph_representation.newNode.COPULA]. *)
Variable COPULA : string.

Open Scope M_scope.

Definition _init_internal_state : M unit :=
  modify (set_pred_counter 0);;;
  modify (set_ent_counter 0);;;
  modify (set_dep_tree None);;;
  modify (set_sentence "");;;
  modify (set_entities ∅);;;
  modify (set_predicates ∅);;;
  modify (set_tok_ind_to_symbol ∅).

Definition get_okr (self : PropSWrapper) : OKR :=
  {| Sentence := sentence self;
     Entities := entities self;
     Predicates := predicates self |}.

Definition _gensym_pred : M string :=
  c <- gets pred_counter;;
  modify (set_pred_counter (c + 1));;;
  c' <- gets pred_counter;;
  ret ("P" +:+ pretty c').

Definition _gensym_ent : M string :=
  c <- gets ent_counter;;
  modify (set_ent_counter (c + 1));;;
  c' <- gets ent_counter;;
  ret ("A" +:+ pretty c').

Definition get_element_symbol (tok_ind : Z) (symbol_generator : M string) : M string :=
  tbl <- gets tok_ind_to_symbol;;
  match tbl !! tok_ind with
  | None =>
      sym <- symbol_generator;;
      tbl' <- gets tok_ind_to_symbol;;
      modify (set_tok_ind_to_symbol (<[tok_ind := sym]> tbl'))
  | Some _ => ret tt
  end;;;
  tbl'' <- gets tok_ind_to_symbol;;
  match tbl'' !! tok_ind with
  | Some sym => ret sym
  | None => raise KeyError
  end.

Definition get_entity_symbol (tok_ind : Z) : M string :=
  get_element_symbol tok_ind _gensym_ent.

Definition get_predicate_symbol (tok_ind : Z) : M string :=
  get_element_symbol tok_ind _gensym_pred.

(** *** Reading the two graphs *)

(** The object a handle stands for. *)
Definition deref {A} (l : list A) (h : nat) : result A :=
  match l !! h with Some x => Ok x | None => Raise BadHandle end.

(** [get_node_ind] probes its argument: a PropS node has [isPredicate]
    and [text], a dependency node has neither. *)
Inductive node :=
  | PropsNode (n : Props.t)
  | DepNode (d : Dep.t).

Definition node_id (n : node) : result Z :=
  match n with
  | PropsNode p =>
      match Props.id p with Some i => Ok i | None => Raise AttributeError end
  | DepNode d => Ok (Dep.id d)
  end.

Definition get_node_ind (n : node) : result Z :=
  try_except
    (match n with
     | PropsNode p =>
         if Props.isPredicate p
         then py_min (Word.index <$> Props.text p)
         else py_max (Word.index <$> Props.text p)
     | DepNode _ => Raise AttributeError
     end)
    (node_id n).

(** [get_dep_height]: the recursion follows [parent], one call for the
    node and one for each node above it.  When the chain of parents needs
    more nested calls than the interpreter allows (a deep tree, or a cycle
    of parents) Python gives up with a [RuntimeError] ("maximum recursion
    depth exceeded"): here the fuel, which counts the calls that are still
    allowed, runs out. *)
Fixpoint get_dep_height_fuel (fuel : nat) (tree : list Dep.t) (dep_node : Dep.t)
    : result nat :=
  match fuel with
  | O => Raise RuntimeError
  | S fuel' =>
      match Dep.parent dep_node with
      | Some h =>
          p ← deref tree h;
          r ← get_dep_height_fuel fuel' tree p;
          Ok (1 + r)%nat
      | None => Ok O
      end
  end.
Definition get_dep_height (tree : list Dep.t) (dep_node : Dep.t) : result nat :=
  get_dep_height_fuel recursion_limit tree dep_node.

Definition matching_dep_nodes (tree : list Dep.t) (predicate_node : Props.t)
    : list Dep.t :=
  filter (λ d, Dep.id d ∈ (Word.index <$> Props.text predicate_node)) tree.

Definition get_dep_node (tree : list Dep.t) (predicate_node : Props.t)
    : result Dep.t :=
  py_min_by (get_dep_height tree) (matching_dep_nodes tree predicate_node).

(** The nodes of all the lists of [node.neighbors()]. *)
Definition all_neighbors (n : Props.t) : list nat :=
  concat (snd <$> Props.neighbors n).

Definition is_props_dependent (ns : list Props.t) (pred_node : Props.t)
    (word_ind : Z) : result bool :=
  props_nodes ← mapM_r (deref ns) (all_neighbors pred_node);
  let all_dependent_indexes :=
    concat ((λ n, Word.index <$> Props.text n) <$> props_nodes) in
  Ok (bool_decide (word_ind ∈ all_dependent_indexes)).

Definition AUX_LABELS : list string :=
  ["det"; "neg"; "aux"; "auxpass"; "prep"; "cc"; "conj"].

Definition get_mwp (tree : list Dep.t) (ns : list Props.t)
    (predicate_node : Props.t) : result (list Dep.t) :=
  py_assert (Props.isPredicate predicate_node);;
  dep_node ← get_dep_node tree predicate_node;
  dep_children ← mapM_r (deref tree) (Dep.children dep_node);
  aux ← filterM_r (λ dep_child,
           if bool_decide (Dep.parent_relation dep_child ∈ AUX_LABELS)
           then b ← is_props_dependent ns predicate_node (Dep.id dep_child);
                Ok (negb b)
           else Ok false) dep_children;
  Ok (dep_node :: aux).

(** [get_props_neighbors]: the result is a set of nodes, here the list
    of its elements without repetition.  The recursion goes through the
    SameAs neighbours and has no guard against a cycle of them; the fuel
    counts the nested calls that the interpreter still allows, as for
    [get_dep_height]. *)
Fixpoint get_props_neighbors_fuel (fuel : nat) (ns : list Props.t) (h : nat)
    : result (list nat) :=
  match fuel with
  | O => Raise RuntimeError
  | S fuel' =>
      n ← deref ns h;
      sameAs_neighbors ← filterM_r (λ neighbor,
          nb ← deref ns neighbor;
          if Props.is_implicit nb
          then w ← py_index (Props.text nb) 0;
               Ok (bool_decide (Word.word w = COPULA))
          else Ok false) (all_neighbors n);
      across ← mapM_r (λ sameAs_neighbor,
          s ← get_props_neighbors_fuel fuel' ns sameAs_neighbor;
          Ok (hash_order s)) sameAs_neighbors;
      Ok (remove_dups
            (list_difference (remove_dups (all_neighbors n))
                             (remove_dups sameAs_neighbors)
             ++ remove_dups (concat across)))
  end.
Definition get_props_neighbors (ns : list Props.t) (h : nat) : result (list nat) :=
  get_props_neighbors_fuel recursion_limit ns h.

(** [get_predicates]: the nodes of the graph that pass the three filters. *)
Definition zero_arg_filter (self : PropSWrapper) (n : Props.t) : bool :=
  negb (get_zero_args self) && bool_decide (length (Props.neighbors n) = 0%nat).
Definition implicit_filter (self : PropSWrapper) (n : Props.t) : bool :=
  negb (get_implicits self) && Props.is_implicit n.
Definition conj_filter (self : PropSWrapper) (n : Props.t) : bool :=
  negb (get_conj self) && Props.isConj n.

Definition is_valid_pred (self : PropSWrapper) (n : Props.t) : bool :=
  Props.isPredicate n &&
  forallb (λ func : PropSWrapper → Props.t → bool, negb (func self n))
          [zero_arg_filter; implicit_filter; conj_filter].

(** The handles of [graph.nodes()], in the order of that list. *)
Definition handles (g : Graph) : list nat := seq 0 (length (nodes g)).

Definition is_valid_handle (self : PropSWrapper) (g : Graph) (h : nat) : bool :=
  match nodes g !! h with
  | Some n => is_valid_pred self n
  | None => false
  end.

Definition get_predicates : M (list nat) :=
  g <- attr graph;;
  self <- gets id;;
  ret (filter (λ h, is_valid_handle self g h = true) (handles g)).

(** *** Predicates of the graph *)

(** [sorted(set(node.str), key = lambda n: n.index)] as an entity. *)
Definition node_entity (n : Props.t) : Entity :=
  let sorted_entity := sorted Word.index (hash_order (remove_dups (Props.str n))) in
  (join " " (Word.word <$> sorted_entity),
   (λ w, Word.index w - 1)%Z <$> sorted_entity).

(** The placeholder of an argument of a predicate, with the index that
    places it in the template. *)
Definition template_element (ns : list Props.t) (symbol_generator : M string)
    (h : nat) : M (Z * string) :=
  n <- lift (deref ns h);;
  ind <- lift (get_node_ind (PropsNode n));;
  sym <- get_element_symbol ind symbol_generator;;
  ret (ind, braces sym).

Definition argument_symbol (ns : list Props.t) (symbol_generator : M string)
    (h : nat) : M string :=
  n <- lift (deref ns h);;
  ind <- lift (get_node_ind (PropsNode n));;
  get_element_symbol ind symbol_generator.

(** The neighbors of a predicate that are predicates on their own, and
    its explicit entity arguments. *)
Definition dep_preds_of (pnodes nbrs : list nat) : list nat :=
  filter (λ n, n ∈ pnodes) (hash_order nbrs).

Definition dep_entities_of (ns : list Props.t) (pnodes nbrs : list nat)
    : result (list nat) :=
  filterM_r (λ n,
      if bool_decide (n ∈ pnodes) then Ok false
      else nd ← deref ns n; Ok (negb (Props.is_implicit nd)))
    (hash_order nbrs).

(** The record of a predicate of the graph. *)
Definition graph_predicate (dep_tree : Dep.t) (predicate_node : Props.t)
    (bare_predicate : list Dep.t) (all_template_elements : list (Z * string))
    (arguments : list string) : Predicate :=
  {| Bare_predicate :=
       (join " " (Dep.word <$> sorted Dep.id bare_predicate),
        (λ n, Dep.id n - 1)%Z <$> sorted Dep.id bare_predicate);
     Template := join " " (snd <$> sorted fst all_template_elements);
     Head_ := {| Surface := SurfaceAt (Dep.word dep_tree) [(Dep.id dep_tree - 1)%Z];
                 Lemma_ := default "" (Props.features predicate_node !! "Lemma");
                 POS := Dep.pos dep_tree |};
     Arguments_ := arguments |}.

(** The body of the loop that adds the entities of a predicate, with the
    text of their whole subtree. *)
Definition store_entity (ns : list Props.t) (n : nat) : M unit :=
  nd <- lift (deref ns n);;
  ent_symbol <- argument_symbol ns _gensym_ent n;;
  ents <- gets entities;;
  modify (set_entities (<[ent_symbol := node_entity nd]> ents)).

Definition parse_predicate (h : nat) : M unit :=
  g <- attr graph;;
  tree <- attr dep_tree;;
  let ns := nodes g in
  predicate_node <- lift (deref ns h);;
  lift (py_assert (Props.isPredicate predicate_node));;;
  dep_tree <- lift (get_dep_node tree predicate_node);;
  (* the full bare predicate and a symbol for it *)
  bare_predicate <- lift (get_mwp tree ns predicate_node);;
  pred_ind <- lift (get_node_ind (PropsNode predicate_node));;
  predicate_symbol <- get_element_symbol pred_ind _gensym_pred;;
  (* the template *)
  let predicate_items := (λ n, (Dep.id n, Dep.word n)) <$> bare_predicate in
  pnodes <- attr predicate_nodes;;
  nbrs <- lift (get_props_neighbors ns h);;
  let dep_preds := dep_preds_of pnodes nbrs in
  nbrs' <- lift (get_props_neighbors ns h);;
  dep_entities <- lift (dep_entities_of ns pnodes nbrs');;
  pred_elements <- mapM (template_element ns _gensym_pred) dep_preds;;
  ent_elements <- mapM (template_element ns _gensym_ent) dep_entities;;
  let all_template_elements := predicate_items ++ pred_elements ++ ent_elements in
  (* store in this sentence's OKR *)
  ent_args <- mapM (argument_symbol ns _gensym_ent) dep_entities;;
  pred_args <- mapM (argument_symbol ns _gensym_pred) dep_preds;;
  preds <- gets predicates;;
  modify (set_predicates (<[predicate_symbol :=
    graph_predicate dep_tree predicate_node bare_predicate all_template_elements
                    (ent_args ++ pred_args)]> preds));;;
  forM_ dep_entities (store_entity ns).

Definition add_props_node_to_entities (ns : list Props.t) (h : nat) : M unit :=
  n <- lift (deref ns h);;
  ind <- lift (get_node_ind (PropsNode n));;
  sym <- get_entity_symbol ind;;
  sym' <- get_entity_symbol ind;;
  ents <- gets entities;;
  modify (set_entities (<[sym' := node_entity n]> ents)).

(** *** Implicit propositions *)

Definition IMPLICIT_SYMBOL : Entity := ("IMPLICIT", [(-1)%Z]).

Definition create_implicit_proposition (arg_symbols : list string) : Predicate :=
  {| Bare_predicate := IMPLICIT_SYMBOL;
     Template := join " " (braces <$> arg_symbols);
     Head_ := {| Surface := SurfaceStr (fst IMPLICIT_SYMBOL);
                 Lemma_ := fst IMPLICIT_SYMBOL;
                 POS := fst IMPLICIT_SYMBOL |};
     Arguments_ := arg_symbols |}.

(** *** Named entities *)

Definition relevant_labels : list string :=
  ["PERSON"; "NORP"; "FACILITY"; "ORG"; "GPE"; "LOC";
   "PRODUCT"; "EVENT"; "WORK_OF_ART"; "LANGUAGE";
   "DATE"; "TIME"; "QUANTITY"; "MONEY"].

Definition _get_named_entities : M (list Span.t) :=
  sent <- gets sentence;;
  let ents := filter (λ ent, Span.label_ ent ∈ relevant_labels) (spacy_ents sent) in
  modify (set_named_entities (Some ents));;;
  attr _named_entities.

Definition NE_to_indices (named_entity : Span.t) : list Z :=
  range (Span.start named_entity) (Span.end_ named_entity).

Definition NE_to_entity (named_entity : Span.t) : Entity :=
  (Span.text named_entity, NE_to_indices named_entity).

(** *** Entity splitting *)

(** [d[k]] on a dictionary. *)
Definition dict_get `{Countable K} {V} (d : gmap K V) (k : K) : result V :=
  match d !! k with Some v => Ok v | None => Raise KeyError end.

(** [s.discard(x)] on a set held as a list. *)
Definition discard `{EqDecision A} (x : A) (s : list A) : list A :=
  filter (λ y, y ≠ x) s.

(** The local variables of [_split_entities] that its loop updates:
    [ret] and the yet-to-insert set of named entities.  Two spans are the
    same named entity when all their fields agree. *)
Record split_locals := {
  ret_ : gmap string Entity;
  NEs_to_insert : list Span.t
}.

Definition first_child (tree : list Dep.t) (d : Dep.t) : result Dep.t :=
  h ← py_index (Dep.children d) 0; deref tree h.

Definition parent_node (tree : list Dep.t) (d : Dep.t) : result Dep.t :=
  match Dep.parent d with
  | Some h => deref tree h
  | None => Raise AttributeError
  end.

(** A preposition whose sole child is in this span. *)
Definition is_prep_in_span (tree : list Dep.t) (cur_dep_node : Dep.t)
    (ent_indices : list Z) : result bool :=
  if bool_decide (Dep.parent_relation cur_dep_node ∈ ["prep"])
     && bool_decide (length (Dep.children cur_dep_node) = 1%nat)
  then c ← first_child tree cur_dep_node;
       Ok (bool_decide ((Dep.id c - 1)%Z ∈ ent_indices))
  else Ok false.

(** The object of a preposition of this span. *)
Definition is_pobj_in_span (tree : list Dep.t) (cur_dep_node : Dep.t)
    (ent_indices : list Z) : result bool :=
  if bool_decide (Dep.parent_relation cur_dep_node = "pobj")
  then p ← parent_node tree cur_dep_node;
       Ok (bool_decide ((Dep.id p - 1)%Z ∈ ent_indices))
  else Ok false.

Definition prep_predicate (ent_head_symbol word prep_child_symbol : string)
    (ind : Z) : Predicate :=
  {| Bare_predicate := (word, [ind]);
     Template := braces ent_head_symbol +:+ " " +:+ word +:+ " "
                 +:+ braces prep_child_symbol;
     Head_ := {| Surface := SurfaceStr word; Lemma_ := word; POS := "IN" |};
     Arguments_ := [ent_head_symbol; prep_child_symbol] |}.

(** The root of a named entity that was not yet inserted as an entity. *)
Definition is_pending_root (NE_root_ind_to_ent : gmap Z Span.t)
    (loc : split_locals) (ind : Z) : bool :=
  match NE_root_ind_to_ent !! ind with
  | Some ne => bool_decide (ne ∈ NEs_to_insert loc)
  | None => false
  end.

(** The body of the loop over the tokens of one entity. *)
Definition split_token (NE_root_ind_to_ent : gmap Z Span.t)
    (ent_head_symbol : string) (cur_head_ind : Z) (ent_indices : list Z)
    (loc : split_locals) (tok : string * Z) : M split_locals :=
  let word := tok.1 in
  let ind := tok.2 in
  tree <- attr dep_tree;;
  cur_dep_node <- lift (py_index tree (ind + 1));;
  if bool_decide ((ind + 1)%Z = cur_head_ind)
     && bool_decide (ret_ loc !! ent_head_symbol = None)
  then
    (* replace this entity with its head *)
    ret {| ret_ := <[ent_head_symbol := (word, [ind])]> (ret_ loc);
           NEs_to_insert := NEs_to_insert loc |}
  else if is_pending_root NE_root_ind_to_ent loc ind
  then
    (* a new entity, with a new symbol, for the named entity *)
    NE_ent_symbol <- get_element_symbol (ind + 1) _gensym_ent;;
    named_entity <- lift (dict_get NE_root_ind_to_ent ind);;
    ret {| ret_ := <[NE_ent_symbol := NE_to_entity named_entity]> (ret_ loc);
           NEs_to_insert := discard named_entity (NEs_to_insert loc) |}
  else
    all_NEs <- attr _all_NEs_token_indices;;
    if bool_decide (ind ∈ all_NEs) then ret loc
    else if bool_decide (Dep.parent_relation cur_dep_node ∈ ["det"]) then ret loc
    else
      is_prep <- lift (is_prep_in_span tree cur_dep_node ent_indices);;
      if is_prep : bool
      then
        (* the preposition becomes a predicate *)
        prep_child <- lift (first_child tree cur_dep_node);;
        prep_child_symbol <- get_element_symbol (Dep.id prep_child) _gensym_ent;;
        let ret' := <[prep_child_symbol :=
                        (Dep.word prep_child, [(Dep.id prep_child - 1)%Z])]>
                      (ret_ loc) in
        prep_symbol <- get_element_symbol (ind + 1) _gensym_pred;;
        preds <- gets predicates;;
        modify (set_predicates
          (<[prep_symbol := prep_predicate ent_head_symbol word prep_child_symbol ind]>
             preds));;;
        ret {| ret_ := ret'; NEs_to_insert := NEs_to_insert loc |}
      else
        is_pobj <- lift (is_pobj_in_span tree cur_dep_node ent_indices);;
        if is_pobj : bool then ret loc
        else
          (* a new entity for this word and an implicit relation to the head *)
          new_ent_symbol <- get_element_symbol (ind + 1) _gensym_ent;;
          let ret' := <[new_ent_symbol := (word, [ind])]> (ret_ loc) in
          let prop := create_implicit_proposition
            (fst <$> sorted snd [(new_ent_symbol, (ind + 1)%Z);
                                 (ent_head_symbol, cur_head_ind)]) in
          imp_sym <- _gensym_pred;;
          preds <- gets predicates;;
          modify (set_predicates (<[imp_sym := prop]> preds));;;
          ret {| ret_ := ret'; NEs_to_insert := NEs_to_insert loc |}.

(** The body of the loop over the entities. *)
Definition split_entity (ent_symbol_to_head_ind : gmap string Z)
    (NE_root_ind_to_ent tok_ind_to_NE : gmap Z Span.t)
    (loc : split_locals) (item : string * Entity) : M split_locals :=
  let ent_head_symbol := item.1 in
  let ent_str := item.2.1 in
  let ent_indices := item.2.2 in
  cur_head_ind <- lift (dict_get ent_symbol_to_head_ind ent_head_symbol);;
  all_NEs <- attr _all_NEs_token_indices;;
  loc' <- (if bool_decide ((cur_head_ind - 1)%Z ∈ all_NEs)
           then
             (* the head of the entity is within a named entity *)
             named_entity <- lift (dict_get tok_ind_to_NE (cur_head_ind - 1)%Z);;
             ret {| ret_ := <[ent_head_symbol := NE_to_entity named_entity]> (ret_ loc);
                    NEs_to_insert := discard named_entity (NEs_to_insert loc) |}
           else ret loc);;
  foldM (split_token NE_root_ind_to_ent ent_head_symbol cur_head_ind ent_indices)
        loc' (zip (split ent_str) ent_indices).

Definition _split_entities : M (gmap string Entity) :=
  tbl <- gets tok_ind_to_symbol;;
  let ent_symbol_to_head_ind :=
    py_dict ((λ kv, (kv.2, kv.1)) <$> hash_order (map_to_list tbl)) in
  _get_named_entities;;;
  nes <- _get_named_entities;;
  let to_insert := remove_dups nes in
  named <- attr _named_entities;;
  let NE_root_ind_to_ent := py_dict ((λ ent, (Span.root_i ent, ent)) <$> named) in
  named' <- attr _named_entities;;
  modify (set_all_NEs_token_indices (Some (concat (NE_to_indices <$> named'))));;;
  named'' <- attr _named_entities;;
  let tok_ind_to_NE :=
    py_dict (concat ((λ ent, (λ ind, (ind, ent)) <$> NE_to_indices ent) <$> named'')) in
  ents <- gets entities;;
  loc <- foldM (split_entity ent_symbol_to_head_ind NE_root_ind_to_ent tok_ind_to_NE)
               {| ret_ := ∅; NEs_to_insert := to_insert |}
               (hash_order (map_to_list ents));;
  ret (ret_ loc).

(** *** Modifiers, and the whole sentence *)

Definition get_sentence : M string :=
  tree <- attr dep_tree;;
  ret (join " " (Dep.word <$> drop 1 (sorted Dep.id tree))).

Definition handle_ind (ns : list Props.t) (h : nat) : result Z :=
  n ← deref ns h; get_node_ind (PropsNode n).

(** [sorted([ent, modifier], key = get_node_ind)]. *)
Definition ordered_pair (ns : list Props.t) (ent modifier : nat) : result (list nat) :=
  i ← handle_ind ns ent;
  j ← handle_ind ns modifier;
  Ok (fst <$> sorted snd [(ent, i); (modifier, j)]).

Definition is_modifier (ns : list Props.t) (all_NEs : list Z) (h : nat) : result bool :=
  m ← deref ns h;
  if Props.isPredicate m then Ok false
  else if Props.is_implicit m then Ok false
  else i ← get_node_ind (PropsNode m);
       Ok (negb (bool_decide ((i - 1)%Z ∈ all_NEs))).

Definition add_modifier (ns : list Props.t) (ent modifier : nat) : M unit :=
  ordered_args <- lift (ordered_pair ns ent modifier);;
  add_props_node_to_entities ns modifier;;;
  imp_sym <- _gensym_pred;;
  args <- mapM (λ h, i <- lift (handle_ind ns h);; get_entity_symbol i) ordered_args;;
  preds <- gets predicates;;
  modify (set_predicates (<[imp_sym := create_implicit_proposition args]> preds)).

Definition add_modifiers_as_implicits : M unit :=
  g <- attr graph;;
  let ns := nodes g in
  forM_ (handles g) (λ ent,
    i <- lift (handle_ind ns ent);;
    tbl <- gets tok_ind_to_symbol;;
    if bool_decide (is_Some (tbl !! i)) then
      sym <- get_entity_symbol i;;
      ents <- gets entities;;
      if bool_decide (is_Some (ents !! sym)) then
        nbrs <- lift (get_props_neighbors ns ent);;
        all_NEs <- attr _all_NEs_token_indices;;
        modifiers <- lift (filterM_r (is_modifier ns all_NEs) (hash_order nbrs));;
        forM_ modifiers (add_modifier ns ent)
      else ret tt
    else ret tt).

Definition parse_okr : M unit :=
  pnodes <- get_predicates;;
  modify (set_predicate_nodes (Some pnodes));;;
  pnodes' <- attr predicate_nodes;;
  forM_ pnodes' parse_predicate;;;
  ents <- _split_entities;;
  modify (set_entities ents);;;
  add_modifiers_as_implicits.

Definition parse (sent : string) : M unit :=
  _init_internal_state;;;
  gt <- lift (py_index (parseSentences sent) 0);;
  modify (set_graph (Some gt.1));;;
  g <- attr graph;;
  modify (set_dep_tree (Some (dep_tree_values g)));;;
  s <- get_sentence;;
  modify (set_sentence s);;;
  parse_okr.

End Methods.

(** * Vocabulary of the statements *)

(** A PropS node lists under each relation label of [neighbors()] the
    non-empty list of the nodes it reaches by an edge of that label. *)
Definition neighbors_wf (n : Props.t) : Prop :=
  Forall (λ item : string * list nat, item.2 ≠ []) (Props.neighbors n).
Global Instance neighbors_wf_dec (n : Props.t) : Decision (neighbors_wf n).
Proof. unfold neighbors_wf. apply _. Defined.

(** What [parse_okr] does once the predicates are selected. *)
Definition parse_selected (recursion_limit : nat)
    (hash_order : ∀ A : Type, list A → list A)
    (spacy_ents : string → list Span.t) (COPULA : string)
    (selected : list nat) : M unit :=
  (forM_ selected (parse_predicate recursion_limit hash_order COPULA);;;
   ents <- _split_entities hash_order spacy_ents;;
   modify (set_entities ents);;;
   add_modifiers_as_implicits recursion_limit hash_order COPULA)%M.

(** ** Sentences used as examples *)

(** The depth of recursion that the interpreter allows in the examples. *)
Definition some_limit : nat := 900.

(** A hash order: the elements in the order they were given. *)
Definition given_order : ∀ A : Type, list A → list A := λ _ l, l.

(** The instance with the three flags given to [__init__], once
    [_init_internal_state] has run on it: counters at 0, no sentence, no
    entity, no predicate and no symbol.  [parse] runs
    [_init_internal_state] first, so a sentence parsed by an instance fresh
    from [__init__] is parsed from this state. *)
Definition blank_wrapper (get_implicits get_zero_args get_conj : bool) : PropSWrapper :=
  {| get_implicits := get_implicits; get_zero_args := get_zero_args;
     get_conj := get_conj; pred_counter := 0; ent_counter := 0;
     dep_tree := None; sentence := ""; entities := ∅; predicates := ∅;
     tok_ind_to_symbol := ∅; graph := None; predicate_nodes := None;
     _named_entities := None; _all_NEs_token_indices := None |}.

(** "see capital of New York": the predicate "see" and its object, whose
    span is "capital of New York" and whose last word is its head; the
    named entity "New York". *)
Definition york_tree : list Dep.t :=
  [ Dep.mk 0 "ROOT" "ROOT" "" None [1%nat];
    Dep.mk 1 "see" "VB" "root" (Some 0%nat) [2%nat];
    Dep.mk 2 "capital" "NN" "dobj" (Some 1%nat) [3%nat];
    Dep.mk 3 "of" "IN" "prep" (Some 2%nat) [5%nat];
    Dep.mk 4 "New" "NNP" "nn" (Some 5%nat) [];
    Dep.mk 5 "York" "NNP" "pobj" (Some 3%nat) [4%nat] ].
Definition york_span : list Word.t :=
  [Word.mk 2 "capital"; Word.mk 3 "of"; Word.mk 4 "New"; Word.mk 5 "York"].
Definition york_nodes : list Props.t :=
  [ Props.mk true false false [Word.mk 1 "see"] [Word.mk 1 "see"]
      [("dobj", [1%nat])] ∅ None;
    Props.mk false false false york_span york_span [] ∅ None ].
Definition york_graph : Graph :=
  {| dep_tree_values := york_tree; nodes := york_nodes |}.
Definition york_ents : list Span.t := [Span.mk 3 5 4 "New York" "GPE"].
Definition york_sentence : string := "see capital of New York".

(** The wrapper on that sentence, with the parser and the tagger giving
    the graph and the named entity above. *)
Definition york_parse : M unit :=
  parse some_limit given_order (λ _, [(york_graph, "")]) (λ _, york_ents) "SameAs"
        york_sentence.

(** The wrapper after [get_entity_symbol(3)] on a new instance. *)
Definition wrapper_with_A1 : PropSWrapper :=
  set_tok_ind_to_symbol {[ 3%Z := "A1" ]}
    (set_ent_counter 1 (blank_wrapper false false false)).

(** A triple for the methods: from a state where [P] holds, if [m]
    returns, [Q] holds of its value and of the state it leaves. *)
Definition hoare {A} (P : PropSWrapper → Prop) (m : M A)
    (Q : A → PropSWrapper → Prop) : Prop :=
  ∀ s a s', P s → m s = Ok (a, s') → Q a s'.

(** The fields that only [parse] and [parse_okr] assign agree. *)
Definition same_sentence (s s' : PropSWrapper) : Prop :=
  get_implicits s' = get_implicits s
  ∧ get_zero_args s' = get_zero_args s
  ∧ get_conj s' = get_conj s
  ∧ graph s' = graph s
  ∧ dep_tree s' = dep_tree s
  ∧ sentence s' = sentence s
  ∧ predicate_nodes s' = predicate_nodes s.

(** The two symbol generators of the wrapper. *)
Definition is_gensym (symbol_generator : M string) : Prop :=
  symbol_generator = _gensym_pred ∨ symbol_generator = _gensym_ent.

(** A method that leaves alone the fields of [same_sentence]. *)
Definition frame {A} (m : M A) : Prop :=
  ∀ s a s', m s = Ok (a, s') → same_sentence s s'.

(** The instance that [parse] hands to the loop over the predicates: the
    fields reset by [_init_internal_state], then the graph, the dependency
    tree, the sentence and the selected predicates. *)
Definition reset (s : PropSWrapper) : PropSWrapper :=
  set_tok_ind_to_symbol ∅ (set_predicates ∅ (set_entities ∅ (set_sentence ""
    (set_dep_tree None (set_ent_counter 0 (set_pred_counter 0 s)))))).

Definition tokenized (g : Graph) : string :=
  join " " (Dep.word <$> drop 1 (sorted Dep.id (dep_tree_values g))).

Definition selected_of (s : PropSWrapper) (g : Graph) : list nat :=
  filter (λ h, is_valid_handle s g h = true) (handles g).

Definition loaded (g : Graph) (s : PropSWrapper) : PropSWrapper :=
  set_predicate_nodes (Some (selected_of s g))
    (set_sentence (tokenized g)
       (set_dep_tree (Some (dep_tree_values g)) (set_graph (Some g) (reset s)))).

(** The same sentence with a graph whose predicate node names a token,
    the ninth, that the dependency tree does not have. *)
Definition orphan_node : Props.t :=
  Props.mk true false false [Word.mk 9 "see"] [Word.mk 9 "see"]
    [("dobj", [1%nat])] ∅ None.
Definition orphan_graph : Graph :=
  {| dep_tree_values := york_tree;
     nodes := [ orphan_node;
                Props.mk false false false york_span york_span [] ∅ None ] |}.
Definition orphan_parse : M unit :=
  parse some_limit given_order (λ _, [(orphan_graph, "")]) (λ _, york_ents) "SameAs"
        york_sentence.

(** In ascending order of [key]. *)
Definition ascending {A} (key : A → Z) (l : list A) : Prop :=
  StronglySorted (λ x y, (key x ≤ key y)%Z) l.

(** A step that only hands out symbols: the table keeps its bindings and
    may get new ones, the counters do not go down, nothing else changes. *)
Definition allocates (s s' : PropSWrapper) : Prop :=
  same_sentence s s'
  ∧ tok_ind_to_symbol s ⊆ tok_ind_to_symbol s'
  ∧ entities s' = entities s
  ∧ predicates s' = predicates s
  ∧ _named_entities s' = _named_entities s
  ∧ _all_NEs_token_indices s' = _all_NEs_token_indices s.

(** The placeholder of the argument [h] in a template, once the symbols
    are those of the table of [s]: its place is the index of the node, its
    text the symbol of that index in braces. *)
Definition placeholder_of (ns : list Props.t) (s : PropSWrapper) (h : nat)
    (element : Z * string) : Prop :=
  ∃ ind sym,
    handle_ind ns h = Ok ind
    ∧ tok_ind_to_symbol s !! ind = Some sym
    ∧ element = (ind, braces sym).

(** The instance after [parse_predicate] on the node "see" of
    "see capital of New York". *)
Definition york_loaded : PropSWrapper :=
  loaded york_graph (blank_wrapper false false false).
Definition york_after_see : PropSWrapper :=
  match parse_predicate some_limit given_order "SameAs" 0 york_loaded with
  | Ok (_, s) => s
  | Raise _ => york_loaded
  end.



(** The token of a span that the loop of [split_token] lets through to
    its last branches: it is not the head that is still to be inserted, not
    the root of a named entity that was not inserted yet, and not inside a
    named entity. *)
Definition falls_through (NE_root_ind_to_ent : gmap Z Span.t)
    (all_NEs : list Z) (ent_head_symbol : string) (cur_head_ind : Z)
    (loc : split_locals) (ind : Z) : Prop :=
  ((ind + 1)%Z ≠ cur_head_ind ∨ is_Some (ret_ loc !! ent_head_symbol))
  ∧ is_pending_root NE_root_ind_to_ent loc ind = false
  ∧ ind ∉ all_NEs.

(** An instance in the middle of entity splitting, on the example
    "see capital of New York": the token "of" of the entity A1. *)
Definition york_splitting : PropSWrapper :=
  set_all_NEs_token_indices (Some [3%Z; 4%Z])
    (set_named_entities (Some york_ents) york_after_see).
Definition york_locals : split_locals :=
  {| ret_ := {[ "A1" := ("New York", [3%Z; 4%Z]) ]}; NEs_to_insert := [] |}.
Definition york_roots : gmap Z Span.t :=
  {[ 4%Z := Span.mk 3 5 4 "New York" "GPE" ]}.

(** The whole pipeline for a sentence: [parse], then [get_okr]. *)
Definition run_pipeline (recursion_limit : nat)
    (hash_order : ∀ A : Type, list A → list A)
    (parseSentences : string → list (Graph * string))
    (spacy_ents : string → list Span.t) (COPULA : string)
    (sent : string) (self : PropSWrapper) : result OKR :=
  match parse recursion_limit hash_order parseSentences spacy_ents COPULA sent self with
  | Ok (_, self') => Ok (get_okr self')
  | Raise e => Raise e
  end.




(** ** No dangling reference: the vocabulary *)

(** A symbol of the "A" family, as [_gensym_ent] makes them. *)
Definition is_entity_symbol (sym : string) : Prop :=
  ∃ rest, sym = String "A"%char rest.


(** A node of the graph has words of its own, and they are among the
    words of the span that PropS attaches to it ([str]). *)
Definition span_wf (n : Props.t) : Prop :=
  Props.text n ≠ [] ∧ Props.text n ⊆ Props.str n.
Global Instance span_wf_dec (n : Props.t) : Decision (span_wf n).
Proof. unfold span_wf. apply _. Defined.

(** The symbols of the table were made by the two generators, with the
    counters as they were then, and no symbol is bound to two tokens. *)
Definition symbols_wf (s : PropSWrapper) : Prop :=
  (∀ i sym, tok_ind_to_symbol s !! i = Some sym →
     (∃ k, sym = "A" +:+ pretty k ∧ (k ≤ ent_counter s)%nat)
     ∨ (∃ k, sym = "P" +:+ pretty k ∧ (k ≤ pred_counter s)%nat))
  ∧ (∀ i j sym, tok_ind_to_symbol s !! i = Some sym →
       tok_ind_to_symbol s !! j = Some sym → i = j).


(** The entity symbols of the table are among the keys [keys], but for
    those of the tokens of [pending], whose entity is still to be stored. *)
Definition covered (tbl : gmap Z string) (keys : gset string)
    (pending : Z → Prop) : Prop :=
  ∀ i sym, tbl !! i = Some sym → is_entity_symbol sym → sym ∈ keys ∨ pending i.

(** A step that hands out symbols, new entity symbols only to tokens of
    [fresh]. *)
Definition grows_by (fresh : Z → Prop) (s s' : PropSWrapper) : Prop :=
  allocates s s'
  ∧ (symbols_wf s → symbols_wf s')
  ∧ ∀ i sym, tok_ind_to_symbol s' !! i = Some sym →
             tok_ind_to_symbol s !! i = Some sym
             ∨ ¬ is_entity_symbol sym ∨ fresh i.


(** The indices of the nodes [l]. *)
Definition inds_of (ns : list Props.t) (l : list nat) (i : Z) : Prop :=
  ∃ n, n ∈ l ∧ handle_ind ns n = Ok i.


(** A hash container yields each of its elements once. *)
Definition yields_all (hash_order : ∀ A : Type, list A → list A) : Prop :=
  ∀ (A : Type) (l : list A), hash_order A l ≡ₚ l.





(** The instance after the parse of "see capital of New York". *)
Definition york_final : PropSWrapper :=
  match york_parse (blank_wrapper false false false) with
  | Ok (_, s) => s
  | Raise _ => blank_wrapper false false false
  end.

(** The chain of parents of a dependency node reaches a node without
    parent after [k] steps. *)
Inductive parent_chain (tree : list Dep.t) : Dep.t → nat → Prop :=
  | chain_root d : Dep.parent d = None → parent_chain tree d 0
  | chain_step d h p k :
      Dep.parent d = Some h → tree !! h = Some p →
      parent_chain tree p k → parent_chain tree d (S k).

(** A SameAs node: an implicit node whose first word is the copula. *)
Definition is_sameAs (COPULA : string) (nb : Props.t) : Prop :=
  Props.is_implicit nb = true
  ∧ ∃ w, head (Props.text nb) = Some w ∧ Word.word w = COPULA.

(** The node [x] is reached from the node [h] by an edge to [x], or by
    edges through SameAs nodes, and is not a SameAs node itself. *)
Inductive across_sameAs (COPULA : string) (ns : list Props.t) : nat → nat → Prop :=
  | across_here h n x nb :
      ns !! h = Some n → x ∈ all_neighbors n → ns !! x = Some nb →
      ¬ is_sameAs COPULA nb → across_sameAs COPULA ns h x
  | across_next h n y nb x :
      ns !! h = Some n → y ∈ all_neighbors n → ns !! y = Some nb →
      is_sameAs COPULA nb → across_sameAs COPULA ns y x →
      across_sameAs COPULA ns h x.

(** "John , the chairman , resigned": the subject of the predicate is a
    SameAs node that joins the two noun phrases. *)
Definition appos_nodes : list Props.t :=
  [ Props.mk true false false [Word.mk 6 "resigned"] [Word.mk 6 "resigned"]
      [("subj", [1%nat])] ∅ None;
    Props.mk true true false [Word.mk 0 "SameAs"] [Word.mk 0 "SameAs"]
      [("arg", [2%nat; 3%nat])] ∅ None;
    Props.mk false false false [Word.mk 1 "John"] [Word.mk 1 "John"] [] ∅ None;
    Props.mk false false false [Word.mk 4 "chairman"]
      [Word.mk 3 "the"; Word.mk 4 "chairman"] [] ∅ None ].

(** No argument of the node [n] has the token [i] among its words. *)
Definition outside_arguments (ns : list Props.t) (n : Props.t) (i : Z) : Prop :=
  ∀ x nb, x ∈ all_neighbors n → ns !! x = Some nb →
          i ∉ (Word.index <$> Props.text nb).

(** "John has resigned". *)
Definition resigned_tree : list Dep.t :=
  [ Dep.mk 0 "ROOT" "ROOT" "" None [3%nat];
    Dep.mk 1 "John" "NNP" "nsubj" (Some 3%nat) [];
    Dep.mk 2 "has" "VBZ" "aux" (Some 3%nat) [];
    Dep.mk 3 "resigned" "VBN" "root" (Some 0%nat) [1%nat; 2%nat] ].
Definition resigned_node : Props.t :=
  Props.mk true false false [Word.mk 3 "resigned"]
    [Word.mk 2 "has"; Word.mk 3 "resigned"] [("subj", [1%nat])]
    {[ "Lemma" := "resign" ]} None.
Definition resigned_nodes : list Props.t :=
  [ resigned_node;
    Props.mk false false false [Word.mk 1 "John"] [Word.mk 1 "John"] [] ∅ None ].



(** "John": a graph with one node, that is no predicate, and a named
    entity. *)
Definition name_tree : list Dep.t :=
  [ Dep.mk 0 "ROOT" "ROOT" "" None [1%nat];
    Dep.mk 1 "John" "NNP" "root" (Some 0%nat) [] ].
Definition name_graph : Graph :=
  {| dep_tree_values := name_tree;
     nodes := [ Props.mk false false false [Word.mk 1 "John"]
                  [Word.mk 1 "John"] [] ∅ None ] |}.
Definition name_ents : list Span.t := [Span.mk 0 1 0 "John" "PERSON"].

(** ** The script *)









(** A word without a space in it. *)
Fixpoint spaceless (w : string) : bool :=
  match w with
  | EmptyString => true
  | String c w' => negb (Ascii.eqb c " "%char) && spaceless w'
  end.

(** The same instance when the tagger found no named entity. *)
Definition york_untagged : PropSWrapper :=
  set_all_NEs_token_indices (Some []) (set_named_entities (Some []) york_after_see).

(** The symbol is bound to a token in the table. *)
Definition in_table (s : PropSWrapper) (sym : string) : Prop :=
  ∃ i, tok_ind_to_symbol s !! i = Some sym.

(** The key of an implicit proposition: a predicate symbol that was
    generated for no token. *)
Definition implicit_key (s : PropSWrapper) (p : string) : Prop :=
  ∃ k args, p = "P" +:+ pretty k ∧ (k ≤ pred_counter s)%nat
            ∧ predicates s !! p = Some (create_implicit_proposition args).

(** The keys of the record are generated symbols: those of the entities
    are bound to tokens, and so are those of the predicates, but for the
    keys of implicit propositions. *)
Definition keys_wf (s : PropSWrapper) : Prop :=
  symbols_wf s
  ∧ (∀ e, is_Some (entities s !! e) → in_table s e)
  ∧ (∀ p, is_Some (predicates s !! p) → in_table s p ∨ implicit_key s p).

(** A step after which the table has its bindings still and the
    counters are not less. *)
Definition advances (s s' : PropSWrapper) : Prop :=
  tok_ind_to_symbol s ⊆ tok_ind_to_symbol s'
  ∧ (pred_counter s ≤ pred_counter s')%nat
  ∧ (ent_counter s ≤ ent_counter s')%nat.

(** The symbol is neither bound to a token nor a key of the record. *)
Definition unused (s : PropSWrapper) (sym : string) : Prop :=
  ¬ in_table s sym ∧ entities s !! sym = None ∧ predicates s !! sym = None.



(** The three kinds of predicates of a record: that of a predicate node
    of the graph, that of a preposition inside an entity, and the implicit
    proposition over two symbols. *)
Definition of_graph_node (recursion_limit : nat) (g : Graph)
    (record : Predicate) : Prop :=
  ∃ h n anchor bare elements arguments,
    nodes g !! h = Some n
    ∧ Props.isPredicate n = true
    ∧ get_dep_node recursion_limit (dep_tree_values g) n = Ok anchor
    ∧ get_mwp recursion_limit (dep_tree_values g) (nodes g) n = Ok bare
    ∧ record = graph_predicate anchor n bare elements arguments.

Definition of_preposition (record : Predicate) : Prop :=
  ∃ head word child ind, record = prep_predicate head word child ind.

Definition of_implicit (record : Predicate) : Prop :=
  ∃ a b, record = create_implicit_proposition [a; b].

Definition predicate_kinds (recursion_limit : nat) (g : Graph)
    (preds : gmap string Predicate) : Prop :=
  ∀ p record, preds !! p = Some record →
    of_graph_node recursion_limit g record ∨ of_preposition record ∨ of_implicit record.






(** The exceptions that would show a fault of the wrapper itself: a
    dictionary read at a key that it lacks, and a failed assertion. *)
Definition internal_error (e : exn) : Prop := e = KeyError ∨ e = AssertionError.

(** A computation that raises no such exception. *)
Definition sound {A} (r : result A) : Prop :=
  ∀ e, r = Raise e → ¬ internal_error e.



(** The tokens "has" and "resigned" of "John has resigned", and a
    predicate node whose words are both. *)
Definition has_token : Dep.t := Dep.mk 2 "has" "VBZ" "aux" (Some 3%nat) [].
Definition resigned_token : Dep.t :=
  Dep.mk 3 "resigned" "VBN" "root" (Some 0%nat) [1%nat; 2%nat].
Definition has_resigned_node : Props.t :=
  Props.mk true false false [Word.mk 2 "has"; Word.mk 3 "resigned"]
    [Word.mk 2 "has"; Word.mk 3 "resigned"] [("subj", [1%nat])]
    {[ "Lemma" := "resign" ]} None.

(** * Properties *)

(** ** Reasoning about the two monads *)

Lemma rbind_Ok {A B} (m : result A) (f : A → result B) (b : B) :
  (m ≫= f) = Ok b ↔ ∃ a, m = Ok a ∧ f a = Ok b.
Proof.
  destruct m as [a|e]; simpl; split.
  - intros H. exists a. done.
  - intros (a' & [= <-] & H). done.
  - done.
  - intros (a' & [=] & _).
Qed.

Lemma bind_Ok {A B} (m : M A) (f : A → M B) s b s'' :
  bind m f s = Ok (b, s'') ↔ ∃ a s', m s = Ok (a, s') ∧ f a s' = Ok (b, s'').
Proof.
  unfold bind. destruct (m s) as [[a s']|e]; split.
  - intros H. by exists a, s'.
  - by intros (a' & s1 & [= <- <-] & H).
  - done.
  - by intros (a' & s1 & [=] & _).
Qed.

Lemma lift_Ok {A} (r : result A) s a s' :
  lift r s = Ok (a, s') ↔ r = Ok a ∧ s' = s.
Proof.
  unfold lift. destruct r; split; try done.
  - by intros [= <- <-].
  - by intros [[= <-] ->].
  - by intros [[=] _].
Qed.

Lemma attr_Ok {A} (f : PropSWrapper → option A) s a s' :
  attr f s = Ok (a, s') ↔ f s = Some a ∧ s' = s.
Proof.
  unfold attr. destruct (f s); split; try done.
  - by intros [= <- <-].
  - by intros [[= <-] ->].
  - by intros [[=] _].
Qed.

Lemma gets_Ok {A} (f : PropSWrapper → A) s a s' :
  gets f s = Ok (a, s') ↔ a = f s ∧ s' = s.
Proof. unfold gets. split; [by intros [= <- <-] | by intros [-> ->]]. Qed.

Lemma modify_Ok (f : PropSWrapper → PropSWrapper) s u s' :
  modify f s = Ok (u, s') ↔ s' = f s.
Proof. unfold modify. destruct u. split; [by intros [= <-] | by intros ->]. Qed.

Lemma ret_Ok {A} (x : A) s a s' : ret x s = Ok (a, s') ↔ a = x ∧ s' = s.
Proof. unfold ret. split; [by intros [= <- <-] | by intros [-> ->]]. Qed.

Lemma raise_Ok {A} (e : exn) s (a : A) s' : raise e s = Ok (a, s') ↔ False.
Proof. done. Qed.

(** Decompose the hypotheses that a monadic computation returned. *)
Ltac inv_M_step :=
  match goal with
  | H : bind _ _ _ = Ok _ |- _ =>
      apply bind_Ok in H; destruct H as (? & ? & ? & ?)
  | H : lift _ _ = Ok _ |- _ => apply lift_Ok in H; destruct H as [? ?]; subst
  | H : attr _ _ = Ok _ |- _ => apply attr_Ok in H; destruct H as [? ?]; subst
  | H : gets _ _ = Ok _ |- _ => apply gets_Ok in H; destruct H as [? ?]; subst
  | H : modify _ _ = Ok _ |- _ => apply modify_Ok in H; subst
  | H : ret _ _ = Ok _ |- _ => apply ret_Ok in H; destruct H as [? ?]; subst
  | H : raise _ _ = Ok _ |- _ => by apply raise_Ok in H
  end.
Ltac inv_M := repeat inv_M_step.

(** ** Selection of the predicates (C2) *)

Lemma is_valid_pred_spec (self : PropSWrapper) (n : Props.t) :
  is_valid_pred self n = true ↔
    Props.isPredicate n = true
    ∧ (get_zero_args self = true ∨ Props.neighbors n ≠ [])
    ∧ (get_implicits self = true ∨ Props.is_implicit n = false)
    ∧ (get_conj self = true ∨ Props.isConj n = false).
Proof.
  unfold is_valid_pred, zero_arg_filter, implicit_filter, conj_filter. simpl.
  destruct (Props.isPredicate n), (get_zero_args self), (get_implicits self),
    (get_conj self), (Props.is_implicit n), (Props.isConj n),
    (Props.neighbors n) as [|x l]; simpl;
    (split; [intros ?|intros (?&?&?&?)]; repeat split; try done;
     try (by left); try (by right); intuition congruence).
Qed.


Lemma elem_of_selected (self : PropSWrapper) (g : Graph) (h : nat) :
  h ∈ filter (λ h, is_valid_handle self g h = true) (handles g)
  ↔ ∃ n, nodes g !! h = Some n ∧ is_valid_pred self n = true.
Proof.
  rewrite list_elem_of_filter. unfold is_valid_handle, handles. split.
  - intros [Hv _]. destruct (nodes g !! h) as [n|]; [|done]. by exists n.
  - intros (n & Hn & Hv). rewrite Hn. split; [done|].
    apply elem_of_seq. apply lookup_lt_Some in Hn. lia.
Qed.


Section Selection.

Variable recursion_limit : nat.

Variable hash_order : ∀ A : Type, list A → list A.
Variable spacy_ents : string → list Span.t.
Variable COPULA : string.


End Selection.


(** ** The symbol table (C7) *)

(** C7, as the code has it. A token index that is bound to a symbol keeps
    it: asking for a symbol of either kind returns the bound symbol,
    whatever its kind, raises nothing, and leaves the instance as it is. *)
Theorem get_element_symbol_bound (self : PropSWrapper) (tok_ind : Z)
    (sym : string) (symbol_generator : M string) :
  tok_ind_to_symbol self !! tok_ind = Some sym →
  get_element_symbol tok_ind symbol_generator self = Ok (sym, self).
Proof.
  intros Hbound. unfold get_element_symbol, bind, gets. simpl.
  rewrite Hbound. simpl. by rewrite Hbound.
Qed.

Lemma get_element_symbol_bound_witness :
  tok_ind_to_symbol wrapper_with_A1 !! 3%Z = Some "A1"
  ∧ get_element_symbol 3 _gensym_pred wrapper_with_A1 = Ok ("A1", wrapper_with_A1).
Proof.
  split; [reflexivity|].
  apply (get_element_symbol_bound wrapper_with_A1 3 "A1" _gensym_pred).
  reflexivity.
Defined.

(** The claim as the specification words it fails: token 3 is bound to
    the entity symbol A1, and asking for its predicate symbol answers A1
    instead of raising an [AssertionError]. *)
Lemma get_predicate_symbol_of_entity_token :
  get_entity_symbol 3 (blank_wrapper false false false) = Ok ("A1", wrapper_with_A1)
  ∧ get_predicate_symbol 3 wrapper_with_A1 = Ok ("A1", wrapper_with_A1)
  ∧ get_predicate_symbol 3 wrapper_with_A1 ≠ Raise AssertionError.
Proof. split; [|split]; [vm_compute; reflexivity .. | discriminate]. Qed.

(** ** The index of a node (C10) *)




(** ** Triples *)

Lemma hoare_bind {A B} (P : PropSWrapper → Prop) (Q : A → PropSWrapper → Prop)
    (R : B → PropSWrapper → Prop) (m : M A) (f : A → M B) :
  hoare P m Q → (∀ a, hoare (Q a) (f a) R) → hoare P (bind m f) R.
Proof.
  intros Hm Hf s b s'' HP H. apply bind_Ok in H as (a & s' & H1 & H2).
  eapply Hf; [|exact H2]. eapply Hm; [exact HP|exact H1].
Qed.

Lemma hoare_conseq {A} (P P' : PropSWrapper → Prop)
    (Q Q' : A → PropSWrapper → Prop) (m : M A) :
  hoare P' m Q' → (∀ s, P s → P' s) → (∀ a s, Q' a s → Q a s) → hoare P m Q.
Proof. intros H HP HQ s a s' Hs Hr. apply HQ. eapply H; [by apply HP|done]. Qed.

Lemma hoare_ret {A} (P : PropSWrapper → Prop) (x : A) : hoare P (ret x) (λ a s, a = x ∧ P s).
Proof. intros s a s' HP H. apply ret_Ok in H as [-> ->]. done. Qed.

Lemma hoare_forM_ {A} (I : PropSWrapper → Prop) (l : list A) (f : A → M unit) :
  (∀ x, x ∈ l → hoare I (f x) (λ _, I)) → hoare I (forM_ l f) (λ _, I).
Proof.
  induction l as [|x l IH]; intros Hf; simpl.
  - intros s a s' HI H. apply ret_Ok in H as [_ ->]. done.
  - eapply hoare_bind; [apply Hf; left|].
    intros u. apply IH. intros y Hy. apply Hf. by right.
Qed.

Lemma hoare_mapM {A B} (I : PropSWrapper → Prop) (R : A → B → Prop) (l : list A)
    (f : A → M B) :
  (∀ x, x ∈ l → hoare I (f x) (λ b s, R x b ∧ I s)) →
  hoare I (mapM f l) (λ bs s, Forall2 R l bs ∧ I s).
Proof.
  induction l as [|x l IH]; intros Hf; simpl.
  - intros s a s' HI H. apply ret_Ok in H as [-> ->]. split; [constructor|done].
  - intros s bs s' HI H.
    apply bind_Ok in H as (b & s1 & H1 & H).
    apply bind_Ok in H as (bs' & s2 & H2 & H).
    apply ret_Ok in H as [-> ->].
    destruct (Hf x ltac:(left) s b s1 HI H1) as [HR HI1].
    destruct (IH (λ y Hy, Hf y ltac:(by right)) s1 bs' s2 HI1 H2) as [HF HI2].
    split; [by constructor|done].
Qed.

Lemma hoare_foldM {A B} (J : B → PropSWrapper → Prop) (l : list A)
    (f : B → A → M B) (acc : B) :
  (∀ acc x, x ∈ l → hoare (J acc) (f acc x) J) →
  hoare (J acc) (foldM f acc l) J.
Proof.
  revert acc. induction l as [|x l IH]; intros acc Hf; simpl.
  - intros s a s' HJ H. apply ret_Ok in H as [-> ->]. done.
  - eapply hoare_bind; [apply Hf; left|].
    intros acc'. apply IH. intros acc'' y Hy. apply Hf. by right.
Qed.

(** A loop raises as soon as one of its steps does. *)
Lemma forM__raises {A} (I : PropSWrapper → Prop) (l : list A) (f : A → M unit)
    (x : A) (s : PropSWrapper) :
  (∀ y, y ∈ l → hoare I (f y) (λ _, I)) →
  (∀ s, I s → is_Raise (f x s)) →
  x ∈ l → I s → is_Raise (forM_ l f s).
Proof.
  intros Hpres Hx. revert s Hpres. induction l as [|y l IH]; intros s Hpres Hin HI.
  - by apply elem_of_nil in Hin.
  - simpl. unfold bind. destruct (f y s) as [[u s1]|e] eqn:E; [|by exists e].
    assert (HI1 : I s1) by (eapply (Hpres y); [left|exact HI|exact E]).
    apply elem_of_cons in Hin as [->|Hin].
    + destruct (Hx s HI) as [e He]. congruence.
    + apply IH; [|done|done]. intros z Hz. apply Hpres. by right.
Qed.

Lemma same_sentence_refl (s : PropSWrapper) : same_sentence s s.
Proof. by repeat split. Qed.

Lemma same_sentence_trans (s1 s2 s3 : PropSWrapper) :
  same_sentence s1 s2 → same_sentence s2 s3 → same_sentence s1 s3.
Proof.
  unfold same_sentence. intros (?&?&?&?&?&?&?) (?&?&?&?&?&?&?).
  repeat split; congruence.
Qed.

(** ** Symbols *)

Lemma get_element_symbol_pred (s : PropSWrapper) (i : Z) :
  get_element_symbol i _gensym_pred s
  = match tok_ind_to_symbol s !! i with
    | Some sym => Ok (sym, s)
    | None =>
        let sym := "P" +:+ pretty (pred_counter s + 1) in
        Ok (sym, set_tok_ind_to_symbol (<[i := sym]> (tok_ind_to_symbol s))
                   (set_pred_counter (pred_counter s + 1) s))
    end.
Proof.
  unfold get_element_symbol, bind, gets. simpl.
  destruct (tok_ind_to_symbol s !! i) as [sym|] eqn:E; simpl.
  - by rewrite E.
  - by rewrite lookup_insert_eq.
Qed.

Lemma get_element_symbol_ent (s : PropSWrapper) (i : Z) :
  get_element_symbol i _gensym_ent s
  = match tok_ind_to_symbol s !! i with
    | Some sym => Ok (sym, s)
    | None =>
        let sym := "A" +:+ pretty (ent_counter s + 1) in
        Ok (sym, set_tok_ind_to_symbol (<[i := sym]> (tok_ind_to_symbol s))
                   (set_ent_counter (ent_counter s + 1) s))
    end.
Proof.
  unfold get_element_symbol, bind, gets. simpl.
  destruct (tok_ind_to_symbol s !! i) as [sym|] eqn:E; simpl.
  - by rewrite E.
  - by rewrite lookup_insert_eq.
Qed.

Lemma _gensym_pred_eq (s : PropSWrapper) :
  _gensym_pred s
  = Ok ("P" +:+ pretty (pred_counter s + 1), set_pred_counter (pred_counter s + 1) s).
Proof. reflexivity. Qed.

(** In every case the symbol is the one the table binds afterwards. *)
Lemma get_element_symbol_Ok (gen : M string) (s s' : PropSWrapper) (i : Z)
    (sym : string) :
  is_gensym gen →
  get_element_symbol i gen s = Ok (sym, s') →
  tok_ind_to_symbol s' !! i = Some sym
  ∧ same_sentence s s'
  ∧ entities s' = entities s ∧ predicates s' = predicates s
  ∧ _named_entities s' = _named_entities s
  ∧ _all_NEs_token_indices s' = _all_NEs_token_indices s
  ∧ ((tok_ind_to_symbol s !! i = Some sym ∧ s' = s)
     ∨ (tok_ind_to_symbol s !! i = None
        ∧ tok_ind_to_symbol s' = <[i := sym]> (tok_ind_to_symbol s)
        ∧ ((gen = _gensym_pred ∧ sym = "P" +:+ pretty (pred_counter s + 1)
            ∧ pred_counter s' = (pred_counter s + 1)%nat
            ∧ ent_counter s' = ent_counter s)
           ∨ (gen = _gensym_ent ∧ sym = "A" +:+ pretty (ent_counter s + 1)
              ∧ ent_counter s' = (ent_counter s + 1)%nat
              ∧ pred_counter s' = pred_counter s)))).
Proof.
  intros [->| ->].
  - rewrite get_element_symbol_pred.
    destruct (tok_ind_to_symbol s !! i) as [sym0|] eqn:E; intros [= <- <-].
    + repeat split; try done. by left.
    + simpl. rewrite lookup_insert_eq. repeat split; try done.
      right. repeat split; try done. left. by repeat split.
  - rewrite get_element_symbol_ent.
    destruct (tok_ind_to_symbol s !! i) as [sym0|] eqn:E; intros [= <- <-].
    + repeat split; try done. by left.
    + simpl. rewrite lookup_insert_eq. repeat split; try done.
      right. repeat split; try done. right. by repeat split.
Qed.

(** ** The anchor of a predicate in the dependency tree (C8) *)

Lemma py_min_by_go_spec {A} (key : A → result nat) (l : list A)
    (best : A) (kbest : nat) (d : A) :
  key best = Ok kbest →
  py_min_by_go key best kbest l = Ok d →
  d ∈ best :: l
  ∧ ∃ k, key d = Ok k ∧ (k ≤ kbest)%nat
       ∧ ∀ y, y ∈ l → ∃ ky, key y = Ok ky ∧ (k ≤ ky)%nat.
Proof.
  revert best kbest. induction l as [|y l IH]; intros best kbest Hbest H; simpl in H.
  - injection H as <-. split; [left|]. exists kbest.
    split; [done|]. split; [lia|]. intros y Hy. by apply elem_of_nil in Hy.
  - destruct (key y) as [ky|e] eqn:Ey; simpl in H; [|done].
    case_bool_decide as Hlt.
    + destruct (IH y ky Ey H) as (Hin & k & Hk & Hle & Hall).
      split; [by right|]. exists k. split; [done|]. split; [lia|].
      intros z Hz. apply elem_of_cons in Hz as [->|Hz]; [|by apply Hall].
      exists ky. split; [done|lia].
    + destruct (IH best kbest Hbest H) as (Hin & k & Hk & Hle & Hall).
      split. { apply elem_of_cons in Hin as [->|Hin]; [left|by do 2 right]. }
      exists k. split; [done|]. split; [done|].
      intros z Hz. apply elem_of_cons in Hz as [->|Hz]; [|by apply Hall].
      exists ky. split; [done|lia].
Qed.

Lemma py_min_by_spec {A} (key : A → result nat) (l : list A) (d : A) :
  py_min_by key l = Ok d →
  d ∈ l ∧ ∃ k, key d = Ok k ∧ ∀ y, y ∈ l → ∃ ky, key y = Ok ky ∧ (k ≤ ky)%nat.
Proof.
  destruct l as [|x l]; simpl; [done|].
  destruct (key x) as [kx|e] eqn:Ex; simpl; [|done]. intros H.
  destruct (py_min_by_go_spec key l x kx d Ex H) as (Hin & k & Hk & Hle & Hall).
  split; [done|]. exists k. split; [done|].
  intros y Hy. apply elem_of_cons in Hy as [->|Hy]; [|by apply Hall].
  exists kx. done.
Qed.

Lemma py_min_by_go_total {A} (key : A → result nat) (l : list A)
    (best : A) (kbest : nat) :
  (∀ y, y ∈ l → is_Ok (key y)) → is_Ok (py_min_by_go key best kbest l).
Proof.
  revert best kbest. induction l as [|y l IH]; intros best kbest Hall; simpl.
  - by exists best.
  - destruct (Hall y ltac:(left)) as [ky ->]. simpl.
    case_bool_decide; apply IH; intros z Hz; apply Hall; by right.
Qed.

Lemma py_min_by_total {A} (key : A → result nat) (l : list A) :
  l ≠ [] → (∀ y, y ∈ l → is_Ok (key y)) → is_Ok (py_min_by key l).
Proof.
  destruct l as [|x l]; [done|]. intros _ Hall. simpl.
  destruct (Hall x ltac:(left)) as [kx ->]. simpl.
  apply py_min_by_go_total. intros z Hz. apply Hall. by right.
Qed.

(** ** Methods that do not touch the inputs of the sentence *)

Lemma frame_bind {A B} (m : M A) (f : A → M B) :
  frame m → (∀ a, frame (f a)) → frame (bind m f).
Proof.
  intros Hm Hf s b s'' H. apply bind_Ok in H as (a & s' & H1 & H2).
  eapply same_sentence_trans; [by eapply Hm|by eapply Hf].
Qed.

Lemma frame_ret {A} (x : A) : frame (ret x).
Proof. intros s a s' H. apply ret_Ok in H as [_ ->]. apply same_sentence_refl. Qed.

Lemma frame_raise {A} (e : exn) : frame (@raise A e).
Proof. intros s a s' H. done. Qed.

Lemma frame_lift {A} (r : result A) : frame (lift r).
Proof. intros s a s' H. apply lift_Ok in H as [_ ->]. apply same_sentence_refl. Qed.

Lemma frame_attr {A} (f : PropSWrapper → option A) : frame (attr f).
Proof. intros s a s' H. apply attr_Ok in H as [_ ->]. apply same_sentence_refl. Qed.

Lemma frame_gets {A} (f : PropSWrapper → A) : frame (gets f).
Proof. intros s a s' H. apply gets_Ok in H as [_ ->]. apply same_sentence_refl. Qed.

Lemma frame_modify (f : PropSWrapper → PropSWrapper) :
  (∀ s, same_sentence s (f s)) → frame (modify f).
Proof. intros Hf s a s' H. apply modify_Ok in H as ->. apply Hf. Qed.

Lemma frame_forM_ {A} (l : list A) (f : A → M unit) :
  (∀ x, frame (f x)) → frame (forM_ l f).
Proof.
  intros Hf. induction l as [|x l IH]; simpl.
  - apply frame_ret.
  - apply frame_bind; [apply Hf|]. intros _. apply IH.
Qed.

Lemma frame_mapM {A B} (l : list A) (f : A → M B) :
  (∀ x, frame (f x)) → frame (mapM f l).
Proof.
  intros Hf. induction l as [|x l IH]; simpl.
  - apply frame_ret.
  - apply frame_bind; [apply Hf|]. intros b.
    apply frame_bind; [apply IH|]. intros bs. apply frame_ret.
Qed.

Lemma frame_foldM {A B} (l : list A) (f : B → A → M B) (acc : B) :
  (∀ acc x, frame (f acc x)) → frame (foldM f acc l).
Proof.
  intros Hf. revert acc. induction l as [|x l IH]; intros acc; simpl.
  - apply frame_ret.
  - apply frame_bind; [apply Hf|]. intros acc'. apply IH.
Qed.

Lemma frame_get_element_symbol (i : Z) (gen : M string) :
  is_gensym gen → frame (get_element_symbol i gen).
Proof. intros Hgen s a s' H. by apply (get_element_symbol_Ok gen) in H as (_ & ? & _). Qed.

Lemma frame__gensym_pred : frame _gensym_pred.
Proof. intros s a s' [= <- <-]. by repeat split. Qed.

Lemma is_gensym_pred : is_gensym _gensym_pred.
Proof. by left. Qed.
Lemma is_gensym_ent : is_gensym _gensym_ent.
Proof. by right. Qed.

Create HintDb frame.
#[export] Hint Resolve frame_ret frame_raise frame_lift frame_attr frame_gets
  frame_get_element_symbol frame__gensym_pred
  is_gensym_pred is_gensym_ent : frame.

(** Apply the rules along the structure of a method. *)
Ltac frame_step :=
  lazymatch goal with
  | |- frame (bind _ _) => apply frame_bind; [|intros ?]
  | |- frame (forM_ _ _) => apply frame_forM_
  | |- frame (mapM _ _) => apply frame_mapM
  | |- frame (foldM _ _ _) => apply frame_foldM
  | |- frame (if ?b then _ else _) => destruct b
  | |- frame (match ?x with _ => _ end) => destruct x
  | |- frame (modify _) => apply frame_modify; intros ?; by repeat split
  | |- frame (let _ := _ in _) => cbv zeta
  | |- ∀ _, _ => intros ?
  | |- _ => solve [eauto with frame]
  end.
Ltac solve_frame := repeat frame_step.

Section Frames.

Variable recursion_limit : nat.

Variable hash_order : ∀ A : Type, list A → list A.
Variable spacy_ents : string → list Span.t.
Variable COPULA : string.

Lemma frame_template_element ns gen h :
  is_gensym gen → frame (template_element ns gen h).
Proof. intros Hgen. unfold template_element. solve_frame. Qed.

Lemma frame_argument_symbol ns gen h :
  is_gensym gen → frame (argument_symbol ns gen h).
Proof. intros Hgen. unfold argument_symbol. solve_frame. Qed.

Hint Resolve frame_template_element frame_argument_symbol : frame.

Lemma frame_store_entity ns n : frame (store_entity hash_order ns n).
Proof. unfold store_entity. solve_frame. Qed.

Hint Resolve frame_store_entity : frame.

Lemma frame_parse_predicate h : frame (parse_predicate recursion_limit hash_order COPULA h).
Proof. unfold parse_predicate. solve_frame. Qed.

Lemma frame_add_props_node_to_entities ns h :
  frame (add_props_node_to_entities hash_order ns h).
Proof. unfold add_props_node_to_entities, get_entity_symbol. solve_frame. Qed.

Lemma frame_split_token roots sym head indices loc tok :
  frame (split_token roots sym head indices loc tok).
Proof. unfold split_token. solve_frame. Qed.

Lemma frame_split_entity heads roots by_tok loc item :
  frame (split_entity heads roots by_tok loc item).
Proof.
  unfold split_entity. pose proof frame_split_token. solve_frame.
Qed.

Lemma frame__get_named_entities : frame (_get_named_entities spacy_ents).
Proof. unfold _get_named_entities. solve_frame. Qed.

Lemma frame__split_entities : frame (_split_entities hash_order spacy_ents).
Proof.
  unfold _split_entities.
  pose proof frame_split_entity. pose proof frame__get_named_entities.
  solve_frame.
Qed.

Lemma frame_add_modifier ns ent modifier :
  frame (add_modifier hash_order ns ent modifier).
Proof.
  unfold add_modifier, get_entity_symbol.
  pose proof frame_add_props_node_to_entities. solve_frame.
Qed.

Lemma frame_add_modifiers_as_implicits :
  frame (add_modifiers_as_implicits recursion_limit hash_order COPULA).
Proof.
  unfold add_modifiers_as_implicits, get_entity_symbol.
  pose proof frame_add_modifier. solve_frame.
Qed.

End Frames.

(** ** The start of [parse] *)



Section Start.

Variable recursion_limit : nat.

Variable hash_order : ∀ A : Type, list A → list A.
Variable parseSentences : string → list (Graph * string).
Variable spacy_ents : string → list Span.t.
Variable COPULA : string.

Lemma parse_loaded (sent : string) (s : PropSWrapper) (g : Graph) (t : string) :
  py_index (parseSentences sent) 0 = Ok (g, t) →
  parse recursion_limit hash_order parseSentences spacy_ents COPULA sent s
  = parse_selected recursion_limit hash_order spacy_ents COPULA (selected_of s g) (loaded g s).
Proof.
  intros Hg. unfold parse, _init_internal_state, bind, modify, lift. simpl.
  rewrite Hg. simpl. unfold get_sentence, parse_okr, bind, attr. simpl.
  unfold get_predicates, bind, attr, gets, ret. simpl.
  reflexivity.
Qed.

Lemma parse_no_graph (sent : string) (s : PropSWrapper) (e : exn) :
  py_index (parseSentences sent) 0 = Raise e →
  parse recursion_limit hash_order parseSentences spacy_ents COPULA sent s = Raise e.
Proof.
  intros Hg. unfold parse, _init_internal_state, bind, modify, lift. simpl.
  by rewrite Hg.
Qed.

End Start.

(** *** Chains of parents *)

Lemma get_dep_height_fuel_chain (fuel : nat) (tree : list Dep.t) (d : Dep.t) (k : nat) :
  get_dep_height_fuel fuel tree d = Ok k → parent_chain tree d k.
Proof.
  revert d k. induction fuel as [|fuel IH]; intros d k; simpl; [done|].
  destruct (Dep.parent d) as [h|] eqn:Hp.
  - intros H. apply rbind_Ok in H as (p & Hd & H).
    apply rbind_Ok in H as (r & Hr & [= <-]).
    unfold deref in Hd. destruct (tree !! h) as [p'|] eqn:Hh; [|done].
    injection Hd as ->. eapply chain_step; eauto.
  - intros [= <-]. by constructor.
Qed.

Lemma parent_chain_fuel (tree : list Dep.t) (d : Dep.t) (k fuel : nat) :
  parent_chain tree d k → (k < fuel)%nat →
  get_dep_height_fuel fuel tree d = Ok k.
Proof.
  intros Hc. revert fuel. induction Hc as [d Hp|d h p k Hp Hh Hc IH]; intros fuel Hlt.
  - destruct fuel; [lia|]. simpl. by rewrite Hp.
  - destruct fuel; [lia|]. simpl. rewrite Hp. unfold deref. rewrite Hh. simpl.
    rewrite IH; [done|lia].
Qed.

Lemma parent_chain_functional (tree : list Dep.t) (d : Dep.t) (k k' : nat) :
  parent_chain tree d k → parent_chain tree d k' → k = k'.
Proof.
  intros Hc. revert k'. induction Hc as [d Hp|d h p k Hp Hh Hc IH]; intros k' Hc'.
  - inversion Hc'; [done|congruence].
  - inversion Hc' as [|d' h' p' j Hp' Hh' Hj]; subst; [congruence|].
    f_equal. apply IH. congruence.
Qed.

Lemma parent_chain_handles (tree : list Dep.t) (d : Dep.t) (k : nat) :
  parent_chain tree d k →
  ∃ hs : list nat, length hs = k ∧ NoDup hs
    ∧ ∀ h, h ∈ hs → ∃ p j, tree !! h = Some p ∧ parent_chain tree p j ∧ (j < k)%nat.
Proof.
  induction 1 as [d Hp|d h p k Hp Hh Hc (hs & Hlen & Hnd & Hall)].
  - exists []. split_and!; [done|constructor|]. intros h Hin. by apply elem_of_nil in Hin.
  - exists (h :: hs). split_and!.
    + simpl. by rewrite Hlen.
    + constructor; [|done]. intros Hin.
      destruct (Hall h Hin) as (p' & j & Hh' & Hj & Hlt).
      assert (p' = p) as -> by congruence.
      pose proof (parent_chain_functional _ _ _ _ Hc Hj). lia.
    + intros h' [->|Hin]%elem_of_cons.
      * exists p, k. split_and!; [done|done|lia].
      * destruct (Hall h' Hin) as (p' & j & Hh' & Hj & Hlt).
        exists p', j. split_and!; [done|done|lia].
Qed.

Lemma parent_chain_bound (tree : list Dep.t) (d : Dep.t) (k : nat) :
  parent_chain tree d k → (k ≤ length tree)%nat.
Proof.
  intros (hs & <- & Hnd & Hall)%parent_chain_handles.
  trans (length (seq 0 (length tree))); [|by rewrite length_seq].
  apply submseteq_length, NoDup_submseteq; [done|].
  intros h Hin. destruct (Hall h Hin) as (p & j & Hh & _).
  apply elem_of_seq. apply lookup_lt_Some in Hh. lia.
Qed.

Lemma get_dep_height_fuel_bound (fuel : nat) (tree : list Dep.t) (d : Dep.t) (k : nat) :
  get_dep_height_fuel fuel tree d = Ok k → (k < fuel)%nat.
Proof.
  revert d k. induction fuel as [|fuel IH]; intros d k; simpl; [done|].
  destruct (Dep.parent d) as [h|] eqn:Hp.
  - intros H. apply rbind_Ok in H as (p & Hd & H).
    apply rbind_Ok in H as (r & Hr & [= <-]).
    apply IH in Hr. lia.
  - intros [= <-]. lia.
Qed.


Lemma get_dep_height_Ok (recursion_limit : nat) (tree : list Dep.t) (d : Dep.t)
    (k : nat) :
  get_dep_height recursion_limit tree d = Ok k
  ↔ parent_chain tree d k ∧ (k < recursion_limit)%nat.
Proof.
  unfold get_dep_height. split.
  - intros H. split; [by eapply get_dep_height_fuel_chain|].
    by eapply get_dep_height_fuel_bound.
  - intros [Hc Hlt]. by apply parent_chain_fuel.
Qed.

Section Anchor.

Variable recursion_limit : nat.

Variable hash_order : ∀ A : Type, list A → list A.
Variable parseSentences : string → list (Graph * string).
Variable spacy_ents : string → list Span.t.
Variable COPULA : string.

Lemma matching_dep_nodes_nil (tree : list Dep.t) (n : Props.t) :
  (∀ d, d ∈ tree → Dep.id d ∉ (Word.index <$> Props.text n)) →
  matching_dep_nodes tree n = [].
Proof.
  intros Hnone. unfold matching_dep_nodes.
  destruct (filter _ tree) as [|d l] eqn:Hf; [done|]. exfalso.
  assert (d ∈ filter (λ d, Dep.id d ∈ (Word.index <$> Props.text n)) tree)
    as [Hid Hin]%list_elem_of_filter by (rewrite Hf; left).
  by apply (Hnone d).
Qed.

Lemma parse_predicate_no_anchor (s : PropSWrapper) (g : Graph)
    (tree : list Dep.t) (h : nat) (n : Props.t) :
  graph s = Some g → dep_tree s = Some tree → nodes g !! h = Some n →
  Props.isPredicate n = true → matching_dep_nodes tree n = [] →
  parse_predicate recursion_limit hash_order COPULA h s = Raise ValueError.
Proof.
  intros Hg Ht Hn Hp Hm. unfold parse_predicate, bind, attr, lift, deref.
  rewrite Hg, Ht, Hn, Hp. simpl. unfold get_dep_node. by rewrite Hm.
Qed.

Lemma parse_aborts_without_anchor (sent : string) (s : PropSWrapper)
    (g : Graph) (t : string) (h : nat) (n : Props.t) :
  py_index (parseSentences sent) 0 = Ok (g, t) →
  nodes g !! h = Some n → is_valid_pred s n = true →
  matching_dep_nodes (dep_tree_values g) n = [] →
  is_Raise (parse recursion_limit hash_order parseSentences spacy_ents COPULA sent s).
Proof.
  intros Hg Hn Hv Hm. rewrite (parse_loaded _ _ _ _ _ _ _ g t Hg).
  unfold parse_selected.
  assert (Hloop : is_Raise
    (forM_ (selected_of s g) (parse_predicate recursion_limit hash_order COPULA) (loaded g s))).
  { apply (forM__raises (same_sentence (loaded g s)) _ _ h).
    - intros y _ s1 u s2 HI H. eapply same_sentence_trans; [exact HI|].
      by eapply frame_parse_predicate.
    - intros s1 (_ & _ & _ & Hg1 & Ht1 & _). exists ValueError.
      apply (parse_predicate_no_anchor s1 g (dep_tree_values g) h n); try done.
      by apply is_valid_pred_spec in Hv as [? _].
    - apply elem_of_selected. by exists n.
    - apply same_sentence_refl. }
  destruct Hloop as [e He]. exists e. unfold bind at 1. by rewrite He.
Qed.

(** C8. When no token of the dependency tree has its index among those
    of the words of a node, looking for the anchor of the node raises, and
    the parse of a sentence in which this happens to a selected predicate
    raises too: no record is returned.  When the anchor is found it is a
    token of the tree whose index is among those of the node, and no such
    token is nearer to the root: the steps that lead from each of them
    along [parent] to the root are at least as many as those that lead
    from the anchor.  The anchor is found as soon as a token matches and
    every matching token is at fewer steps from the root than the
    interpreter allows nested calls. *)
Theorem get_dep_node_anchor :
  (∀ tree n,
     (∀ d, d ∈ tree → Dep.id d ∉ (Word.index <$> Props.text n)) →
     get_dep_node recursion_limit tree n = Raise ValueError)
  ∧ (∀ sent s g t h n,
       py_index (parseSentences sent) 0 = Ok (g, t) →
       nodes g !! h = Some n → is_valid_pred s n = true →
       (∀ d, d ∈ dep_tree_values g →
             Dep.id d ∉ (Word.index <$> Props.text n)) →
       is_Raise (parse recursion_limit hash_order parseSentences spacy_ents
                   COPULA sent s))
  ∧ (∀ tree n d,
       get_dep_node recursion_limit tree n = Ok d →
       d ∈ tree ∧ Dep.id d ∈ (Word.index <$> Props.text n)
       ∧ ∃ k, parent_chain tree d k
            ∧ ∀ d', d' ∈ tree → Dep.id d' ∈ (Word.index <$> Props.text n) →
                    ∃ k', parent_chain tree d' k' ∧ (k ≤ k')%nat)
  ∧ (∀ tree n d0,
       d0 ∈ tree → Dep.id d0 ∈ (Word.index <$> Props.text n) →
       (∀ d, d ∈ tree → Dep.id d ∈ (Word.index <$> Props.text n) →
             ∃ k, parent_chain tree d k ∧ (k < recursion_limit)%nat) →
       is_Ok (get_dep_node recursion_limit tree n)).
Proof.
  split; [|split; [|split]].
  - intros tree n Hm. unfold get_dep_node.
    by rewrite matching_dep_nodes_nil.
  - intros sent s g t h n Hg Hn Hv Hm.
    eapply parse_aborts_without_anchor; [done|done|done|].
    by apply matching_dep_nodes_nil.
  - intros tree n d H. apply py_min_by_spec in H as (Hin & k & Hk & Hall).
    apply list_elem_of_filter in Hin as [Hid Hin].
    split; [done|]. split; [done|]. exists k.
    apply get_dep_height_Ok in Hk as [Hk _]. split; [done|].
    intros d' Hd' Hid'.
    destruct (Hall d') as (k' & Hk' & Hle); [by apply list_elem_of_filter|].
    apply get_dep_height_Ok in Hk' as [Hk' _]. by exists k'.
  - intros tree n d0 Hd0 Hid0 Hall. apply py_min_by_total.
    + intros Hnil.
      assert (d0 ∈ matching_dep_nodes tree n) as Hin
        by (by apply list_elem_of_filter).
      rewrite Hnil in Hin. by apply elem_of_nil in Hin.
    + intros d [Hid Hin]%list_elem_of_filter.
      destruct (Hall d Hin Hid) as (k & Hk & Hlt). exists k.
      by apply get_dep_height_Ok.
Qed.

End Anchor.

(** On "see capital of New York": a predicate on a ninth token has no
    anchor and its sentence is rejected.  On "John has resigned": of the
    two tokens of the predicate "has resigned", the tree lists "has", two
    steps from the root, before "resigned", one step from the root, and
    the anchor is "resigned". *)
Lemma get_dep_node_anchor_witness :
  get_dep_node some_limit york_tree orphan_node = Raise ValueError
  ∧ is_Raise (orphan_parse (blank_wrapper true true true))
  ∧ get_dep_node some_limit resigned_tree has_resigned_node = Ok resigned_token
  ∧ matching_dep_nodes resigned_tree has_resigned_node = [has_token; resigned_token]
  ∧ parent_chain resigned_tree resigned_token 1
  ∧ parent_chain resigned_tree has_token 2
  ∧ (∃ k, parent_chain resigned_tree resigned_token k
        ∧ ∃ k', parent_chain resigned_tree has_token k' ∧ (k ≤ k')%nat)
  ∧ is_Ok (get_dep_node 3 resigned_tree has_resigned_node).
Proof.
  destruct (get_dep_node_anchor some_limit given_order
              (λ _, [(orphan_graph, "")]) (λ _, york_ents) "SameAs")
    as (Hnone & Habort & Hmin & _).
  assert (Hno : ∀ d, d ∈ york_tree →
                     Dep.id d ∉ (Word.index <$> Props.text orphan_node)).
  { apply Forall_forall. apply (bool_decide_unpack _). vm_compute. exact I. }
  assert (Hrun : get_dep_node some_limit resigned_tree has_resigned_node
                 = Ok resigned_token) by (vm_compute; reflexivity).
  assert (H1 : parent_chain resigned_tree resigned_token 1).
  { apply (get_dep_height_Ok some_limit). vm_compute. reflexivity. }
  assert (H2 : parent_chain resigned_tree has_token 2).
  { apply (get_dep_height_Ok some_limit). vm_compute. reflexivity. }
  split; [by apply Hnone|]. split.
  { apply (Habort york_sentence _ orphan_graph "" 0%nat orphan_node);
      [reflexivity|reflexivity|reflexivity|exact Hno]. }
  split; [exact Hrun|]. split; [reflexivity|].
  split; [exact H1|]. split; [exact H2|]. split.
  - destruct (Hmin resigned_tree has_resigned_node resigned_token Hrun)
      as (_ & _ & k & Hk & Hall).
    exists k. split; [exact Hk|]. apply (Hall has_token).
    + vm_compute. do 2 right. left.
    + vm_compute. left.
  - destruct (get_dep_node_anchor 3 given_order
                (λ _, [(orphan_graph, "")]) (λ _, york_ents) "SameAs")
      as (_ & _ & _ & Htotal).
    apply (Htotal resigned_tree has_resigned_node resigned_token).
    + vm_compute. do 3 right. left.
    + vm_compute. right. left.
    + intros d Hd Hid.
      assert (d = has_token ∨ d = resigned_token) as [->| ->].
      { vm_compute in Hd, Hid.
        repeat (apply elem_of_cons in Hd as [->|Hd]);
          try (by apply elem_of_nil in Hd);
          repeat (apply elem_of_cons in Hid as [Hid|Hid]);
          try (by apply elem_of_nil in Hid); try discriminate;
          [by left|by right]. }
      * exists 2%nat. split; [exact H2|lia].
      * exists 1%nat. split; [exact H1|lia].
Defined.

(** ** Sorting *)

Lemma sorted_insert_perm {A} (key : A → Z) (x : A) (l : list A) :
  sorted_insert key x l ≡ₚ x :: l.
Proof.
  induction l as [|y l IH]; simpl; [done|].
  case_bool_decide; [done|]. rewrite IH. apply Permutation_swap.
Qed.

Lemma sorted_perm {A} (key : A → Z) (l : list A) : sorted key l ≡ₚ l.
Proof.
  induction l as [|x l IH]; simpl; [done|].
  unfold sorted in *. simpl. rewrite sorted_insert_perm. by rewrite IH.
Qed.

Lemma sorted_insert_ascending {A} (key : A → Z) (x : A) (l : list A) :
  ascending key l → ascending key (sorted_insert key x l).
Proof.
  unfold ascending. induction l as [|y l IH]; intros Hl; simpl.
  - repeat constructor.
  - apply StronglySorted_inv in Hl as [Hl Hy]. case_bool_decide as Hle.
    + constructor; [by constructor|]. constructor; [done|].
      eapply Forall_impl; [exact Hy|]. simpl. intros z Hz. lia.
    + constructor; [by apply IH|].
      rewrite sorted_insert_perm. constructor; [lia|done].
Qed.

Lemma sorted_ascending {A} (key : A → Z) (l : list A) : ascending key (sorted key l).
Proof.
  induction l as [|x l IH]; [constructor|].
  unfold sorted in *. simpl. by apply sorted_insert_ascending.
Qed.

Lemma sorted_length {A} (key : A → Z) (l : list A) : length (sorted key l) = length l.
Proof. by rewrite sorted_perm. Qed.

Lemma elem_of_sorted {A} (key : A → Z) (l : list A) (x : A) : x ∈ sorted key l ↔ x ∈ l.
Proof. by rewrite sorted_perm. Qed.

(** ** Steps that hand out symbols *)

Lemma allocates_refl (s : PropSWrapper) : allocates s s.
Proof. split; [apply same_sentence_refl|]. by repeat split. Qed.

Lemma allocates_trans (s1 s2 s3 : PropSWrapper) :
  allocates s1 s2 → allocates s2 s3 → allocates s1 s3.
Proof.
  intros (H1 & Ht1 & He1 & Hp1 & Hn1 & Ha1) (H2 & Ht2 & He2 & Hp2 & Hn2 & Ha2).
  split; [by eapply same_sentence_trans|].
  split; [by etrans|]. repeat split; congruence.
Qed.

Lemma allocates_lookup (s s' : PropSWrapper) (i : Z) (sym : string) :
  allocates s s' → tok_ind_to_symbol s !! i = Some sym →
  tok_ind_to_symbol s' !! i = Some sym.
Proof. intros (_ & Ht & _) Hi. by eapply lookup_weaken. Qed.

Lemma get_element_symbol_allocates (gen : M string) (s s' : PropSWrapper)
    (i : Z) (sym : string) :
  is_gensym gen →
  get_element_symbol i gen s = Ok (sym, s') →
  allocates s s' ∧ tok_ind_to_symbol s' !! i = Some sym.
Proof.
  intros Hgen H.
  apply (get_element_symbol_Ok gen) in H
    as (Hsym & Hsame & He & Hp & Hn & Ha & Hcases); [|done].
  split; [|done]. split; [done|]. split; [|done].
  destruct Hcases as [[_ ->]|(Hnone & -> & _)]; [done|].
  by apply insert_subseteq.
Qed.

Lemma template_element_allocates ns gen h s el s' :
  is_gensym gen →
  template_element ns gen h s = Ok (el, s') →
  allocates s s' ∧ placeholder_of ns s' h el.
Proof.
  intros Hgen H. unfold template_element in H. inv_M.
  match goal with H : get_element_symbol _ _ _ = _ |- _ =>
    apply (get_element_symbol_allocates gen) in H as [Hal Hsym]; [|done] end.
  split; [done|]. eexists _, _. split; [|done].
  unfold handle_ind. by simplify_eq/=; match goal with H : deref _ _ = _ |- _ => rewrite H end.
Qed.

Lemma placeholder_of_allocates ns s s' h el :
  allocates s s' → placeholder_of ns s h el → placeholder_of ns s' h el.
Proof.
  intros Hal (ind & sym & Hind & Hsym & ->). exists ind, sym.
  split; [done|]. split; [|done]. by eapply allocates_lookup.
Qed.

Lemma argument_symbol_allocates ns gen h s sym s' :
  is_gensym gen →
  argument_symbol ns gen h s = Ok (sym, s') →
  allocates s s'
  ∧ ∃ ind, handle_ind ns h = Ok ind ∧ tok_ind_to_symbol s' !! ind = Some sym.
Proof.
  intros Hgen H. unfold argument_symbol in H. inv_M.
  match goal with H : get_element_symbol _ _ _ = _ |- _ =>
    apply (get_element_symbol_allocates gen) in H as [Hal Hsym]; [|done] end.
  split; [done|]. eexists. split; [|done].
  unfold handle_ind. by simplify_eq/=; match goal with H : deref _ _ = _ |- _ => rewrite H end.
Qed.

Lemma mapM_template_element_allocates ns gen l s els s' :
  is_gensym gen →
  mapM (template_element ns gen) l s = Ok (els, s') →
  allocates s s' ∧ Forall2 (placeholder_of ns s') l els.
Proof.
  intros Hgen. revert s els. induction l as [|h l IH]; intros s els H; simpl in H.
  - apply ret_Ok in H as [-> ->]. split; [apply allocates_refl|constructor].
  - inv_M.
    match goal with H : template_element _ _ _ _ = _ |- _ =>
      apply template_element_allocates in H as [Hal1 Hel]; [|done] end.
    match goal with H : mapM _ _ _ = _ |- _ =>
      apply IH in H as [Hal2 Hels] end.
    split; [by eapply allocates_trans|].
    constructor; [|done]. by eapply placeholder_of_allocates.
Qed.

Lemma mapM_argument_symbol_allocates ns gen l s syms s' :
  is_gensym gen →
  mapM (argument_symbol ns gen) l s = Ok (syms, s') →
  allocates s s'
  ∧ Forall2 (λ h sym, ∃ ind, handle_ind ns h = Ok ind
                             ∧ tok_ind_to_symbol s' !! ind = Some sym) l syms.
Proof.
  intros Hgen. revert s syms. induction l as [|h l IH]; intros s syms H; simpl in H.
  - apply ret_Ok in H as [-> ->]. split; [apply allocates_refl|constructor].
  - inv_M.
    match goal with H : argument_symbol _ _ _ _ = _ |- _ =>
      apply argument_symbol_allocates in H as (Hal1 & ind & Hind & Hsym); [|done] end.
    match goal with H : mapM _ _ _ = _ |- _ =>
      apply IH in H as [Hal2 Hsyms] end.
    split; [by eapply allocates_trans|].
    constructor; [|done]. exists ind. split; [done|]. by eapply allocates_lookup.
Qed.

(** ** The predicates of the graph (C6) *)

Section Predicate.

Variable recursion_limit : nat.

Variable hash_order : ∀ A : Type, list A → list A.
Variable COPULA : string.

Lemma store_entity_Ok ns n s u s' :
  store_entity hash_order ns n s = Ok (u, s') →
  ∃ nd sym s1,
    ns !! n = Some nd
    ∧ argument_symbol ns _gensym_ent n s = Ok (sym, s1)
    ∧ s' = set_entities (<[sym := node_entity hash_order nd]> (entities s1)) s1.
Proof.
  intros H. unfold store_entity in H. inv_M.
  match goal with H : deref _ _ = Ok ?nd |- _ =>
    unfold deref in H; destruct (ns !! n) as [nd'|] eqn:E; [|done];
    injection H as -> end.
  by eexists _, _, _.
Qed.

(** What a step of the loop over the entities keeps. *)
Lemma store_entity_keeps ns n s u s' :
  store_entity hash_order ns n s = Ok (u, s') →
  same_sentence s s'
  ∧ tok_ind_to_symbol s ⊆ tok_ind_to_symbol s'
  ∧ predicates s' = predicates s.
Proof.
  intros H. apply store_entity_Ok in H as (nd & sym & s1 & _ & Harg & ->).
  apply argument_symbol_allocates in Harg
    as ((Hsame & Hsub & _ & Hp & _) & _); [|by right].
  done.
Qed.

Lemma forM__store_entity_keeps ns l s u s' :
  forM_ l (store_entity hash_order ns) s = Ok (u, s') →
  same_sentence s s'
  ∧ tok_ind_to_symbol s ⊆ tok_ind_to_symbol s'
  ∧ predicates s' = predicates s.
Proof.
  revert s. induction l as [|n l IH]; intros s H; simpl in H.
  - apply ret_Ok in H as [_ ->]. split; [apply same_sentence_refl|done].
  - inv_M.
    match goal with H : store_entity _ _ _ _ = _ |- _ =>
      apply store_entity_keeps in H as (Hs1 & Ht1 & Hp1) end.
    match goal with H : forM_ _ _ _ = _ |- _ =>
      apply IH in H as (Hs2 & Ht2 & Hp2) end.
    split; [by eapply same_sentence_trans|]. split; [by etrans|congruence].
Qed.

(** [parse_predicate], step by step. *)
Lemma parse_predicate_Ok h s u s' g tree pnodes :
  graph s = Some g → dep_tree s = Some tree → predicate_nodes s = Some pnodes →
  parse_predicate recursion_limit hash_order COPULA h s = Ok (u, s') →
  ∃ n anchor bare pind psym nbrs dep_entities s1 pred_els s2 ent_els s3
    ent_args s4 pred_args s5,
    nodes g !! h = Some n
    ∧ Props.isPredicate n = true
    ∧ get_dep_node recursion_limit tree n = Ok anchor
    ∧ get_mwp recursion_limit tree (nodes g) n = Ok bare
    ∧ get_node_ind (PropsNode n) = Ok pind
    ∧ get_element_symbol pind _gensym_pred s = Ok (psym, s1)
    ∧ get_props_neighbors recursion_limit hash_order COPULA (nodes g) h = Ok nbrs
    ∧ dep_entities_of hash_order (nodes g) pnodes nbrs = Ok dep_entities
    ∧ mapM (template_element (nodes g) _gensym_pred)
           (dep_preds_of hash_order pnodes nbrs) s1 = Ok (pred_els, s2)
    ∧ mapM (template_element (nodes g) _gensym_ent) dep_entities s2
      = Ok (ent_els, s3)
    ∧ mapM (argument_symbol (nodes g) _gensym_ent) dep_entities s3
      = Ok (ent_args, s4)
    ∧ mapM (argument_symbol (nodes g) _gensym_pred)
           (dep_preds_of hash_order pnodes nbrs) s4 = Ok (pred_args, s5)
    ∧ forM_ dep_entities (store_entity hash_order (nodes g))
        (set_predicates
           (<[psym := graph_predicate anchor n bare
                        (((λ d, (Dep.id d, Dep.word d)) <$> bare)
                         ++ pred_els ++ ent_els)
                        (ent_args ++ pred_args)]> (predicates s5)) s5)
      = Ok (u, s').
Proof.
  intros Hg Ht Hp H. unfold parse_predicate in H. inv_M.
  repeat match goal with
  | H : graph s = Some _ |- _ => rewrite Hg in H; injection H as <-
  | H : dep_tree s = Some _ |- _ => rewrite Ht in H; injection H as <-
  end.
  match goal with H : get_element_symbol _ _ s = Ok (_, ?s1) |- _ =>
    assert (Hp1 : predicate_nodes s1 = Some pnodes)
      by (apply frame_get_element_symbol in H as (_&_&_&_&_&_&->);
          [done|by left]) end.
  match goal with H : predicate_nodes _ = Some ?x |- _ =>
    rewrite Hp1 in H; injection H as <- end.
  match goal with H : deref _ _ = Ok ?nd |- _ =>
    unfold deref in H; destruct (nodes g !! h) as [nd'|] eqn:E; [|done];
    injection H as -> end.
  match goal with H : py_assert ?b = Ok _ |- _ =>
    assert (b = true) by (by destruct b) end.
  repeat match goal with
  | H1 : get_props_neighbors recursion_limit _ _ _ _ = Ok ?a,
    H2 : get_props_neighbors recursion_limit _ _ _ _ = Ok ?b |- _ =>
      rewrite H1 in H2; injection H2 as <-
  end.
  do 16 eexists. split; [reflexivity|].
  repeat (split; [eassumption|]). eassumption.
Qed.



End Predicate.


Example york_see_template :
  Template <$> (predicates york_after_see !! "P1") = Some "see {A1}".
Proof. vm_compute. reflexivity. Qed.

(** ** Entity splitting (C4, C5, C9) *)

(** C4, on the code. The head "York" of the entity "capital of New York"
    lies inside the named entity "New York", yet the record of its symbol A1
    ends as the single word "York": the branch of the preposition "of", whose
    child is that head, sets [ret] at the symbol of the child and so
    overwrites the named entity. *)
Theorem named_entity_head_overwritten :
  ∃ s', york_parse (blank_wrapper false false false) = Ok (tt, s')
    ∧ tok_ind_to_symbol s' !! 5%Z = Some "A1"
    ∧ (4 ∈ concat (NE_to_indices <$> york_ents))%Z
    ∧ entities s' !! "A1" = Some ("York", [4%Z])
    ∧ entities s' !! "A1" ≠ Some (NE_to_entity (Span.mk 3 5 4 "New York" "GPE")).
Proof.
  eexists. split; [vm_compute; reflexivity|].
  split; [vm_compute; reflexivity|].
  split; [vm_compute; set_solver|].
  split; [vm_compute; reflexivity|].
  vm_compute. discriminate.
Qed.

Lemma bool_decide_false_2 (P : Prop) `{Decision P} : ¬ P → bool_decide P = false.
Proof. apply bool_decide_eq_false. Qed.







(** ** Two runs on the same sentence (C3) *)











Section Runs.

Variable recursion_limit : nat.

Variable hash_order : ∀ A : Type, list A → list A.
Variable parseSentences : string → list (Graph * string).
Variable spacy_ents : string → list Span.t.
Variable COPULA : string.














End Runs.


(** ** No dangling reference (C1) *)

(** *** Symbols of the two families *)


Lemma ent_symbol_is_entity (k : nat) : is_entity_symbol ("A" +:+ pretty k).
Proof. by eexists. Qed.

Lemma pred_symbol_inj (k k' : nat) :
  "P" +:+ pretty k = "P" +:+ pretty k' → k = k'.
Proof.
  intros [= H]. change (pretty k = pretty k') in H.
  by apply (inj (pretty : nat → string)) in H.
Qed.

Lemma ent_symbol_inj (k k' : nat) :
  "A" +:+ pretty k = "A" +:+ pretty k' → k = k'.
Proof.
  intros [= H]. change (pretty k = pretty k') in H.
  by apply (inj (pretty : nat → string)) in H.
Qed.

Lemma symbols_wf_insert_pred (s s' : PropSWrapper) (i : Z) :
  symbols_wf s →
  tok_ind_to_symbol s !! i = None →
  tok_ind_to_symbol s'
  = <[i := "P" +:+ pretty (pred_counter s + 1)]> (tok_ind_to_symbol s) →
  pred_counter s' = (pred_counter s + 1)%nat →
  ent_counter s' = ent_counter s →
  symbols_wf s'.
Proof.
  intros [Hb Hinj] Hnone Ht Hpc Hec. split.
  - intros j sym. rewrite Ht, Hpc, Hec. rewrite lookup_insert.
    case_decide as Hij.
    + intros [= <-]. right. exists (pred_counter s + 1)%nat. split; [done|lia].
    + intros Hj. destruct (Hb j sym Hj) as [(k & -> & Hk)|(k & -> & Hk)].
      * left. by exists k.
      * right. exists k. split; [done|lia].
  - intros a b sym. rewrite Ht, !lookup_insert.
    repeat case_decide; subst; try done.
    + intros [= <-] Hb'.
      destruct (Hb b _ Hb') as [(k & Hk & _)|(k & Hk & Hle)].
      * simpl in Hk. discriminate.
      * apply pred_symbol_inj in Hk. lia.
    + intros Ha' [= <-].
      destruct (Hb a _ Ha') as [(k & Hk & _)|(k & Hk & Hle)].
      * simpl in Hk. discriminate.
      * apply pred_symbol_inj in Hk. lia.
    + apply Hinj.
Qed.

Lemma symbols_wf_insert_ent (s s' : PropSWrapper) (i : Z) :
  symbols_wf s →
  tok_ind_to_symbol s !! i = None →
  tok_ind_to_symbol s'
  = <[i := "A" +:+ pretty (ent_counter s + 1)]> (tok_ind_to_symbol s) →
  ent_counter s' = (ent_counter s + 1)%nat →
  pred_counter s' = pred_counter s →
  symbols_wf s'.
Proof.
  intros [Hb Hinj] Hnone Ht Hec Hpc. split.
  - intros j sym. rewrite Ht, Hpc, Hec. rewrite lookup_insert.
    case_decide as Hij.
    + intros [= <-]. left. exists (ent_counter s + 1)%nat. split; [done|lia].
    + intros Hj. destruct (Hb j sym Hj) as [(k & -> & Hk)|(k & -> & Hk)].
      * left. exists k. split; [done|lia].
      * right. by exists k.
  - intros a b sym. rewrite Ht, !lookup_insert.
    repeat case_decide; subst; try done.
    + intros [= <-] Hb'.
      destruct (Hb b _ Hb') as [(k & Hk & Hle)|(k & Hk & _)].
      * apply ent_symbol_inj in Hk. lia.
      * simpl in Hk. discriminate.
    + intros Ha' [= <-].
      destruct (Hb a _ Ha') as [(k & Hk & Hle)|(k & Hk & _)].
      * apply ent_symbol_inj in Hk. lia.
      * simpl in Hk. discriminate.
    + apply Hinj.
Qed.

Lemma grows_by_refl (fresh : Z → Prop) (s : PropSWrapper) : grows_by fresh s s.
Proof. split; [apply allocates_refl|]. split; [done|]. intros i sym H. by left. Qed.

Lemma grows_by_trans (fresh : Z → Prop) (s1 s2 s3 : PropSWrapper) :
  grows_by fresh s1 s2 → grows_by fresh s2 s3 → grows_by fresh s1 s3.
Proof.
  intros (Ha1 & Hw1 & Hn1) (Ha2 & Hw2 & Hn2).
  split; [by eapply allocates_trans|]. split; [auto|].
  intros i sym H. destruct (Hn2 i sym H) as [H2|H2]; [|by right].
  apply Hn1 in H2. done.
Qed.

Lemma grows_by_weaken (fresh fresh' : Z → Prop) (s s' : PropSWrapper) :
  (∀ i, fresh i → fresh' i) → grows_by fresh s s' → grows_by fresh' s s'.
Proof.
  intros Himp (Ha & Hw & Hn). split; [done|]. split; [done|].
  intros i sym H. destruct (Hn i sym H) as [?|[?|?]]; auto.
Qed.


Lemma get_element_symbol_ent_grows (s s' : PropSWrapper) (i : Z) (sym : string) :
  get_element_symbol i _gensym_ent s = Ok (sym, s') →
  grows_by (λ j, j = i) s s' ∧ tok_ind_to_symbol s' !! i = Some sym.
Proof.
  intros H.
  destruct (get_element_symbol_allocates _ _ _ _ _ is_gensym_ent H) as [Hal Hsym].
  split; [|done].
  apply (get_element_symbol_Ok _gensym_ent) in H
    as (_ & _ & _ & _ & _ & _ & Hcases); [|by right].
  destruct Hcases as [[_ ->]|(Hnone & Ht & Hgen)]; [apply grows_by_refl|].
  destruct Hgen as [(Habs & _)|(_ & -> & Hec & Hpc)].
  { exfalso. apply (f_equal (λ m, m (blank_wrapper false false false))) in Habs.
    vm_compute in Habs. discriminate. }
  split; [done|]. split.
  - intros Hwf. by eapply symbols_wf_insert_ent.
  - intros j sym'. rewrite Ht, lookup_insert. case_decide.
    + intros [= <-]. right. by right.
    + by left.
Qed.

Lemma _gensym_pred_grows (s s' : PropSWrapper) (sym : string) :
  _gensym_pred s = Ok (sym, s') → grows_by (λ _, False) s s'.
Proof.
  intros [= <- <-]. split; [|split].
  - split; [by repeat split|]. by repeat split.
  - intros [Hb Hinj]. split; [|exact Hinj].
    intros i sym Hi. destruct (Hb i sym Hi) as [(k & -> & Hk)|(k & -> & Hk)].
    + left. by exists k.
    + right. exists k. split; [done|simpl; lia].
  - intros i sym Hi. by left.
Qed.

(** *** Tables, arguments and keys *)

Lemma covered_grows tbl_s keys pending fresh s s' :
  tbl_s = tok_ind_to_symbol s →
  covered tbl_s keys pending → grows_by fresh s s' →
  covered (tok_ind_to_symbol s') keys (λ i, pending i ∨ fresh i).
Proof.
  intros -> Hc (_ & _ & Hnew) i sym Hi HA.
  destruct (Hnew i sym Hi) as [Hold|[HnA|Hf]]; [|done|by right; right].
  destruct (Hc i sym Hold HA); [by left|by right; left].
Qed.





Lemma grows_by_subseteq fresh s s' :
  grows_by fresh s s' → tok_ind_to_symbol s ⊆ tok_ind_to_symbol s'.
Proof. by intros ((_ & ? & _) & _). Qed.

(** *** Splitting a joined text *)

Lemma split_nonempty (s : string) : split s ≠ [].
Proof.
  destruct s as [|c s]; simpl; [done|].
  destruct (Ascii.eqb c " "); [done|]. by destruct (split s).
Qed.

Lemma split_app_space (a b : string) :
  split (a +:+ String " " b) = split a ++ split b.
Proof.
  induction a as [|c a IH]; simpl; [done|].
  change (String.append a (String " " b)) with (a +:+ String " " b).
  rewrite IH. destruct (Ascii.eqb c " "); [done|].
  destruct (split a) as [|p ps] eqn:E; [by apply split_nonempty in E|done].
Qed.

Lemma join_cons_cons (w w' : string) (ws : list string) :
  join " " (w :: w' :: ws) = w +:+ String " " (join " " (w' :: ws)).
Proof. reflexivity. Qed.



(** *** The loop over the predicates keeps its invariant *)


Section NoDangling.

Variable recursion_limit : nat.

Variable hash_order : ∀ A : Type, list A → list A.
Variable spacy_ents : string → list Span.t.
Variable COPULA : string.
Hypothesis hash_order_yields_all : yields_all hash_order.

















Lemma symbols_wf_set_entities v s : symbols_wf (set_entities v s) ↔ symbols_wf s.
Proof. done. Qed.

Lemma symbols_wf_set_predicates v s : symbols_wf (set_predicates v s) ↔ symbols_wf s.
Proof. done. Qed.





(** *** Entity splitting keeps the arguments in the table *)





















(** *** The modifiers keep the arguments in the table *)





Lemma mapM_entity_symbols ns l s syms s' :
  mapM (λ h, (i <- lift (handle_ind ns h);; get_entity_symbol i)%M) l s
  = Ok (syms, s') →
  grows_by (inds_of ns l) s s'
  ∧ ∀ a, a ∈ syms → ∃ i, tok_ind_to_symbol s' !! i = Some a.
Proof.
  revert s syms. induction l as [|h l IH]; intros s syms H; simpl in H.
  - apply ret_Ok in H as [-> ->]. split; [apply grows_by_refl|].
    intros a Ha. by apply elem_of_nil in Ha.
  - unfold get_entity_symbol in H. inv_M.
    match goal with H : get_element_symbol _ _ _ = _ |- _ =>
      apply get_element_symbol_ent_grows in H as [Hg1 Hs1] end.
    match goal with H : mapM _ _ _ = _ |- _ =>
      apply IH in H as [Hg2 Hs2] end.
    split.
    + eapply grows_by_trans.
      * eapply grows_by_weaken; [|exact Hg1]. intros i ->.
        exists h. split; [left|done].
      * eapply grows_by_weaken; [|exact Hg2]. intros i (n & Hn & Hi).
        exists n. split; [by right|done].
    + intros a Ha. apply elem_of_cons in Ha as [->|Ha]; [|by apply Hs2].
      eexists. eapply lookup_weaken; [exact Hs1|].
      by eapply grows_by_subseteq.
Qed.



(** *** The whole parse *)

Variable parseSentences : string → list (Graph * string).




End NoDangling.


(** * Further properties of the methods *)

(** ** The height of a dependency node *)



(** ** Lists built with a condition or a function that may raise *)

Lemma mapM_r_Ok {A B} (f : A → result B) (l : list A) (ys : list B) :
  mapM_r f l = Ok ys ↔ Forall2 (λ x y, f x = Ok y) l ys.
Proof.
  revert ys. induction l as [|x l IH]; intros ys; simpl.
  - split; [intros [= <-]; constructor|by intros ->%Forall2_nil_inv_l].
  - rewrite rbind_Ok. split.
    + intros (y & Hy & H). apply rbind_Ok in H as (ys' & Hys & [= <-]).
      constructor; [done|by apply IH].
    + intros (y & ys' & Hy & Hys & ->)%Forall2_cons_inv_l.
      exists y. split; [done|]. apply rbind_Ok. exists ys'.
      split; [by apply IH|done].
Qed.

Lemma filterM_r_Ok {A} (f : A → result bool) (l ys : list A) :
  filterM_r f l = Ok ys →
  (∀ x, x ∈ l → is_Ok (f x)) ∧ (∀ x, x ∈ ys ↔ x ∈ l ∧ f x = Ok true)
  ∧ ys `sublist_of` l.
Proof.
  revert ys. induction l as [|x l IH]; intros ys; simpl.
  - intros [= <-]. split_and!; [by intros x ?%elem_of_nil| |done].
    intros x. split; [by intros ?%elem_of_nil|by intros [?%elem_of_nil _]].
  - intros H. apply rbind_Ok in H as (b & Hb & H).
    apply rbind_Ok in H as (ys' & Hys & [= <-]).
    destruct (IH _ Hys) as (Hok & Hin & Hsub). split_and!.
    + intros y [->|Hy]%elem_of_cons; [by exists b|by apply Hok].
    + intros y. destruct b.
      * rewrite !elem_of_cons, Hin. split.
        -- intros [->|[Hy Hf]]; [by split; [left|]|by split; [right|]].
        -- intros [[->|Hy] Hf]; [by left|by right].
      * rewrite elem_of_cons, Hin. split.
        -- intros [Hy Hf]. by split; [right|].
        -- intros [[->|Hy] Hf]; [congruence|done].
    + destruct b; [by constructor|by constructor].
Qed.

Lemma filterM_r_NoDup {A} (f : A → result bool) (l ys : list A) :
  filterM_r f l = Ok ys → NoDup l → NoDup ys.
Proof. intros (_ & _ & Hsub)%filterM_r_Ok Hnd. by eapply sublist_NoDup. Qed.

Lemma mapM_r_elem {A B} (f : A → result B) (l : list A) (ys : list B) :
  mapM_r f l = Ok ys →
  (∀ y, y ∈ ys → ∃ x, x ∈ l ∧ f x = Ok y)
  ∧ (∀ x, x ∈ l → ∃ y, y ∈ ys ∧ f x = Ok y).
Proof.
  intros H%mapM_r_Ok. induction H as [|x y l ys Hxy H [IH1 IH2]].
  - split; intros ? ?%elem_of_nil; done.
  - split.
    + intros y' [->|Hy']%elem_of_cons; [exists x; by split; [left|]|].
      destruct (IH1 _ Hy') as (x' & Hx' & Hf). exists x'. by split; [right|].
    + intros x' [->|Hx']%elem_of_cons; [exists y; by split; [left|]|].
      destruct (IH2 _ Hx') as (y' & Hy' & Hf). exists y'. by split; [right|].
Qed.

Lemma elem_of_concat {A} (x : A) (ls : list (list A)) :
  x ∈ concat ls ↔ ∃ l, l ∈ ls ∧ x ∈ l.
Proof.
  induction ls as [|l ls IH]; simpl.
  - split; [by intros ?%elem_of_nil|by intros (l & ?%elem_of_nil & _)].
  - rewrite elem_of_app, IH. split.
    + intros [Hx|(l' & Hl' & Hx)]; [exists l; by split; [left|]|].
      exists l'. by split; [right|].
    + intros (l' & [->|Hl']%elem_of_cons & Hx); [by left|right; by exists l'].
Qed.

(** ** The neighbours of a node, across SameAs nodes *)

Section Neighbors.

Variable recursion_limit : nat.

Variable hash_order : ∀ A : Type, list A → list A.
Variable COPULA : string.
Hypothesis hash_order_yields_all : yields_all hash_order.

Lemma sameAs_test (ns : list Props.t) (y : nat) (b : bool) :
  (nb ← deref ns y;
   if Props.is_implicit nb
   then w ← py_index (Props.text nb) 0; Ok (bool_decide (Word.word w = COPULA))
   else Ok false) = Ok b →
  ∃ nb, ns !! y = Some nb ∧ (b = true ↔ is_sameAs COPULA nb).
Proof.
  intros H. apply rbind_Ok in H as (nb & Hd & H).
  unfold deref in Hd. destruct (ns !! y) as [nb'|] eqn:Hy; [|done].
  injection Hd as ->. exists nb. split; [done|]. unfold is_sameAs.
  destruct (Props.is_implicit nb) eqn:Himp.
  - apply rbind_Ok in H as (w & Hw & [= <-]).
    destruct (Props.text nb) as [|w' rest] eqn:Ht; [done|].
    injection Hw as ->. simpl. rewrite bool_decide_eq_true. split.
    + intros Hc. split; [done|]. by exists w.
    + by intros (_ & w' & [= <-] & Hc).
  - injection H as <-. split; [done|]. by intros [? _].
Qed.

Lemma get_props_neighbors_fuel_spec (fuel : nat) (ns : list Props.t) (h : nat)
    (l : list nat) :
  get_props_neighbors_fuel hash_order COPULA fuel ns h = Ok l →
  NoDup l ∧ ∀ x, x ∈ l ↔ across_sameAs COPULA ns h x.
Proof.
  revert h l. induction fuel as [|fuel IH]; intros h l; simpl; [done|].
  intros H. apply rbind_Ok in H as (n & Hn & H).
  apply rbind_Ok in H as (sameAs & Hf & H).
  apply rbind_Ok in H as (across & Ha & [= <-]).
  unfold deref in Hn. destruct (ns !! h) as [n'|] eqn:Hh; [|done].
  injection Hn as ->.
  apply filterM_r_Ok in Hf as (Hok & Hin & _).
  apply mapM_r_elem in Ha as [Ha1 Ha2].
  split; [apply NoDup_remove_dups|].
  assert (Hacross : ∀ x, x ∈ concat across ↔
            ∃ y, y ∈ sameAs ∧ across_sameAs COPULA ns y x).
  { intros x. rewrite elem_of_concat. split.
    - intros (s' & Hs' & Hx). destruct (Ha1 _ Hs') as (y & Hy & Hrec).
      apply rbind_Ok in Hrec as (s & Hs & [= <-]).
      exists y. split; [done|]. apply (IH _ _ Hs).
      by rewrite <- (hash_order_yields_all _ s).
    - intros (y & Hy & Hx). destruct (Ha2 _ Hy) as (s' & Hs' & Hrec).
      apply rbind_Ok in Hrec as (s & Hs & [= <-]).
      exists (hash_order _ s). split; [done|].
      rewrite (hash_order_yields_all _ s). by apply (IH _ _ Hs). }
  intros x. rewrite elem_of_remove_dups, elem_of_app, list_elem_of_difference,
    !elem_of_remove_dups, Hacross. split.
  - intros [[Hx Hns]|(y & Hy & Hx)].
    + destruct (Hok _ Hx) as (b & Hb).
      destruct (sameAs_test _ _ _ Hb) as (nb & Hnb & Hiff).
      apply (across_here _ _ h n x nb); [done..|].
      intros Hs. apply Hns, Hin. split; [done|]. rewrite Hb. f_equal. by apply Hiff.
    + apply Hin in Hy as [Hy Hb].
      destruct (sameAs_test _ _ _ Hb) as (nb & Hnb & Hiff).
      apply (across_next _ _ h n y nb x); [done..| |done]. by apply Hiff.
  - intros Hx. inversion Hx as [h' n' x' nb Hh' Hx' Hnb Hns|h' n' y nb x' Hh' Hy Hnb Hs Hyx];
      subst; assert (n' = n) as -> by congruence.
    + left. split; [done|]. intros [_ Hb]%Hin.
      destruct (sameAs_test _ _ _ Hb) as (nb' & Hnb' & Hiff).
      assert (nb' = nb) as -> by congruence. by apply Hns, Hiff.
    + right. exists y. split; [|done]. apply Hin. split; [done|].
      destruct (Hok _ Hy) as (b & Hb). rewrite Hb. f_equal.
      destruct (sameAs_test _ _ _ Hb) as (nb' & Hnb' & Hiff).
      assert (nb' = nb) as -> by congruence. by apply Hiff.
Qed.

(** X2. The set that [get_props_neighbors] returns for a node holds each
    of its elements once, and a node is in it exactly when it is not a
    SameAs node and an edge leads to it from the node, directly or
    through SameAs nodes. *)
Theorem get_props_neighbors_across (ns : list Props.t) (h : nat) (l : list nat) :
  get_props_neighbors recursion_limit hash_order COPULA ns h = Ok l →
  NoDup l ∧ ∀ x, x ∈ l ↔ across_sameAs COPULA ns h x.
Proof. apply get_props_neighbors_fuel_spec. Qed.

End Neighbors.

Lemma get_props_neighbors_across_witness :
  yields_all given_order
  ∧ get_props_neighbors some_limit given_order "SameAs" appos_nodes 0 = Ok [2; 3]%nat
  ∧ NoDup [2; 3]%nat
  ∧ ∀ x, x ∈ [2; 3]%nat ↔ across_sameAs "SameAs" appos_nodes 0 x.
Proof.
  assert (Hall : yields_all given_order) by (intros A l; reflexivity).
  assert (Hrun : get_props_neighbors some_limit given_order "SameAs" appos_nodes 0
                 = Ok [2; 3]%nat) by (vm_compute; reflexivity).
  split; [exact Hall|]. split; [exact Hrun|].
  exact (get_props_neighbors_across some_limit given_order "SameAs" Hall appos_nodes 0
           [2; 3]%nat Hrun).
Defined.

(** ** The multiword predicate *)

Lemma is_props_dependent_Ok (ns : list Props.t) (n : Props.t) (i : Z) (b : bool) :
  is_props_dependent ns n i = Ok b →
  (b = false ↔ outside_arguments ns n i).
Proof.
  unfold is_props_dependent, outside_arguments. intros H.
  apply rbind_Ok in H as (props_nodes & Hm & [= <-]).
  apply mapM_r_elem in Hm as [Hm1 Hm2].
  rewrite bool_decide_eq_false, elem_of_concat. split.
  - intros Hno x nb Hx Hnb Hi. apply Hno.
    destruct (Hm2 _ Hx) as (nb' & Hnb' & Hd). unfold deref in Hd.
    rewrite Hnb in Hd. injection Hd as <-.
    exists (Word.index <$> Props.text nb). split; [|done].
    apply list_elem_of_fmap. by exists nb.
  - intros Hout (l & Hl & Hi). apply list_elem_of_fmap in Hl as (nb & -> & Hnb).
    destruct (Hm1 _ Hnb) as (x & Hx & Hd). unfold deref in Hd.
    destruct (ns !! x) as [nb'|] eqn:Hnsx; [|done]. injection Hd as ->.
    by apply (Hout x nb).
Qed.

Lemma get_mwp_Ok (recursion_limit : nat) (tree : list Dep.t) (ns : list Props.t) (n : Props.t)
    (bare : list Dep.t) :
  get_mwp recursion_limit tree ns n = Ok bare →
  Props.isPredicate n = true
  ∧ ∃ anchor aux,
      bare = anchor :: aux
      ∧ get_dep_node recursion_limit tree n = Ok anchor
      ∧ ∀ c, c ∈ aux ↔
          (∃ i, i ∈ Dep.children anchor ∧ tree !! i = Some c)
          ∧ Dep.parent_relation c ∈ AUX_LABELS
          ∧ outside_arguments ns n (Dep.id c).
Proof.
  unfold get_mwp. intros H.
  apply rbind_Ok in H as ([] & Hassert & H).
  apply rbind_Ok in H as (anchor & Hanchor & H).
  apply rbind_Ok in H as (dep_children & Hch & H).
  apply rbind_Ok in H as (aux & Haux & [= <-]).
  unfold py_assert in Hassert.
  destruct (Props.isPredicate n); [|done]. split; [done|].
  exists anchor, aux. split; [done|]. split; [done|].
  apply filterM_r_Ok in Haux as (Hok & Hin & _).
  apply mapM_r_elem in Hch as [Hch1 Hch2].
  assert (Hchild : ∀ c, c ∈ dep_children ↔
            ∃ i, i ∈ Dep.children anchor ∧ tree !! i = Some c).
  { intros c. split.
    - intros (i & Hi & Hd)%Hch1. exists i. split; [done|].
      unfold deref in Hd. by destruct (tree !! i); [injection Hd as ->|].
    - intros (i & Hi & Hc). destruct (Hch2 _ Hi) as (c' & Hc' & Hd).
      unfold deref in Hd. rewrite Hc in Hd. by injection Hd as <-. }
  intros c. rewrite Hin, Hchild. split.
  - intros [Hc Hf]. split; [done|].
    case_bool_decide as Hlab; [|done]. split; [done|].
    apply rbind_Ok in Hf as (b & Hb & [= Hneg]).
    apply (is_props_dependent_Ok _ _ _ _ Hb). by destruct b.
  - intros (Hc & Hlab & Hout). split; [done|].
    assert (c ∈ dep_children) as Hcin by (by apply Hchild).
    destruct (Hok _ Hcin) as (r & Hr). rewrite Hr. f_equal.
    rewrite bool_decide_eq_true_2 in Hr by done.
    apply rbind_Ok in Hr as (b & Hb & [= <-]).
    apply (is_props_dependent_Ok _ _ _ _ Hb) in Hout. by subst b.
Qed.

(** X3. The multiword predicate that [get_mwp] returns for a predicate
    node starts with the dependency node of the predicate; the nodes that
    follow are exactly the children of that node whose relation is one of
    [AUX_LABELS] and whose token no argument of the predicate has among
    its words. *)
Theorem get_mwp_auxiliaries (recursion_limit : nat) (tree : list Dep.t) (ns : list Props.t)
    (n : Props.t) (bare : list Dep.t) :
  get_mwp recursion_limit tree ns n = Ok bare →
  Props.isPredicate n = true
  ∧ ∃ anchor aux,
      bare = anchor :: aux
      ∧ get_dep_node recursion_limit tree n = Ok anchor
      ∧ ∀ c, c ∈ aux ↔
          (∃ i, i ∈ Dep.children anchor ∧ tree !! i = Some c)
          ∧ Dep.parent_relation c ∈ AUX_LABELS
          ∧ outside_arguments ns n (Dep.id c).
Proof. apply get_mwp_Ok. Qed.

Lemma get_mwp_auxiliaries_witness :
  get_mwp some_limit resigned_tree resigned_nodes resigned_node
  = Ok [Dep.mk 3 "resigned" "VBN" "root" (Some 0%nat) [1%nat; 2%nat];
        Dep.mk 2 "has" "VBZ" "aux" (Some 3%nat) []]
  ∧ Props.isPredicate resigned_node = true
  ∧ ∃ anchor aux,
      [Dep.mk 3 "resigned" "VBN" "root" (Some 0%nat) [1%nat; 2%nat];
       Dep.mk 2 "has" "VBZ" "aux" (Some 3%nat) []] = anchor :: aux
      ∧ get_dep_node some_limit resigned_tree resigned_node = Ok anchor
      ∧ ∀ c, c ∈ aux ↔
          (∃ i, i ∈ Dep.children anchor ∧ resigned_tree !! i = Some c)
          ∧ Dep.parent_relation c ∈ AUX_LABELS
          ∧ outside_arguments resigned_nodes resigned_node (Dep.id c).
Proof.
  assert (Hrun : get_mwp some_limit resigned_tree resigned_nodes resigned_node
    = Ok [Dep.mk 3 "resigned" "VBN" "root" (Some 0%nat) [1%nat; 2%nat];
          Dep.mk 2 "has" "VBZ" "aux" (Some 3%nat) []])
    by (vm_compute; reflexivity).
  split; [exact Hrun|].
  exact (get_mwp_auxiliaries some_limit resigned_tree resigned_nodes resigned_node _ Hrun).
Defined.

(** ** The record of a predicate of the graph *)

Section Record.

Variable recursion_limit : nat.

Variable hash_order : ∀ A : Type, list A → list A.
Variable COPULA : string.


End Record.


(** ** The sentence of the record *)

Section Sentence.

Variable recursion_limit : nat.

Variable hash_order : ∀ A : Type, list A → list A.
Variable parseSentences : string → list (Graph * string).
Variable spacy_ents : string → list Span.t.
Variable COPULA : string.

Lemma frame_parse_selected (selected : list nat) :
  frame (parse_selected recursion_limit hash_order spacy_ents COPULA selected).
Proof.
  unfold parse_selected.
  pose proof (frame_parse_predicate recursion_limit hash_order COPULA).
  pose proof (frame__split_entities hash_order spacy_ents).
  pose proof (frame_add_modifiers_as_implicits recursion_limit hash_order COPULA).
  solve_frame.
Qed.

Lemma drop_1_sorted {A} (key : A → Z) (l : list A) :
  (l = [] ∧ drop 1 (sorted key l) = [])
  ∨ ∃ x, x :: drop 1 (sorted key l) ≡ₚ l
         ∧ ∀ y, y ∈ drop 1 (sorted key l) → (key x ≤ key y)%Z.
Proof.
  pose proof (sorted_perm key l) as Hperm.
  pose proof (sorted_ascending key l) as Hasc.
  destruct (sorted key l) as [|x rest] eqn:E.
  - left. split; [|done]. by apply Permutation_nil.
  - right. exists x. simpl. rewrite drop_0. split; [done|].
    inversion Hasc as [|? ? _ Hall]; subst.
    intros y Hy. by eapply (proj1 (Forall_forall _ _) Hall).
Qed.

(** X5. After [parse], the sentence of the record is made of the words of
    the dependency tree of the parsed graph, not of the raw input: all its
    nodes but one of least id (the root), in ascending order of id, with
    single spaces between them.  The instance holds that graph and tree,
    and its three options are as before. *)
Theorem parse_sentence (sent : string) (s s' : PropSWrapper) (u : unit)
    (g : Graph) (t : string) :
  py_index (parseSentences sent) 0 = Ok (g, t) →
  parse recursion_limit hash_order parseSentences spacy_ents COPULA sent s = Ok (u, s') →
  graph s' = Some g
  ∧ dep_tree s' = Some (dep_tree_values g)
  ∧ predicate_nodes s' = Some (selected_of s g)
  ∧ get_implicits s' = get_implicits s
  ∧ get_zero_args s' = get_zero_args s
  ∧ get_conj s' = get_conj s
  ∧ ∃ ws, Sentence (get_okr s') = join " " (Dep.word <$> ws)
        ∧ ascending Dep.id ws
        ∧ ((dep_tree_values g = [] ∧ ws = [])
           ∨ ∃ root, root :: ws ≡ₚ dep_tree_values g
                     ∧ ∀ d, d ∈ ws → (Dep.id root ≤ Dep.id d)%Z).
Proof.
  intros Hg H. rewrite (parse_loaded _ _ _ _ _ _ _ g t Hg) in H.
  apply frame_parse_selected in H
    as (Hi & Hz & Hc & Hgraph & Htree & Hsent & Hsel).
  simpl in *. repeat (split; [done|]).
  exists (drop 1 (sorted Dep.id (dep_tree_values g))).
  split; [done|]. split.
  - pose proof (sorted_ascending Dep.id (dep_tree_values g)) as Hasc.
    destruct (sorted Dep.id (dep_tree_values g)) as [|x rest]; [constructor|].
    simpl. rewrite drop_0. by inversion Hasc.
  - apply drop_1_sorted.
Qed.

End Sentence.

Lemma parse_sentence_witness :
  py_index [(york_graph, "")] 0 = Ok (york_graph, "")
  ∧ york_parse (blank_wrapper false false false) = Ok (tt, york_final)
  ∧ graph york_final = Some york_graph
  ∧ dep_tree york_final = Some (dep_tree_values york_graph)
  ∧ predicate_nodes york_final
    = Some (selected_of (blank_wrapper false false false) york_graph)
  ∧ get_implicits york_final = false
  ∧ get_zero_args york_final = false
  ∧ get_conj york_final = false
  ∧ ∃ ws, Sentence (get_okr york_final) = join " " (Dep.word <$> ws)
        ∧ ascending Dep.id ws
        ∧ ((dep_tree_values york_graph = [] ∧ ws = [])
           ∨ ∃ root, root :: ws ≡ₚ dep_tree_values york_graph
                     ∧ ∀ d, d ∈ ws → (Dep.id root ≤ Dep.id d)%Z).
Proof.
  assert (Hg : py_index [(york_graph, "")] 0 = Ok (york_graph, ""))
    by reflexivity.
  assert (Hrun : parse some_limit given_order (λ _, [(york_graph, "")]) (λ _, york_ents)
                   "SameAs" york_sentence (blank_wrapper false false false)
                 = Ok (tt, york_final))
    by (vm_compute; reflexivity).
  split; [exact Hg|]. split; [exact Hrun|].
  exact (parse_sentence some_limit given_order (λ _, [(york_graph, "")]) (λ _, york_ents)
           "SameAs" york_sentence (blank_wrapper false false false) york_final tt
           york_graph "" Hg Hrun).
Defined.

(** ** A sentence without predicates *)

Section Nothing.

Variable recursion_limit : nat.

Variable hash_order : ∀ A : Type, list A → list A.
Variable parseSentences : string → list (Graph * string).
Variable spacy_ents : string → list Span.t.
Variable COPULA : string.
Hypothesis hash_order_yields_all : yields_all hash_order.

Lemma hash_order_nil {A} : hash_order A [] = [].
Proof. apply Permutation_nil. by rewrite (hash_order_yields_all A []). Qed.

Lemma forM__skip {A} (l : list A) (f : A → M unit) (s : PropSWrapper) :
  (∀ x, x ∈ l → f x s = Ok (tt, s)) → forM_ l f s = Ok (tt, s).
Proof.
  induction l as [|x l IH]; intros Hf; simpl; [done|].
  unfold bind. rewrite (Hf x) by (by left).
  apply IH. intros y Hy. apply Hf. by right.
Qed.

Lemma add_modifiers_as_implicits_empty (s : PropSWrapper) (g : Graph) :
  graph s = Some g → tok_ind_to_symbol s = ∅ →
  (∀ n, n ∈ nodes g → is_Ok (get_node_ind (PropsNode n))) →
  add_modifiers_as_implicits recursion_limit hash_order COPULA s = Ok (tt, s).
Proof.
  intros Hg Htbl Hind. unfold add_modifiers_as_implicits, bind, attr.
  rewrite Hg. apply forM__skip. intros h Hh.
  apply elem_of_seq in Hh as [_ Hh]. simpl in Hh.
  destruct (lookup_lt_is_Some_2 (nodes g) h Hh) as [n Hn].
  destruct (Hind n) as [i Hi]; [by eapply list_elem_of_lookup_2|].
  unfold lift, handle_ind, deref. rewrite Hn. simpl. rewrite Hi.
  unfold gets. rewrite Htbl, lookup_empty.
  rewrite bool_decide_eq_false_2; [done|]. by intros [? ?].
Qed.

(** X6. When no node of the graph is selected as a predicate, the record
    of the sentence has no entity and no predicate, whatever named
    entities the sentence has; and [parse] returns it, provided every node
    of the graph has an index. *)
Theorem parse_nothing_selected (sent : string) (s : PropSWrapper) (g : Graph)
    (t : string) :
  py_index (parseSentences sent) 0 = Ok (g, t) →
  selected_of s g = [] →
  (∀ n, n ∈ nodes g → is_Ok (get_node_ind (PropsNode n))) →
  run_pipeline recursion_limit hash_order parseSentences spacy_ents COPULA sent s
  = Ok {| Sentence := tokenized g; Entities := ∅; Predicates := ∅ |}.
Proof.
  intros Hg Hsel Hind. unfold run_pipeline.
  rewrite (parse_loaded _ _ _ _ _ _ _ g t Hg), Hsel.
  unfold parse_selected, _split_entities, _get_named_entities.
  pose proof (add_modifiers_as_implicits_empty) as Hmod.
  set (am := add_modifiers_as_implicits recursion_limit hash_order COPULA) in *.
  unfold bind, gets, modify, attr, ret. simpl.
  rewrite !map_to_list_empty, !hash_order_nil. simpl.
  rewrite (Hmod _ g); [done|done|done|done].
Qed.

End Nothing.

Lemma parse_nothing_selected_witness :
  yields_all given_order
  ∧ py_index [(name_graph, "")] 0 = Ok (name_graph, "")
  ∧ selected_of (blank_wrapper false false false) name_graph = []
  ∧ (∀ n, n ∈ nodes name_graph → is_Ok (get_node_ind (PropsNode n)))
  ∧ run_pipeline some_limit given_order (λ _, [(name_graph, "")]) (λ _, name_ents) "SameAs"
      "John" (blank_wrapper false false false)
    = Ok {| Sentence := tokenized name_graph; Entities := ∅; Predicates := ∅ |}.
Proof.
  assert (Hall : yields_all given_order) by (intros A l; reflexivity).
  assert (Hg : py_index [(name_graph, "")] 0 = Ok (name_graph, ""))
    by reflexivity.
  assert (Hsel : selected_of (blank_wrapper false false false) name_graph = [])
    by reflexivity.
  assert (Hind : ∀ n, n ∈ nodes name_graph →
                      is_Ok (get_node_ind (PropsNode n))).
  { intros n ->%list_elem_of_singleton. by exists 1%Z. }
  split; [exact Hall|]. split; [exact Hg|]. split; [exact Hsel|].
  split; [exact Hind|].
  exact (parse_nothing_selected some_limit given_order (λ _, [(name_graph, "")])
           (λ _, name_ents) "SameAs" Hall "John" (blank_wrapper false false false)
           name_graph "" Hg Hsel Hind).
Defined.

(** ** The script: one instance for all the sentences *)

Section Script.

Variable recursion_limit : nat.

Variable hash_orders : nat → ∀ A : Type, list A → list A.
Variable parseSentences : string → list (Graph * string).
Variable spacy_ents : string → list Span.t.
Variable COPULA : string.



End Script.

(** ** The words of an entity and their indices *)

Lemma split_spaceless (w : string) : spaceless w = true → split w = [w].
Proof.
  induction w as [|c w IH]; simpl; [done|].
  intros [Hc Hw]%andb_prop. apply negb_true_iff in Hc. rewrite Hc.
  by rewrite (IH Hw).
Qed.

Lemma split_join (ws : list string) :
  ws ≠ [] → Forall (λ w, spaceless w = true) ws → split (join " " ws) = ws.
Proof.
  induction ws as [|w ws IH]; [done|]. intros _ Hall.
  apply Forall_cons in Hall as [Hw Hall].
  destruct ws as [|w' ws].
  - simpl. by apply split_spaceless.
  - rewrite join_cons_cons, split_app_space, split_spaceless by done.
    simpl. f_equal. by apply IH.
Qed.

Lemma zip_fmap_same {A B C} (f : A → B) (g : A → C) (l : list A) :
  zip (f <$> l) (g <$> l) = (λ x, (f x, g x)) <$> l.
Proof. induction l as [|x l IH]; simpl; [done|]. f_equal. exact IH. Qed.

Section Tokens.

Variable recursion_limit : nat.

Variable hash_order : ∀ A : Type, list A → list A.
Hypothesis hash_order_yields_all : yields_all hash_order.

(** X8. The entity that [parse_predicate] and
    [add_props_node_to_entities] store for a node whose words have no
    space in them splits back into its words: [_split_entities], which
    pairs the pieces of the text between spaces with the indices, visits
    each word of the span of the node once, in ascending order, with its
    own index counted from 0. *)
Theorem node_entity_tokens (nd : Props.t) :
  Forall (λ w, spaceless (Word.word w) = true) (Props.str nd) →
  ∃ ws, ws ≡ₚ remove_dups (Props.str nd)
      ∧ ascending Word.index ws
      ∧ zip (split (node_entity hash_order nd).1) (node_entity hash_order nd).2
        = (λ w, (Word.word w, (Word.index w - 1)%Z)) <$> ws.
Proof.
  intros Hall. unfold node_entity. cbn [fst snd].
  set (ws := sorted Word.index (hash_order _ (remove_dups (Props.str nd)))).
  exists ws. split.
  { subst ws. rewrite sorted_perm. apply hash_order_yields_all. }
  split; [apply sorted_ascending|].
  destruct ws as [|w ws'] eqn:E; [done|].
  rewrite split_join; [apply zip_fmap_same|done|].
  apply Forall_fmap, Forall_forall. intros x Hx. simpl.
  apply (proj1 (Forall_forall _ _) Hall).
  apply elem_of_remove_dups.
  rewrite <- (hash_order_yields_all _ (remove_dups (Props.str nd))).
  apply (elem_of_sorted Word.index). fold ws. by rewrite E.
Qed.

End Tokens.

Lemma node_entity_tokens_witness :
  yields_all given_order
  ∧ Forall (λ w, spaceless (Word.word w) = true) york_span
  ∧ ∃ ws, ws ≡ₚ remove_dups york_span
      ∧ ascending Word.index ws
      ∧ zip (split (node_entity given_order
                      (Props.mk false false false york_span york_span [] ∅ None)).1)
            (node_entity given_order
               (Props.mk false false false york_span york_span [] ∅ None)).2
        = (λ w, (Word.word w, (Word.index w - 1)%Z)) <$> ws.
Proof.
  assert (Hall : yields_all given_order) by (intros A l; reflexivity).
  assert (Hsp : Forall (λ w, spaceless (Word.word w) = true) york_span).
  { repeat constructor. }
  split; [exact Hall|]. split; [exact Hsp|].
  exact (node_entity_tokens given_order Hall
           (Props.mk false false false york_span york_span [] ∅ None) Hsp).
Defined.

(** ** The other tokens of an entity *)

Lemma falls_through_guard roots all_NEs ent_head_symbol cur_head_ind loc ind :
  falls_through roots all_NEs ent_head_symbol cur_head_ind loc ind →
  bool_decide ((ind + 1)%Z = cur_head_ind)
  && bool_decide (ret_ loc !! ent_head_symbol = None) = false.
Proof.
  intros ([Hneq|[x Hx]] & _).
  - by rewrite (bool_decide_false_2 _ Hneq).
  - rewrite Hx, andb_comm. done.
Qed.

(** X9. A token of an entity that is neither its head, nor within a
    named entity, nor a determiner, nor a preposition with its sole child
    in the span, nor the object of a preposition of the span, becomes an
    entity of its own, under the symbol of its token, and a new implicit
    proposition relates it to the head of the entity; the two arguments
    come in the order of their tokens in the sentence. *)
Theorem split_token_implicit (roots : gmap Z Span.t) (s : PropSWrapper)
    (tree : list Dep.t) (all_NEs ent_indices : list Z)
    (ent_head_symbol word : string) (cur_head_ind ind : Z) (loc : split_locals)
    (cur_dep_node : Dep.t) :
  dep_tree s = Some tree →
  _all_NEs_token_indices s = Some all_NEs →
  py_index tree (ind + 1) = Ok cur_dep_node →
  falls_through roots all_NEs ent_head_symbol cur_head_ind loc ind →
  Dep.parent_relation cur_dep_node ≠ "det" →
  is_prep_in_span tree cur_dep_node ent_indices = Ok false →
  is_pobj_in_span tree cur_dep_node ent_indices = Ok false →
  ∃ new_ent_symbol s1,
    get_element_symbol (ind + 1) _gensym_ent s = Ok (new_ent_symbol, s1)
    ∧ split_token roots ent_head_symbol cur_head_ind ent_indices loc (word, ind) s
      = Ok ({| ret_ := <[new_ent_symbol := (word, [ind])]> (ret_ loc);
               NEs_to_insert := NEs_to_insert loc |},
            set_predicates
              (<["P" +:+ pretty (pred_counter s1 + 1) :=
                   create_implicit_proposition
                     (if bool_decide (ind + 1 ≤ cur_head_ind)%Z
                      then [new_ent_symbol; ent_head_symbol]
                      else [ent_head_symbol; new_ent_symbol])]>
                 (predicates s1))
              (set_pred_counter (pred_counter s1 + 1) s1)).
Proof.
  intros Htree Hall Hcur Hfall Hdet Hprep Hpobj.
  pose proof (falls_through_guard _ _ _ _ _ _ Hfall) as Hguard.
  destruct Hfall as (_ & Hroot & Hne).
  assert (Hsym : ∃ new_ent_symbol s1,
             get_element_symbol (ind + 1) _gensym_ent s = Ok (new_ent_symbol, s1)
             ∧ dep_tree s1 = dep_tree s).
  { rewrite get_element_symbol_ent.
    destruct (tok_ind_to_symbol s !! (ind + 1)%Z); eauto. }
  destruct Hsym as (new_ent_symbol & s1 & Hsym & Htree1).
  exists new_ent_symbol, s1. split; [done|].
  unfold split_token, bind, attr, lift. simpl.
  rewrite Htree, Hcur, Hguard, Hroot, Hall.
  rewrite (bool_decide_false_2 _ Hne).
  rewrite bool_decide_eq_false_2 by (by intros Hx%list_elem_of_singleton).
  rewrite Hprep, Hpobj, Hsym.
  unfold _gensym_pred, bind, gets, modify, ret. simpl.
  clear Hguard. by destruct (bool_decide (ind + 1 ≤ cur_head_ind)%Z).
Qed.

(** X10. A token of an entity that is the object of a preposition
    ([pobj]) whose preposition is in the span of the entity is skipped:
    no entity and no proposition is made for it at this point. *)
Theorem split_token_pobj (roots : gmap Z Span.t) (s : PropSWrapper)
    (tree : list Dep.t) (all_NEs ent_indices : list Z)
    (ent_head_symbol word : string) (cur_head_ind ind : Z) (loc : split_locals)
    (cur_dep_node prep : Dep.t) (p : nat) :
  dep_tree s = Some tree →
  _all_NEs_token_indices s = Some all_NEs →
  py_index tree (ind + 1) = Ok cur_dep_node →
  falls_through roots all_NEs ent_head_symbol cur_head_ind loc ind →
  Dep.parent_relation cur_dep_node = "pobj" →
  Dep.parent cur_dep_node = Some p →
  tree !! p = Some prep →
  (Dep.id prep - 1)%Z ∈ ent_indices →
  split_token roots ent_head_symbol cur_head_ind ent_indices loc (word, ind) s
  = Ok (loc, s).
Proof.
  intros Htree Hall Hcur Hfall Hrel Hparent Hp Hin.
  pose proof (falls_through_guard _ _ _ _ _ _ Hfall) as Hguard.
  destruct Hfall as (_ & Hroot & Hne).
  unfold split_token, bind, attr, lift. simpl.
  rewrite Htree, Hcur, Hguard, Hroot, Hall.
  rewrite (bool_decide_false_2 _ Hne).
  unfold is_prep_in_span, is_pobj_in_span, parent_node, deref.
  rewrite Hrel, Hparent, Hp. simpl.
  by rewrite (bool_decide_eq_true_2 _ Hin).
Qed.

Lemma split_token_implicit_witness :
  dep_tree york_splitting = Some york_tree
  ∧ _all_NEs_token_indices york_splitting = Some [3%Z; 4%Z]
  ∧ falls_through york_roots [3%Z; 4%Z] "A1" 5 york_locals 1
  ∧ ∃ new_ent_symbol s1,
      get_element_symbol (1 + 1) _gensym_ent york_splitting
      = Ok (new_ent_symbol, s1)
      ∧ split_token york_roots "A1" 5 [1%Z; 2%Z; 3%Z; 4%Z] york_locals
          ("capital", 1%Z) york_splitting
        = Ok ({| ret_ := <[new_ent_symbol := ("capital", [1%Z])]> (ret_ york_locals);
                 NEs_to_insert := NEs_to_insert york_locals |},
              set_predicates
                (<["P" +:+ pretty (pred_counter s1 + 1) :=
                     create_implicit_proposition
                       (if bool_decide (1 + 1 ≤ 5)%Z
                        then [new_ent_symbol; "A1"]
                        else ["A1"; new_ent_symbol])]>
                   (predicates s1))
                (set_pred_counter (pred_counter s1 + 1) s1)).
Proof.
  assert (Hfall : falls_through york_roots [3%Z; 4%Z] "A1" 5 york_locals 1).
  { split; [left; lia|]. split; [reflexivity|].
    apply (bool_decide_unpack _). vm_compute. exact I. }
  split; [reflexivity|]. split; [reflexivity|]. split; [exact Hfall|].
  apply (split_token_implicit york_roots york_splitting york_tree [3%Z; 4%Z]
           [1%Z; 2%Z; 3%Z; 4%Z] "A1" "capital" 5 1 york_locals
           (Dep.mk 2 "capital" "NN" "dobj" (Some 1%nat) [3%nat]));
    [reflexivity | reflexivity | reflexivity | exact Hfall | | reflexivity
    | reflexivity ].
  apply (bool_decide_unpack _). vm_compute. exact I.
Defined.

Lemma split_token_pobj_witness :
  dep_tree york_untagged = Some york_tree
  ∧ _all_NEs_token_indices york_untagged = Some []
  ∧ falls_through ∅ [] "A1" 5 york_locals 4
  ∧ split_token ∅ "A1" 5 [1%Z; 2%Z; 3%Z; 4%Z] york_locals ("York", 4%Z)
      york_untagged
    = Ok (york_locals, york_untagged).
Proof.
  assert (Hfall : falls_through ∅ [] "A1" 5 york_locals 4).
  { split; [right; by eexists|]. split; [reflexivity|].
    apply (bool_decide_unpack _). vm_compute. exact I. }
  split; [reflexivity|]. split; [reflexivity|]. split; [exact Hfall|].
  apply (split_token_pobj ∅ york_untagged york_tree []
           [1%Z; 2%Z; 3%Z; 4%Z] "A1" "York" 5 4 york_locals
           (Dep.mk 5 "York" "NNP" "pobj" (Some 3%nat) [4%nat])
           (Dep.mk 3 "of" "IN" "prep" (Some 2%nat) [5%nat]) 3%nat);
    [reflexivity | reflexivity | reflexivity | exact Hfall | reflexivity
    | reflexivity | reflexivity | ].
  apply (bool_decide_unpack _). vm_compute. exact I.
Defined.

(** ** The keys of the record *)

Lemma advances_refl (s : PropSWrapper) : advances s s.
Proof. by repeat split. Qed.

Lemma advances_trans (s1 s2 s3 : PropSWrapper) :
  advances s1 s2 → advances s2 s3 → advances s1 s3.
Proof.
  intros (Ht1 & Hp1 & He1) (Ht2 & Hp2 & He2).
  split; [by etrans|]. split; lia.
Qed.

Ltac chain_advances :=
  repeat match goal with
  | H1 : advances ?a ?b, H2 : advances ?b ?c |- advances ?a _ =>
      let H := fresh in
      pose proof (advances_trans _ _ _ H1 H2) as H; clear H1 H2
  end;
  first [assumption | apply advances_refl].

Lemma in_table_advances (s s' : PropSWrapper) (sym : string) :
  advances s s' → in_table s sym → in_table s' sym.
Proof. intros (Ht & _) [i Hi]. exists i. by eapply lookup_weaken. Qed.

(** The table and the counters of [s'] extend those of [s], and the
    entities and predicates are the same. *)
Lemma keys_wf_advances (s s' : PropSWrapper) :
  keys_wf s → advances s s' → symbols_wf s' →
  entities s' = entities s → predicates s' = predicates s → keys_wf s'.
Proof.
  intros (_ & Hents & Hpreds) Hadv Hwf He Hp. split; [done|]. split.
  - intros e. rewrite He. intros H. by eapply in_table_advances, Hents.
  - intros p. rewrite Hp. intros H.
    destruct (Hpreds p H) as [Hin|(k & args & -> & Hk & Hrec)].
    + left. by eapply in_table_advances.
    + right. exists k, args. split; [done|]. split; [|by rewrite Hp].
      destruct Hadv as (_ & Hpc & _). lia.
Qed.

Lemma get_element_symbol_keys (gen : M string) (s s' : PropSWrapper) (i : Z)
    (sym : string) :
  is_gensym gen → keys_wf s →
  get_element_symbol i gen s = Ok (sym, s') →
  keys_wf s' ∧ advances s s' ∧ in_table s' sym.
Proof.
  intros Hgen HJ H.
  apply (get_element_symbol_Ok gen) in H
    as (Hsym & _ & He & Hp & _ & _ & Hcases); [|done].
  assert (Hin : in_table s' sym) by (by exists i).
  destruct Hcases as [[_ ->]|(Hnone & Ht & Hcnt)].
  { split; [done|]. split; [apply advances_refl|done]. }
  assert (Hadv : advances s s').
  { split; [rewrite Ht; by apply insert_subseteq|].
    destruct Hcnt as [(_ & _ & -> & ->)|(_ & _ & -> & ->)]; lia. }
  split; [|done]. apply (keys_wf_advances s); [done|done| |done|done].
  destruct HJ as (Hwf & _).
  destruct Hcnt as [(_ & -> & Hpc & Hec)|(_ & -> & Hec & Hpc)].
  - by eapply symbols_wf_insert_pred.
  - by eapply symbols_wf_insert_ent.
Qed.

Lemma keys_wf_fresh_pred (s : PropSWrapper) (k : nat) :
  keys_wf s → (pred_counter s < k)%nat →
  ¬ in_table s ("P" +:+ pretty k)
  ∧ predicates s !! ("P" +:+ pretty k) = None
  ∧ entities s !! ("P" +:+ pretty k) = None.
Proof.
  intros ((Hb & _) & Hents & Hpreds) Hk.
  assert (Hnot : ¬ in_table s ("P" +:+ pretty k)).
  { intros [i Hi]. destruct (Hb i _ Hi) as [(k' & Heq & _)|(k' & Heq & Hle)].
    - discriminate.
    - apply pred_symbol_inj in Heq. lia. }
  split; [done|]. split.
  - destruct (predicates s !! ("P" +:+ pretty k)) as [r|] eqn:E; [|done].
    destruct (Hpreds _ (mk_is_Some _ _ E)) as [Hin|(k' & args & Heq & Hle & _)];
      [done|].
    apply pred_symbol_inj in Heq. lia.
  - destruct (entities s !! ("P" +:+ pretty k)) as [r|] eqn:E; [|done].
    exfalso. apply Hnot, Hents. rewrite E. by eexists.
Qed.

Lemma keys_wf_insert_entity (s : PropSWrapper) (k : string) (v : Entity) :
  keys_wf s → in_table s k →
  keys_wf (set_entities (<[k := v]> (entities s)) s).
Proof.
  intros (Hwf & Hents & Hpreds) Hk. split; [done|]. split; [|done].
  intros e. simpl. rewrite lookup_insert. case_decide as He.
  - subst e. by intros _.
  - apply Hents.
Qed.

Lemma keys_wf_insert_predicate (s : PropSWrapper) (k : string) (v : Predicate) :
  keys_wf s → in_table s k →
  keys_wf (set_predicates (<[k := v]> (predicates s)) s).
Proof.
  intros (Hwf & Hents & Hpreds) Hk. split; [done|]. split; [done|].
  intros p. simpl. destruct (decide (p = k)) as [->|Hne]; [by left|].
  rewrite lookup_insert_ne by done. intros Hp.
  destruct (Hpreds p Hp) as [Hin|(j & args & -> & Hj & Hrec)]; [by left|].
  right. exists j, args. split; [done|]. split; [done|].
  simpl. by rewrite lookup_insert_ne.
Qed.

Lemma keys_wf_insert_implicit (s : PropSWrapper) (k : nat) (args : list string) :
  keys_wf s → (k ≤ pred_counter s)%nat →
  keys_wf (set_predicates (<["P" +:+ pretty k := create_implicit_proposition args]>
                             (predicates s)) s).
Proof.
  intros (Hwf & Hents & Hpreds) Hk. split; [done|]. split; [done|].
  intros p. simpl.
  destruct (decide (p = "P" +:+ pretty k)) as [->|Hne].
  - intros _. right. exists k, args.
    split; [done|]. split; [done|]. simpl. by rewrite lookup_insert_eq.
  - rewrite lookup_insert_ne by done. intros Hp.
    destruct (Hpreds p Hp) as [Hin|(j & args' & -> & Hj & Hrec)]; [by left|].
    right. exists j, args'. split; [done|]. split; [done|].
    simpl. by rewrite lookup_insert_ne.
Qed.

Lemma _gensym_pred_keys (s s' : PropSWrapper) (imp : string) :
  keys_wf s → _gensym_pred s = Ok (imp, s') →
  keys_wf s' ∧ advances s s'
  ∧ imp = "P" +:+ pretty (pred_counter s')
  ∧ predicates s' = predicates s
  ∧ predicates s !! imp = None.
Proof.
  intros HJ [= <- <-].
  destruct (keys_wf_fresh_pred s (pred_counter s + 1) HJ ltac:(lia))
    as (_ & Hnone & _).
  assert (Hadv : advances s (set_pred_counter (pred_counter s + 1) s)).
  { split; [done|]. simpl. split; lia. }
  split; [|done].
  apply (keys_wf_advances s); [done|done| |done|done].
  destruct HJ as ((Hb & Hinj) & _). split; [|exact Hinj]. intros i sym Hi.
  destruct (Hb i sym Hi) as [(k & -> & Hk)|(k & -> & Hk)].
  - left. by exists k.
  - right. exists k. split; [done|simpl; lia].
Qed.

Lemma argument_symbol_keys ns gen h s sym s' :
  is_gensym gen → keys_wf s →
  argument_symbol ns gen h s = Ok (sym, s') →
  keys_wf s' ∧ advances s s' ∧ in_table s' sym.
Proof.
  intros Hgen HJ H. unfold argument_symbol in H. inv_M.
  by eapply get_element_symbol_keys.
Qed.

Lemma template_element_keys ns gen h s el s' :
  is_gensym gen → keys_wf s →
  template_element ns gen h s = Ok (el, s') →
  keys_wf s' ∧ advances s s'.
Proof.
  intros Hgen HJ H. unfold template_element in H. inv_M.
  match goal with H : get_element_symbol _ _ _ = _ |- _ =>
    apply get_element_symbol_keys in H as (? & ? & _); [|done|done] end.
  done.
Qed.

Lemma mapM_keys {A B} (f : A → M B) (l : list A) s bs s' :
  (∀ x t b t', keys_wf t → f x t = Ok (b, t') → keys_wf t' ∧ advances t t') →
  keys_wf s → mapM f l s = Ok (bs, s') → keys_wf s' ∧ advances s s'.
Proof.
  intros Hf. revert s bs. induction l as [|x l IH]; intros s bs HJ H; simpl in H.
  - apply ret_Ok in H as [_ ->]. split; [done|apply advances_refl].
  - inv_M.
    match goal with H : f _ _ = _ |- _ => apply Hf in H as [HJ1 Ha1]; [|done] end.
    match goal with H : mapM _ _ _ = _ |- _ => apply IH in H as [HJ2 Ha2]; [|done] end.
    split; [done|]. by eapply advances_trans.
Qed.

Lemma mapM_template_element_keys ns gen l s els s' :
  is_gensym gen → keys_wf s →
  mapM (template_element ns gen) l s = Ok (els, s') →
  keys_wf s' ∧ advances s s'.
Proof.
  intros Hgen. apply mapM_keys. intros x t b t' HJ H.
  by eapply template_element_keys.
Qed.

Lemma mapM_argument_symbol_keys ns gen l s syms s' :
  is_gensym gen → keys_wf s →
  mapM (argument_symbol ns gen) l s = Ok (syms, s') →
  keys_wf s' ∧ advances s s'.
Proof.
  intros Hgen. apply mapM_keys. intros x t b t' HJ H.
  by destruct (argument_symbol_keys _ _ _ _ _ _ Hgen HJ H) as (? & ? & _).
Qed.

Lemma forM__keys {A} (f : A → M unit) (l : list A) s u s' :
  (∀ x t v t', x ∈ l → keys_wf t → f x t = Ok (v, t') →
               keys_wf t' ∧ advances t t') →
  keys_wf s → forM_ l f s = Ok (u, s') → keys_wf s' ∧ advances s s'.
Proof.
  revert s. induction l as [|x l IH]; intros s Hf HJ H; simpl in H.
  - apply ret_Ok in H as [_ ->]. split; [done|apply advances_refl].
  - inv_M.
    match goal with H : f _ _ = _ |- _ =>
      apply Hf in H as [HJ1 Ha1]; [|by left|done] end.
    match goal with H : forM_ _ _ _ = _ |- _ =>
      apply IH in H as [HJ2 Ha2]; [| |done] end.
    + split; [done|]. by eapply advances_trans.
    + intros y t v t' Hy. apply Hf. by right.
Qed.

Section Keys.

Variable recursion_limit : nat.

Variable hash_order : ∀ A : Type, list A → list A.
Variable spacy_ents : string → list Span.t.
Variable COPULA : string.
Hypothesis hash_order_yields_all : yields_all hash_order.

Lemma store_entity_keys ns n s u s' :
  keys_wf s → store_entity hash_order ns n s = Ok (u, s') →
  keys_wf s' ∧ advances s s'.
Proof.
  intros HJ H. unfold store_entity in H. inv_M.
  match goal with H : argument_symbol _ _ _ _ = _ |- _ =>
    apply argument_symbol_keys in H as (HJ1 & Ha1 & Hin); [|by right|done] end.
  split; [by apply keys_wf_insert_entity|exact Ha1].
Qed.

Lemma parse_predicate_keys h s u s' :
  keys_wf s → parse_predicate recursion_limit hash_order COPULA h s = Ok (u, s') →
  keys_wf s' ∧ advances s s'.
Proof.
  intros HJ H. unfold parse_predicate in H. inv_M.
  match goal with H : get_element_symbol _ _ _ = _ |- _ =>
    apply get_element_symbol_keys in H as (HJ1 & Ha1 & Hin1); [|by left|done] end.
  repeat match goal with
  | HJ : keys_wf ?t, H : mapM (template_element _ _) _ ?t = Ok _ |- _ =>
      apply mapM_template_element_keys in H as [? ?];
        [|first [by left|by right]|exact HJ]
  | HJ : keys_wf ?t, H : mapM (argument_symbol _ _) _ ?t = Ok _ |- _ =>
      apply mapM_argument_symbol_keys in H as [? ?];
        [|first [by left|by right]|exact HJ]
  end.
  match goal with H : forM_ _ _ _ = _ |- _ =>
    apply forM__keys in H as [HJ6 Ha6] end.
  - split; [done|].
    match type of Ha6 with advances (set_predicates _ ?t) _ =>
      change (advances t s') in Ha6 end.
    chain_advances.
  - intros y t v t' _. apply store_entity_keys.
  - apply keys_wf_insert_predicate; [done|].
    repeat match goal with
    | Ha : advances ?t _, Hin : in_table ?t ?sym |- _ =>
        apply (in_table_advances _ _ _ Ha) in Hin; clear Ha
    end.
    done.
Qed.

Lemma keys_in_table_insert (s : PropSWrapper) (m : gmap string Entity)
    (k : string) (v : Entity) :
  (∀ e, is_Some (m !! e) → in_table s e) → in_table s k →
  ∀ e, is_Some (<[k := v]> m !! e) → in_table s e.
Proof.
  intros Hm Hk e. rewrite lookup_insert. case_decide as He; [by subst|apply Hm].
Qed.

Lemma keys_in_table_advances (s s' : PropSWrapper) (m : gmap string Entity) :
  advances s s' → (∀ e, is_Some (m !! e) → in_table s e) →
  ∀ e, is_Some (m !! e) → in_table s' e.
Proof. intros Ha Hm e He. by eapply in_table_advances, Hm. Qed.

Ltac inv_M_branches :=
  repeat (inv_M;
    match goal with
    | H : (if ?b then _ else _) _ = Ok _ |- _ => destruct b eqn:?
    | H : (match ?x with _ => _ end) _ = Ok _ |- _ => destruct x eqn:?
    end);
  inv_M.

Ltac keys_step :=
  match goal with
  | HJ : keys_wf ?t, H : get_element_symbol _ _ ?t = Ok _ |- _ =>
      apply get_element_symbol_keys in H as (? & ? & ?);
        [|first [by left|by right]|exact HJ]
  end.

Lemma split_token_keys roots head_sym head indices loc tok s loc' s' :
  in_table s head_sym → keys_wf s →
  (∀ e, is_Some (ret_ loc !! e) → in_table s e) →
  split_token roots head_sym head indices loc tok s = Ok (loc', s') →
  keys_wf s' ∧ advances s s' ∧ (∀ e, is_Some (ret_ loc' !! e) → in_table s' e).
Proof.
  intros Hhead HJ Hret H. unfold split_token in H. inv_M_branches.
  all: repeat keys_step.
  - split; [done|]. split; [apply advances_refl|]. simpl.
    by apply keys_in_table_insert.
  - split; [done|]. split; [done|]. simpl.
    apply keys_in_table_insert; [|done]. by eapply keys_in_table_advances.
  - split; [done|]. split; [apply advances_refl|done].
  - split; [done|]. split; [apply advances_refl|done].
  - split; [|split].
    + apply keys_wf_insert_predicate; done.
    + simpl. chain_advances.
    + simpl. apply keys_in_table_insert.
      * eapply keys_in_table_advances; [|exact Hret]. chain_advances.
      * by eapply in_table_advances.
  - split; [done|]. split; [apply advances_refl|done].
  - match goal with H : _gensym_pred _ = Ok _ |- _ =>
      eapply _gensym_pred_keys in H as (HJ2 & Ha2 & -> & _); [|eassumption] end.
    split; [by apply keys_wf_insert_implicit|].
    split; [simpl; chain_advances|]. simpl.
    apply keys_in_table_insert.
    * eapply keys_in_table_advances; [|exact Hret]. chain_advances.
    * by eapply in_table_advances.
Qed.

Lemma foldM_split_token_keys roots head_sym head indices toks loc s loc' s' :
  in_table s head_sym → keys_wf s →
  (∀ e, is_Some (ret_ loc !! e) → in_table s e) →
  foldM (split_token roots head_sym head indices) loc toks s = Ok (loc', s') →
  keys_wf s' ∧ advances s s' ∧ (∀ e, is_Some (ret_ loc' !! e) → in_table s' e).
Proof.
  revert loc s. induction toks as [|tok toks IH]; intros loc s Hh HJ Hret H;
    simpl in H.
  - apply ret_Ok in H as [-> ->]. split; [done|]. split; [apply advances_refl|done].
  - inv_M.
    match goal with H : split_token _ _ _ _ _ _ _ = _ |- _ =>
      apply split_token_keys in H as (HJ1 & Ha1 & Hret1); [|done..] end.
    match goal with H : foldM _ _ _ _ = _ |- _ =>
      apply IH in H as (HJ2 & Ha2 & Hret2);
        [|by eapply in_table_advances|done|done] end.
    split; [done|]. split; [chain_advances|done].
Qed.

Lemma split_entity_keys heads roots by_tok loc item s loc' s' :
  in_table s item.1 → keys_wf s →
  (∀ e, is_Some (ret_ loc !! e) → in_table s e) →
  split_entity heads roots by_tok loc item s = Ok (loc', s') →
  keys_wf s' ∧ advances s s' ∧ (∀ e, is_Some (ret_ loc' !! e) → in_table s' e).
Proof.
  intros Hh HJ Hret H. unfold split_entity in H. inv_M_branches.
  - match goal with H : foldM _ _ _ _ = _ |- _ =>
      apply foldM_split_token_keys in H; [done|done|done|] end.
    simpl. by apply keys_in_table_insert.
  - match goal with H : foldM _ _ _ _ = _ |- _ =>
      by apply foldM_split_token_keys in H end.
Qed.

Lemma foldM_split_entity_keys heads roots by_tok items loc s loc' s' :
  (∀ item, item ∈ items → in_table s item.1) → keys_wf s →
  (∀ e, is_Some (ret_ loc !! e) → in_table s e) →
  foldM (split_entity heads roots by_tok) loc items s = Ok (loc', s') →
  keys_wf s' ∧ advances s s' ∧ (∀ e, is_Some (ret_ loc' !! e) → in_table s' e).
Proof.
  revert loc s. induction items as [|item items IH]; intros loc s Hh HJ Hret H;
    simpl in H.
  - apply ret_Ok in H as [-> ->]. split; [done|]. split; [apply advances_refl|done].
  - inv_M.
    match goal with H : split_entity _ _ _ _ _ _ = _ |- _ =>
      apply split_entity_keys in H as (HJ1 & Ha1 & Hret1);
        [|apply Hh; by left|done|done] end.
    match goal with H : foldM _ _ _ _ = _ |- _ =>
      apply IH in H as (HJ2 & Ha2 & Hret2); [| |done|done] end.
    + split; [done|]. split; [chain_advances|done].
    + intros it Hit. eapply in_table_advances; [exact Ha1|]. apply Hh. by right.
Qed.

Lemma _split_entities_keys s ents s' :
  keys_wf s →
  _split_entities hash_order spacy_ents s = Ok (ents, s') →
  keys_wf (set_entities ents s') ∧ advances s s'.
Proof.
  intros HJ H. unfold _split_entities, _get_named_entities in H. inv_M.
  simpl in *.
  match goal with H : foldM _ _ _ _ = _ |- _ =>
    apply foldM_split_entity_keys in H as ((Hwf & _ & Hpreds) & Ha & Hret) end.
  - split; [|exact Ha]. split; [exact Hwf|]. split; [exact Hret|exact Hpreds].
  - intros [sym ent] Hin. destruct HJ as (_ & Hents & _). apply Hents.
    rewrite (hash_order_yields_all _ _) in Hin.
    apply elem_of_map_to_list in Hin. by eexists.
  - exact HJ.
  - intros e He. simpl in He. rewrite lookup_empty in He. by destruct He.
Qed.

Lemma add_props_node_to_entities_keys ns h s u s' :
  keys_wf s → add_props_node_to_entities hash_order ns h s = Ok (u, s') →
  keys_wf s' ∧ advances s s' ∧ predicates s' = predicates s.
Proof.
  intros HJ H. unfold add_props_node_to_entities, get_entity_symbol in H. inv_M.
  repeat match goal with
  | H : get_element_symbol _ _ ?t = Ok _ |- _ =>
      pose proof (get_element_symbol_allocates _ _ _ _ _ is_gensym_ent H)
        as [(_ & _ & _ & ? & _) _];
      apply get_element_symbol_keys in H as (? & ? & ?); [|by right|done]
  end.
  split; [by apply keys_wf_insert_entity|]. split; [simpl; chain_advances|].
  simpl. congruence.
Qed.

Lemma mapM_entity_symbols_keys ns l s syms s' :
  keys_wf s →
  mapM (λ h, (i <- lift (handle_ind ns h);; get_entity_symbol i)%M) l s
  = Ok (syms, s') →
  keys_wf s' ∧ advances s s' ∧ predicates s' = predicates s.
Proof.
  intros HJ H. split; [|split].
  - eapply (mapM_keys _ l s syms s'); [|done|done].
    intros x t b t' HJt Hx. unfold get_entity_symbol in Hx. inv_M.
    by destruct (get_element_symbol_keys _ _ _ _ _ is_gensym_ent HJt
                   ltac:(eassumption)) as (? & ? & _).
  - eapply (mapM_keys _ l s syms s'); [|done|done].
    intros x t b t' HJt Hx. unfold get_entity_symbol in Hx. inv_M.
    by destruct (get_element_symbol_keys _ _ _ _ _ is_gensym_ent HJt
                   ltac:(eassumption)) as (? & ? & _).
  - by destruct (mapM_entity_symbols _ _ _ _ _ H)
      as [((_ & _ & _ & ? & _) & _) _].
Qed.

Lemma add_modifier_keys ns ent modifier s u s' :
  keys_wf s → add_modifier hash_order ns ent modifier s = Ok (u, s') →
  keys_wf s' ∧ advances s s'
  ∧ ∃ imp_sym args,
      predicates s !! imp_sym = None
      ∧ predicates s' = <[imp_sym := create_implicit_proposition args]> (predicates s).
Proof.
  intros HJ H. unfold add_modifier in H. inv_M.
  match goal with H : add_props_node_to_entities _ _ _ _ = _ |- _ =>
    apply add_props_node_to_entities_keys in H as (HJ1 & Ha1 & Hp1); [|done] end.
  match goal with H : _gensym_pred _ = Ok _ |- _ =>
    apply _gensym_pred_keys in H as (HJ2 & Ha2 & Himp & Hp2 & Hnone); [|done] end.
  match goal with H : mapM _ _ _ = _ |- _ =>
    apply mapM_entity_symbols_keys in H as (HJ3 & Ha3 & Hp3); [|done] end.
  subst. split; [|split].
  - apply keys_wf_insert_implicit; [done|]. destruct Ha3 as (_ & ? & _). lia.
  - simpl. chain_advances.
  - eexists _, _. split; [by rewrite <- Hp1|]. simpl.
    rewrite Hp3, Hp2, Hp1. reflexivity.
Qed.

Lemma add_modifiers_as_implicits_keys s u s' :
  keys_wf s → add_modifiers_as_implicits recursion_limit hash_order COPULA s = Ok (u, s') →
  keys_wf s' ∧ advances s s'.
Proof.
  intros HJ H. unfold add_modifiers_as_implicits in H. inv_M.
  match goal with H : forM_ _ _ _ = _ |- _ =>
    eapply forM__keys; [|exact HJ|exact H] end.
  intros ent t v t' _ HJt Hstep. unfold get_entity_symbol in Hstep.
  inv_M_branches.
  - keys_step.
    match goal with H : forM_ _ _ _ = _ |- _ =>
      eapply forM__keys in H as [HJ2 Ha2]; [| |eassumption] end.
    + split; [done|]. chain_advances.
    + intros m t1 v1 t2 _ HJ1 Hm.
      by destruct (add_modifier_keys _ _ _ _ _ _ HJ1 Hm) as (? & ? & _).
  - keys_step. done.
  - split; [done|apply advances_refl].
Qed.

Lemma keys_wf_loaded (g : Graph) (s : PropSWrapper) : keys_wf (loaded g s).
Proof.
  split; [|split].
  - split; [intros i sym Hi|intros i j sym Hi]; cbn in Hi;
      by rewrite lookup_empty in Hi.
  - intros e [x He]. cbn in He. by rewrite lookup_empty in He.
  - intros p [x Hp]. cbn in Hp. by rewrite lookup_empty in Hp.
Qed.

Lemma parse_selected_keys selected s u s' :
  keys_wf s →
  parse_selected recursion_limit hash_order spacy_ents COPULA selected s = Ok (u, s') →
  keys_wf s'.
Proof.
  intros HJ H. unfold parse_selected in H. inv_M.
  match goal with H : forM_ _ _ _ = _ |- _ =>
    eapply forM__keys in H as [HJ1 _]; [| |exact HJ] end.
  2: { intros h t v t' _. apply parse_predicate_keys. }
  match goal with H : _split_entities _ _ _ = _ |- _ =>
    apply _split_entities_keys in H as [HJ2 _]; [|done] end.
  match goal with H : add_modifiers_as_implicits recursion_limit _ _ _ = _ |- _ =>
    by apply add_modifiers_as_implicits_keys in H as [HJ3 _] end.
Qed.

Variable parseSentences : string → list (Graph * string).

(** X11. After [parse], the keys of the record are symbols that the
    instance generated: no two tokens have the same symbol, every symbol
    of the table is [A] or [P] followed by a number up to its counter,
    every key of the entities is the symbol of a token, and every key of the
    predicates is the symbol of a token or the key of an implicit
    proposition. *)
Theorem parse_record_keys (sent : string) (s s' : PropSWrapper) (u : unit) :
  parse recursion_limit hash_order parseSentences spacy_ents COPULA sent s = Ok (u, s') →
  (∀ i j sym, tok_ind_to_symbol s' !! i = Some sym →
              tok_ind_to_symbol s' !! j = Some sym → i = j)
  ∧ (∀ i sym, tok_ind_to_symbol s' !! i = Some sym →
       (∃ k, sym = "A" +:+ pretty k ∧ (k ≤ ent_counter s')%nat)
       ∨ (∃ k, sym = "P" +:+ pretty k ∧ (k ≤ pred_counter s')%nat))
  ∧ (∀ e, is_Some (Entities (get_okr s') !! e) → in_table s' e)
  ∧ (∀ p record, Predicates (get_okr s') !! p = Some record →
       in_table s' p
       ∨ ∃ k args, p = "P" +:+ pretty k ∧ (k ≤ pred_counter s')%nat
                   ∧ record = create_implicit_proposition args).
Proof.
  intros H.
  destruct (py_index (parseSentences sent) 0) as [[g t]|e] eqn:Hg.
  2: { by rewrite (parse_no_graph _ _ _ _ _ _ _ e Hg) in H. }
  rewrite (parse_loaded _ _ _ _ _ _ _ g t Hg) in H.
  apply parse_selected_keys in H as ((Hb & Hinj) & Hents & Hpreds);
    [|apply keys_wf_loaded].
  split; [exact Hinj|]. split; [exact Hb|]. split; [exact Hents|].
  intros p record Hp. simpl in Hp.
  destruct (Hpreds p) as [Hin|(k & args & -> & Hk & Hrec)]; [by eexists|by left|].
  right. exists k, args. split; [done|]. split; [done|]. congruence.
Qed.

End Keys.

Lemma parse_record_keys_witness :
  yields_all given_order
  ∧ york_parse (blank_wrapper false false false) = Ok (tt, york_final)
  ∧ (∀ i j sym, tok_ind_to_symbol york_final !! i = Some sym →
                tok_ind_to_symbol york_final !! j = Some sym → i = j)
  ∧ (∀ i sym, tok_ind_to_symbol york_final !! i = Some sym →
       (∃ k, sym = "A" +:+ pretty k ∧ (k ≤ ent_counter york_final)%nat)
       ∨ (∃ k, sym = "P" +:+ pretty k ∧ (k ≤ pred_counter york_final)%nat))
  ∧ (∀ e, is_Some (Entities (get_okr york_final) !! e) → in_table york_final e)
  ∧ (∀ p record, Predicates (get_okr york_final) !! p = Some record →
       in_table york_final p
       ∨ ∃ k args, p = "P" +:+ pretty k ∧ (k ≤ pred_counter york_final)%nat
                   ∧ record = create_implicit_proposition args).
Proof.
  assert (Hall : yields_all given_order) by (intros A l; reflexivity).
  assert (Hrun : parse some_limit given_order (λ _, [(york_graph, "")]) (λ _, york_ents)
                   "SameAs" york_sentence (blank_wrapper false false false)
                 = Ok (tt, york_final))
    by (vm_compute; reflexivity).
  split; [exact Hall|]. split; [exact Hrun|].
  exact (parse_record_keys some_limit given_order (λ _, york_ents) "SameAs" Hall
           (λ _, [(york_graph, "")]) york_sentence
           (blank_wrapper false false false) york_final tt Hrun).
Defined.

(** ** New symbols *)

Lemma keys_wf_fresh_ent (s : PropSWrapper) (k : nat) :
  keys_wf s → (ent_counter s < k)%nat → unused s ("A" +:+ pretty k).
Proof.
  intros ((Hb & _) & Hents & Hpreds) Hk.
  assert (Hnot : ¬ in_table s ("A" +:+ pretty k)).
  { intros [i Hi]. destruct (Hb i _ Hi) as [(k' & Heq & Hle)|(k' & Heq & _)].
    - apply ent_symbol_inj in Heq. lia.
    - discriminate. }
  split; [done|]. split.
  - destruct (entities s !! ("A" +:+ pretty k)) as [r|] eqn:E; [|done].
    exfalso. apply Hnot, Hents. rewrite E. by eexists.
  - destruct (predicates s !! ("A" +:+ pretty k)) as [r|] eqn:E; [|done].
    destruct (Hpreds ("A" +:+ pretty k)) as [Hin|(k' & args & Heq & _)];
      [by rewrite E; eexists|done|discriminate].
Qed.

Lemma _gensym_ent_keys (s s' : PropSWrapper) (sym : string) :
  keys_wf s → _gensym_ent s = Ok (sym, s') → keys_wf s'.
Proof.
  intros HJ [= <- <-].
  apply (keys_wf_advances s); [done| |  |done|done].
  - split; [done|]. simpl. split; lia.
  - destruct HJ as ((Hb & Hinj) & _). split; [|exact Hinj]. intros i sym Hi.
    destruct (Hb i sym Hi) as [(k & -> & Hk)|(k & -> & Hk)].
    + left. exists k. split; [done|simpl; lia].
    + right. by exists k.
Qed.

(** X12. The two generators return symbols that are new: in a state in
    which the keys of the record are generated symbols, which [parse]
    maintains, the symbol that [_gensym_pred] or [_gensym_ent] returns is
    bound to no token and is no key of the entities or of the predicates,
    and the state it leaves is again such a state. *)
Theorem gensym_unique (s : PropSWrapper) :
  keys_wf s →
  ∃ p sp a sa,
    _gensym_pred s = Ok (p, sp) ∧ unused s p ∧ keys_wf sp
    ∧ _gensym_ent s = Ok (a, sa) ∧ unused s a ∧ keys_wf sa
    ∧ p ≠ a.
Proof.
  intros HJ. eexists _, _, _, _.
  split; [reflexivity|]. split; [|split; [|split; [reflexivity|split; [|split]]]].
  - destruct (keys_wf_fresh_pred s (pred_counter s + 1) HJ ltac:(lia))
      as (? & ? & ?).
    by repeat split.
  - by destruct (_gensym_pred_keys s _ _ HJ eq_refl) as (? & _).
  - apply (keys_wf_fresh_ent s (ent_counter s + 1)); [done|lia].
  - by apply (_gensym_ent_keys s _ _ HJ eq_refl).
  - discriminate.
Qed.

Lemma gensym_unique_witness :
  keys_wf york_after_see
  ∧ ∃ p sp a sa,
      _gensym_pred york_after_see = Ok (p, sp) ∧ unused york_after_see p
      ∧ keys_wf sp
      ∧ _gensym_ent york_after_see = Ok (a, sa) ∧ unused york_after_see a
      ∧ keys_wf sa
      ∧ p ≠ a.
Proof.
  assert (Hrun : parse_predicate some_limit given_order "SameAs" 0 york_loaded
                 = Ok (tt, york_after_see)) by (vm_compute; reflexivity).
  assert (HJ : keys_wf york_after_see).
  { by destruct (parse_predicate_keys some_limit given_order "SameAs" 0 york_loaded tt
                   york_after_see (keys_wf_loaded _ _) Hrun). }
  split; [exact HJ|]. exact (gensym_unique york_after_see HJ).
Defined.

(** ** The modifiers of an entity *)


Section Modifier.

Variable recursion_limit : nat.

Variable hash_order : ∀ A : Type, list A → list A.



End Modifier.


(** ** The kinds of predicates of a record *)

Lemma predicate_kinds_insert recursion_limit g preds k v :
  predicate_kinds recursion_limit g preds →
  of_graph_node recursion_limit g v ∨ of_preposition v ∨ of_implicit v →
  predicate_kinds recursion_limit g (<[k := v]> preds).
Proof.
  intros HK Hv p record. rewrite lookup_insert. case_decide.
  - by intros [= <-].
  - apply HK.
Qed.

Lemma mapM_length {A B} (f : A → M B) (l : list A) s bs s' :
  mapM f l s = Ok (bs, s') → length bs = length l.
Proof.
  revert s bs. induction l as [|x l IH]; intros s bs H; simpl in H.
  - by apply ret_Ok in H as [-> _].
  - inv_M. simpl. f_equal. by eapply IH.
Qed.

Section Kinds.

Variable recursion_limit : nat.

Variable hash_order : ∀ A : Type, list A → list A.
Variable spacy_ents : string → list Span.t.
Variable COPULA : string.

Lemma parse_predicate_kinds g pnodes h s u s' :
  graph s = Some g → dep_tree s = Some (dep_tree_values g) →
  predicate_nodes s = Some pnodes →
  predicate_kinds recursion_limit g (predicates s) →
  parse_predicate recursion_limit hash_order COPULA h s = Ok (u, s') →
  predicate_kinds recursion_limit g (predicates s').
Proof.
  intros Hg Ht Hp HK H.
  destruct (parse_predicate_Ok _ _ _ h s u s' g _ pnodes Hg Ht Hp H)
    as (n & anchor & bare & pind & psym & nbrs & dep_entities & s1 & pred_els
        & s2 & ent_els & s3 & ent_args & s4 & pred_args & s5
        & Hn & Hisp & Hanchor & Hbare & Hpind & Hpsym & Hnbrs & Hents
        & Hpe & Hee & Hea & Hpa & Hloop).
  apply (get_element_symbol_allocates _gensym_pred) in Hpsym as [Hal1 _];
    [|by left].
  apply mapM_template_element_allocates in Hpe as [Hal2 _]; [|by left].
  apply mapM_template_element_allocates in Hee as [Hal3 _]; [|by right].
  apply mapM_argument_symbol_allocates in Hea as [Hal4 _]; [|by right].
  apply mapM_argument_symbol_allocates in Hpa as [Hal5 _]; [|by left].
  apply forM__store_entity_keeps in Hloop as (_ & _ & Hpreds).
  rewrite Hpreds. simpl.
  destruct Hal1 as (_ & _ & _ & Hp1 & _), Hal2 as (_ & _ & _ & Hp2 & _),
    Hal3 as (_ & _ & _ & Hp3 & _), Hal4 as (_ & _ & _ & Hp4 & _),
    Hal5 as (_ & _ & _ & Hp5 & _).
  rewrite Hp5, Hp4, Hp3, Hp2, Hp1.
  apply predicate_kinds_insert; [done|]. left.
  by eexists h, n, anchor, bare, _, _.
Qed.

Ltac inv_M_branches :=
  repeat (inv_M;
    match goal with
    | H : (if ?b then _ else _) _ = Ok _ |- _ => destruct b eqn:?
    | H : (match ?x with _ => _ end) _ = Ok _ |- _ => destruct x eqn:?
    end);
  inv_M.

Ltac same_predicates :=
  repeat match goal with
  | H : get_element_symbol _ _gensym_ent _ = Ok _ |- _ =>
      apply (get_element_symbol_allocates _ _ _ _ _ is_gensym_ent) in H
        as [(_ & _ & _ & ? & _) _]
  | H : get_element_symbol _ _gensym_pred _ = Ok _ |- _ =>
      apply (get_element_symbol_allocates _ _ _ _ _ is_gensym_pred) in H
        as [(_ & _ & _ & ? & _) _]
  | H : _gensym_pred _ = Ok _ |- _ =>
      apply _gensym_pred_grows in H as ((_ & _ & _ & ? & _) & _)
  end.

Ltac rewrite_predicates :=
  repeat match goal with
  | H : predicates ?a = predicates ?b |- context [predicates ?a] =>
      rewrite H; clear H
  end.

Lemma split_token_kinds g roots head_sym head indices loc tok s loc' s' :
  predicate_kinds recursion_limit g (predicates s) →
  split_token roots head_sym head indices loc tok s = Ok (loc', s') →
  predicate_kinds recursion_limit g (predicates s').
Proof.
  intros HK H. unfold split_token in H. inv_M_branches.
  all: same_predicates; simpl; try done.
  all: rewrite_predicates; try done.
  - refine (predicate_kinds_insert _ _ _ _ _ HK _).
    right. left. by eexists _, _, _, _.
  - refine (predicate_kinds_insert _ _ _ _ _ HK _).
    right. right.
    match goal with |- context [bool_decide (?a ≤ ?b)%Z] =>
      destruct (bool_decide (a ≤ b)%Z) end; by eexists _, _.
Qed.

Lemma split_entity_kinds g heads roots by_tok loc item s loc' s' :
  predicate_kinds recursion_limit g (predicates s) →
  split_entity heads roots by_tok loc item s = Ok (loc', s') →
  predicate_kinds recursion_limit g (predicates s').
Proof.
  intros HK H. unfold split_entity in H. inv_M_branches.
  all: match goal with H : foldM _ _ _ _ = _ |- _ =>
    eapply (hoare_foldM (λ _ t, predicate_kinds recursion_limit g (predicates t)));
      [|exact HK|exact H] end.
  all: intros acc tok _ t acc' t' HKt Ht; by eapply split_token_kinds.
Qed.

Lemma _split_entities_kinds g s ents s' :
  predicate_kinds recursion_limit g (predicates s) →
  _split_entities hash_order spacy_ents s = Ok (ents, s') →
  predicate_kinds recursion_limit g (predicates s').
Proof.
  intros HK H. unfold _split_entities, _get_named_entities in H. inv_M.
  simpl in *.
  match goal with H : foldM _ _ _ _ = _ |- _ =>
    eapply (hoare_foldM (λ _ t, predicate_kinds recursion_limit g (predicates t)));
      [| |exact H] end; [|exact HK].
  intros acc item _ t acc' t' HKt Ht. by eapply split_entity_kinds.
Qed.

Lemma add_modifier_kinds g ns ent modifier s u s' :
  predicate_kinds recursion_limit g (predicates s) →
  add_modifier hash_order ns ent modifier s = Ok (u, s') →
  predicate_kinds recursion_limit g (predicates s').
Proof.
  intros HK H. unfold add_modifier in H. inv_M.
  match goal with H : add_props_node_to_entities _ _ _ _ = _ |- _ =>
    unfold add_props_node_to_entities, get_entity_symbol in H end.
  inv_M.
  match goal with H : mapM _ _ _ = Ok (?args, _) |- _ =>
    pose proof (mapM_length _ _ _ _ _ H) as Hlen;
    apply mapM_entity_symbols in H as [((_ & _ & _ & ? & _) & _) _] end.
  match goal with H : ordered_pair _ _ _ = Ok ?o |- _ =>
    assert (length o = 2%nat) as Ho end.
  { match goal with H : ordered_pair _ _ _ = Ok _ |- _ =>
      unfold ordered_pair in H;
      apply rbind_Ok in H as (i & _ & H);
      apply rbind_Ok in H as (j & _ & [= <-]) end.
    by destruct (bool_decide (i ≤ j)%Z). }
  same_predicates. simpl in *. rewrite_predicates.
  refine (predicate_kinds_insert _ _ _ _ _ HK _). right. right.
  rewrite Ho in Hlen.
  match type of Hlen with length ?args = _ =>
    destruct args as [|a [|b [|c args']]]; try done end.
  by exists a, b.
Qed.

Lemma add_modifiers_as_implicits_kinds g s u s' :
  predicate_kinds recursion_limit g (predicates s) →
  add_modifiers_as_implicits recursion_limit hash_order COPULA s = Ok (u, s') →
  predicate_kinds recursion_limit g (predicates s').
Proof.
  intros HK H. unfold add_modifiers_as_implicits in H. inv_M.
  match goal with H : forM_ _ _ _ = _ |- _ =>
    eapply (hoare_forM_ (λ t, predicate_kinds recursion_limit g (predicates t)));
      [|exact HK|exact H] end.
  intros ent _ t v t' HKt Hstep. unfold get_entity_symbol in Hstep.
  inv_M_branches.
  all: same_predicates; rewrite_predicates; try done.
  match goal with H : forM_ _ _ _ = _ |- _ =>
    eapply (hoare_forM_ (λ t, predicate_kinds recursion_limit g (predicates t)));
      [| |exact H] end.
  - intros m _ t1 v1 t2 HK1 Hm. by eapply add_modifier_kinds.
  - by rewrite_predicates.
Qed.

Variable parseSentences : string → list (Graph * string).

(** X14. Every predicate of the record that [parse] leaves is of one of
    three kinds: the record of a predicate node of the graph, with the
    dependency node and the multiword predicate of that node; the
    predicate made of a preposition within an entity; or an implicit
    proposition over two symbols. *)
Theorem parse_predicate_kinds_of (sent : string) (s s' : PropSWrapper) (u : unit)
    (g : Graph) (t : string) :
  py_index (parseSentences sent) 0 = Ok (g, t) →
  parse recursion_limit hash_order parseSentences spacy_ents COPULA sent s = Ok (u, s') →
  ∀ p record, Predicates (get_okr s') !! p = Some record →
    of_graph_node recursion_limit g record ∨ of_preposition record ∨ of_implicit record.
Proof.
  intros Hg H. rewrite (parse_loaded _ _ _ _ _ _ _ g t Hg) in H.
  unfold parse_selected in H. inv_M.
  match goal with H : forM_ _ _ _ = _ |- _ =>
    apply (hoare_forM_ (λ t, graph t = Some g
                             ∧ dep_tree t = Some (dep_tree_values g)
                             ∧ predicate_nodes t = Some (selected_of s g)
                             ∧ predicate_kinds recursion_limit g (predicates t))) in H
      as (_ & _ & _ & HK1) end.
  - match goal with H : _split_entities _ _ _ = _ |- _ =>
      apply (_split_entities_kinds g) in H; [|exact HK1] end.
    match goal with H : add_modifiers_as_implicits recursion_limit _ _ _ = _ |- _ =>
      by apply (add_modifiers_as_implicits_kinds g) in H end.
  - intros h _ t1 v t2 (Hg1 & Ht1 & Hp1 & HK1) Hstep.
    pose proof (frame_parse_predicate _ _ _ _ _ _ _ Hstep)
      as (_ & _ & _ & Hg2 & Ht2 & _ & Hp2).
    split; [congruence|]. split; [congruence|]. split; [congruence|].
    by eapply parse_predicate_kinds.
  - repeat split. intros p record Hp. cbn in Hp. by rewrite lookup_empty in Hp.
Qed.

End Kinds.

Lemma parse_predicate_kinds_of_witness :
  py_index [(york_graph, "")] 0 = Ok (york_graph, "")
  ∧ york_parse (blank_wrapper false false false) = Ok (tt, york_final)
  ∧ ∀ p record, Predicates (get_okr york_final) !! p = Some record →
      of_graph_node some_limit york_graph record ∨ of_preposition record
      ∨ of_implicit record.
Proof.
  assert (Hg : py_index [(york_graph, "")] 0 = Ok (york_graph, ""))
    by reflexivity.
  assert (Hrun : parse some_limit given_order (λ _, [(york_graph, "")]) (λ _, york_ents)
                   "SameAs" york_sentence (blank_wrapper false false false)
                 = Ok (tt, york_final))
    by (vm_compute; reflexivity).
  split; [exact Hg|]. split; [exact Hrun|].
  exact (parse_predicate_kinds_of some_limit given_order (λ _, york_ents) "SameAs"
           (λ _, [(york_graph, "")]) york_sentence
           (blank_wrapper false false false) york_final tt york_graph "" Hg Hrun).
Defined.

(** ** The kinds of entities of a record *)


Section EntityKinds.

Variable recursion_limit : nat.

Variable hash_order : ∀ A : Type, list A → list A.
Variable spacy_ents : string → list Span.t.
Variable COPULA : string.

Ltac inv_M_branches :=
  repeat (inv_M;
    match goal with
    | H : (if ?b then _ else _) _ = Ok _ |- _ => destruct b eqn:?
    | H : (match ?x with _ => _ end) _ = Ok _ |- _ => destruct x eqn:?
    end);
  inv_M.









Variable parseSentences : string → list (Graph * string).


End EntityKinds.


(** ** The exceptions of [parse] *)

Lemma sound_Ok {A} (a : A) : sound (Ok a).
Proof. by intros e. Qed.

Lemma sound_Raise {A} (e : exn) : ¬ internal_error e → sound (@Raise A e).
Proof. by intros He e' [= <-]. Qed.

Lemma sound_rbind {A B} (m : result A) (f : A → result B) :
  sound m → (∀ a, m = Ok a → sound (f a)) → sound (m ≫= f).
Proof.
  intros Hm Hf e. destruct m as [a|e']; simpl.
  - exact (Hf a eq_refl e).
  - intros [= <-]. by apply (Hm e').
Qed.

Lemma sound_mapM_r {A B} (f : A → result B) (l : list A) :
  (∀ x, x ∈ l → sound (f x)) → sound (mapM_r f l).
Proof.
  induction l as [|x l IH]; intros Hf; simpl; [apply sound_Ok|].
  apply sound_rbind; [apply Hf; by left|]. intros y _.
  apply sound_rbind; [apply IH; intros z Hz; apply Hf; by right|].
  intros ys _. apply sound_Ok.
Qed.

Lemma sound_filterM_r {A} (f : A → result bool) (l : list A) :
  (∀ x, x ∈ l → sound (f x)) → sound (filterM_r f l).
Proof.
  induction l as [|x l IH]; intros Hf; simpl; [apply sound_Ok|].
  apply sound_rbind; [apply Hf; by left|]. intros y _.
  apply sound_rbind; [apply IH; intros z Hz; apply Hf; by right|].
  intros ys _. apply sound_Ok.
Qed.

Ltac not_internal := intros [?|?]; discriminate.

Lemma sound_deref {A} (l : list A) (h : nat) : sound (deref l h).
Proof.
  unfold deref. destruct (l !! h); [apply sound_Ok|].
  apply sound_Raise. not_internal.
Qed.

Lemma sound_py_index {A} (l : list A) (i : Z) : sound (py_index l i).
Proof.
  unfold py_index. simpl. case_bool_decide; [|apply sound_Raise; not_internal].
  destruct (l !! _); [apply sound_Ok|apply sound_Raise; not_internal].
Qed.

Lemma sound_py_min (l : list Z) : sound (py_min l).
Proof. destruct l; [apply sound_Raise; not_internal|apply sound_Ok]. Qed.

Lemma sound_py_max (l : list Z) : sound (py_max l).
Proof. destruct l; [apply sound_Raise; not_internal|apply sound_Ok]. Qed.

Lemma sound_get_node_ind (n : node) : sound (get_node_ind n).
Proof.
  unfold get_node_ind, try_except, node_id.
  destruct n as [p|d].
  - destruct (if Props.isPredicate p then _ else _); [apply sound_Ok|].
    destruct (Props.id p); [apply sound_Ok|apply sound_Raise; not_internal].
  - apply sound_Ok.
Qed.

Lemma sound_handle_ind (ns : list Props.t) (h : nat) : sound (handle_ind ns h).
Proof.
  unfold handle_ind. apply sound_rbind; [apply sound_deref|].
  intros n _. apply sound_get_node_ind.
Qed.

Lemma sound_py_min_by_go {A} (key : A → result nat) (best : A) (kbest : nat)
    (l : list A) :
  (∀ x, sound (key x)) → sound (py_min_by_go key best kbest l).
Proof.
  intros Hk. revert best kbest. induction l as [|y l IH]; intros best kbest; simpl.
  - apply sound_Ok.
  - apply sound_rbind; [apply Hk|]. intros ky _. case_bool_decide; apply IH.
Qed.

Lemma sound_py_min_by {A} (key : A → result nat) (l : list A) :
  (∀ x, sound (key x)) → sound (py_min_by key l).
Proof.
  intros Hk. destruct l as [|x l]; simpl; [apply sound_Raise; not_internal|].
  apply sound_rbind; [apply Hk|]. intros kx _. by apply sound_py_min_by_go.
Qed.

Lemma sound_get_dep_height (recursion_limit : nat) (tree : list Dep.t) (d : Dep.t) :
  sound (get_dep_height recursion_limit tree d).
Proof.
  unfold get_dep_height. generalize recursion_limit. intros fuel. revert d.
  induction fuel as [|fuel IH]; intros d; simpl; [apply sound_Raise; not_internal|].
  destruct (Dep.parent d); [|apply sound_Ok].
  apply sound_rbind; [apply sound_deref|]. intros p _.
  apply sound_rbind; [apply IH|]. intros r _. apply sound_Ok.
Qed.

Lemma sound_get_dep_node (recursion_limit : nat) (tree : list Dep.t) (n : Props.t) :
  sound (get_dep_node recursion_limit tree n).
Proof. apply sound_py_min_by. apply sound_get_dep_height. Qed.

Lemma sound_is_props_dependent ns n i : sound (is_props_dependent ns n i).
Proof.
  unfold is_props_dependent. apply sound_rbind.
  - apply sound_mapM_r. intros x _. apply sound_deref.
  - intros l _. apply sound_Ok.
Qed.

Lemma sound_get_mwp (recursion_limit : nat) tree ns n :
  Props.isPredicate n = true → sound (get_mwp recursion_limit tree ns n).
Proof.
  intros Hp. unfold get_mwp. rewrite Hp. simpl.
  apply sound_rbind; [apply sound_get_dep_node|]. intros d _.
  apply sound_rbind; [apply sound_mapM_r; intros x _; apply sound_deref|].
  intros cs _. apply sound_rbind; [|intros aux _; apply sound_Ok].
  apply sound_filterM_r. intros c _. case_bool_decide; [|apply sound_Ok].
  apply sound_rbind; [apply sound_is_props_dependent|]. intros b _. apply sound_Ok.
Qed.

Lemma sound_get_props_neighbors (recursion_limit : nat) hash_order COPULA ns h :
  sound (get_props_neighbors recursion_limit hash_order COPULA ns h).
Proof.
  unfold get_props_neighbors. generalize recursion_limit. intros fuel. revert h.
  induction fuel as [|fuel IH]; intros h; simpl; [apply sound_Raise; not_internal|].
  apply sound_rbind; [apply sound_deref|]. intros n _.
  apply sound_rbind.
  - apply sound_filterM_r. intros x _.
    apply sound_rbind; [apply sound_deref|]. intros nb _.
    destruct (Props.is_implicit nb); [|apply sound_Ok].
    apply sound_rbind; [apply sound_py_index|]. intros w _. apply sound_Ok.
  - intros sameAs _. apply sound_rbind; [|intros across _; apply sound_Ok].
    apply sound_mapM_r. intros x _.
    apply sound_rbind; [apply IH|]. intros s _. apply sound_Ok.
Qed.

Lemma sound_dep_entities_of hash_order ns pnodes nbrs :
  sound (dep_entities_of hash_order ns pnodes nbrs).
Proof.
  unfold dep_entities_of. apply sound_filterM_r. intros n _.
  case_bool_decide; [apply sound_Ok|].
  apply sound_rbind; [apply sound_deref|]. intros nd _. apply sound_Ok.
Qed.

Lemma sound_ordered_pair ns ent modifier : sound (ordered_pair ns ent modifier).
Proof.
  unfold ordered_pair. apply sound_rbind; [apply sound_handle_ind|]. intros i _.
  apply sound_rbind; [apply sound_handle_ind|]. intros j _. apply sound_Ok.
Qed.

Lemma sound_is_modifier ns all_NEs h : sound (is_modifier ns all_NEs h).
Proof.
  unfold is_modifier. apply sound_rbind; [apply sound_deref|]. intros m _.
  destruct (Props.isPredicate m); [apply sound_Ok|].
  destruct (Props.is_implicit m); [apply sound_Ok|].
  apply sound_rbind; [apply sound_get_node_ind|]. intros i _. apply sound_Ok.
Qed.

Lemma sound_first_child tree d : sound (first_child tree d).
Proof.
  unfold first_child. apply sound_rbind; [apply sound_py_index|].
  intros h _. apply sound_deref.
Qed.

Lemma sound_is_prep_in_span tree d indices : sound (is_prep_in_span tree d indices).
Proof.
  unfold is_prep_in_span. destruct (_ && _); [|apply sound_Ok].
  apply sound_rbind; [apply sound_first_child|]. intros c _. apply sound_Ok.
Qed.

Lemma sound_is_pobj_in_span tree d indices : sound (is_pobj_in_span tree d indices).
Proof.
  unfold is_pobj_in_span, parent_node. case_bool_decide; [|apply sound_Ok].
  apply sound_rbind; [|intros p _; apply sound_Ok].
  destruct (Dep.parent d); [apply sound_deref|apply sound_Raise; not_internal].
Qed.

Lemma sound_dict_get `{Countable K} {V} (d : gmap K V) (k : K) :
  is_Some (d !! k) → sound (dict_get d k).
Proof. intros [v Hv]. unfold dict_get. rewrite Hv. apply sound_Ok. Qed.

Lemma py_dict_is_Some `{Countable K} {V} (l : list (K * V)) (k : K) (v : V) :
  (k, v) ∈ l → is_Some (py_dict l !! k).
Proof.
  unfold py_dict.
  assert (Hgen : ∀ m : gmap K V,
    is_Some (m !! k) ∨ (∃ v, (k, v) ∈ l) →
    is_Some (foldl (λ m kv, <[kv.1 := kv.2]> m) m l !! k)).
  { induction l as [|[k' v'] l IH]; intros m Hm; simpl.
    - destruct Hm as [Hm|(w & Hw)]; [done|]. by apply elem_of_nil in Hw.
    - apply IH. destruct (decide (k = k')) as [->|Hne].
      + left. simpl. rewrite lookup_insert_eq. by eexists.
      + destruct Hm as [Hm|(w & Hw)].
        * left. simpl. by rewrite lookup_insert_ne.
        * apply elem_of_cons in Hw as [[= -> ->]|Hw]; [done|]. right. by exists w. }
  intros Hin. apply Hgen. right. by exists v.
Qed.

Lemma bind_Raise {A B} (m : M A) (f : A → M B) (s : PropSWrapper) (e : exn) :
  bind m f s = Raise e →
  m s = Raise e ∨ ∃ a s', m s = Ok (a, s') ∧ f a s' = Raise e.
Proof.
  unfold bind. destruct (m s) as [[a s']|e'].
  - intros H. right. by exists a, s'.
  - intros [= <-]. by left.
Qed.

Lemma lift_Raise {A} (r : result A) (s : PropSWrapper) (e : exn) :
  lift r s = Raise e → r = Raise e.
Proof. unfold lift. destruct r; [done|]. by intros [= <-]. Qed.

Lemma attr_Raise {A} (f : PropSWrapper → option A) (s : PropSWrapper) (e : exn) :
  attr f s = Raise e → e = AttributeError.
Proof. unfold attr. destruct (f s); [done|]. by intros [= <-]. Qed.

Lemma forM__Raise {A} (I : PropSWrapper → Prop) (l : list A) (f : A → M unit)
    (s : PropSWrapper) (e : exn) :
  (∀ y, y ∈ l → hoare I (f y) (λ _, I)) → I s →
  forM_ l f s = Raise e → ∃ x t, x ∈ l ∧ I t ∧ f x t = Raise e.
Proof.
  revert s. induction l as [|y l IH]; intros s Hpres HI H; simpl in H; [done|].
  apply bind_Raise in H as [H|(u & s1 & H1 & H)].
  - exists y, s. by split; [left|].
  - destruct (IH s1) as (x & t & Hx & Ht & Hr); [| |done|].
    + intros z Hz. apply Hpres. by right.
    + by eapply (Hpres y); [left| |exact H1].
    + exists x, t. by split; [right|].
Qed.

Lemma mapM_Raise {A B} (I : PropSWrapper → Prop) (l : list A) (f : A → M B)
    (s : PropSWrapper) (e : exn) :
  (∀ y, y ∈ l → hoare I (f y) (λ _, I)) → I s →
  mapM f l s = Raise e → ∃ x t, x ∈ l ∧ I t ∧ f x t = Raise e.
Proof.
  revert s. induction l as [|y l IH]; intros s Hpres HI H; simpl in H; [done|].
  apply bind_Raise in H as [H|(b & s1 & H1 & H)].
  - exists y, s. by split; [left|].
  - apply bind_Raise in H as [H|(bs & s2 & _ & H)]; [|done].
    destruct (IH s1) as (x & t & Hx & Ht & Hr); [| |done|].
    + intros z Hz. apply Hpres. by right.
    + by eapply (Hpres y); [left| |exact H1].
    + exists x, t. by split; [right|].
Qed.

Lemma foldM_Raise {A B} (J : B → PropSWrapper → Prop) (l : list A)
    (f : B → A → M B) (acc : B) (s : PropSWrapper) (e : exn) :
  (∀ acc x, x ∈ l → hoare (J acc) (f acc x) J) → J acc s →
  foldM f acc l s = Raise e → ∃ acc' x t, x ∈ l ∧ J acc' t ∧ f acc' x t = Raise e.
Proof.
  revert acc s. induction l as [|y l IH]; intros acc s Hpres HJ H; simpl in H;
    [done|].
  apply bind_Raise in H as [H|(acc1 & s1 & H1 & H)].
  - exists acc, y, s. by split; [left|].
  - destruct (IH acc1 s1) as (acc' & x & t & Hx & Ht & Hr); [| |done|].
    + intros a z Hz. apply Hpres. by right.
    + by eapply (Hpres acc y); [left| |exact H1].
    + exists acc', x, t. by split; [right|].
Qed.

Lemma get_element_symbol_returns (gen : M string) (i : Z) (s : PropSWrapper) :
  is_gensym gen → ∃ sym s', get_element_symbol i gen s = Ok (sym, s').
Proof.
  intros [-> | ->].
  - rewrite get_element_symbol_pred. destruct (_ !! _); eauto.
  - rewrite get_element_symbol_ent. destruct (_ !! _); eauto.
Qed.

(** The inversion of a method that raised: the steps before the one
    that raised returned. *)
Ltac inv_Raise_step :=
  match goal with
  | H : bind _ _ _ = Raise _ |- _ =>
      apply bind_Raise in H as [H|(? & ? & ? & H)]
  | H : lift _ _ = Raise _ |- _ => apply lift_Raise in H
  | H : attr _ _ = Raise _ |- _ => apply attr_Raise in H as ->; not_internal
  | H : gets _ _ = Raise _ |- _ => discriminate H
  | H : modify _ _ = Raise _ |- _ => discriminate H
  | H : ret _ _ = Raise _ |- _ => discriminate H
  | H : get_element_symbol ?i _gensym_ent ?s = Raise _ |- _ =>
      destruct (get_element_symbol_returns _ i s is_gensym_ent) as (? & ? & ?);
      congruence
  | H : get_element_symbol ?i _gensym_pred ?s = Raise _ |- _ =>
      destruct (get_element_symbol_returns _ i s is_gensym_pred) as (? & ? & ?);
      congruence
  | H : _gensym_pred _ = Raise _ |- _ => discriminate H
  | H : (if ?b then _ else _) _ = Raise _ |- _ => destruct b eqn:?
  | H : (match ?x with _ => _ end) _ = Raise _ |- _ => destruct x eqn:?
  end.
Ltac inv_Raise := repeat inv_Raise_step.

Ltac by_sound :=
  match goal with
  | H : ?r = Raise ?e |- ¬ internal_error ?e =>
      revert H; generalize e;
      first [ apply sound_deref | apply sound_get_node_ind | apply sound_handle_ind
            | apply sound_py_index | apply sound_get_dep_node
            | apply sound_get_props_neighbors | apply sound_dep_entities_of
            | apply sound_ordered_pair | apply sound_first_child
            | apply sound_is_prep_in_span | apply sound_is_pobj_in_span
            | apply sound_filterM_r; intros; apply sound_is_modifier ]
  end.

Lemma template_element_sound ns gen h s e :
  is_gensym gen → template_element ns gen h s = Raise e → ¬ internal_error e.
Proof.
  intros Hgen H. unfold template_element in H. inv_Raise; try by_sound.
  destruct (get_element_symbol_returns gen x1 x2 Hgen) as (? & ? & ?). congruence.
Qed.

Lemma argument_symbol_sound ns gen h s e :
  is_gensym gen → argument_symbol ns gen h s = Raise e → ¬ internal_error e.
Proof.
  intros Hgen H. unfold argument_symbol in H. inv_Raise; try by_sound.
  destruct (get_element_symbol_returns gen x1 x2 Hgen) as (? & ? & ?). congruence.
Qed.

Section Exceptions.

Variable recursion_limit : nat.

Variable hash_order : ∀ A : Type, list A → list A.
Variable spacy_ents : string → list Span.t.
Variable COPULA : string.
Hypothesis hash_order_yields_all : yields_all hash_order.

Lemma store_entity_sound ns n s e :
  store_entity hash_order ns n s = Raise e → ¬ internal_error e.
Proof.
  intros H. unfold store_entity in H. inv_Raise; try by_sound.
  by eapply argument_symbol_sound; [right|].
Qed.

Lemma parse_predicate_sound g n h s e :
  graph s = Some g → nodes g !! h = Some n → Props.isPredicate n = true →
  parse_predicate recursion_limit hash_order COPULA h s = Raise e → ¬ internal_error e.
Proof.
  intros Hg Hn Hp H. unfold parse_predicate in H.
  apply bind_Raise in H as [H|(g' & s0 & Hg' & H)];
    [apply attr_Raise in H as ->; not_internal|].
  apply attr_Ok in Hg' as [Hg' ->]. assert (g' = g) as -> by congruence.
  apply bind_Raise in H as [H|(tree & s0 & Ht & H)];
    [apply attr_Raise in H as ->; not_internal|].
  apply attr_Ok in Ht as [Ht ->].
  unfold deref in H. rewrite Hn in H. simpl in H.
  apply bind_Raise in H as [H|(n' & s0 & Hn' & H)]; [done|].
  injection Hn' as <- <-. rewrite Hp in H. simpl in H.
  apply bind_Raise in H as [H|(u & s0 & Hu & H)]; [done|].
  injection Hu as <-.
  inv_Raise; try by_sound.
  - match goal with H : get_mwp recursion_limit _ _ _ = Raise _ |- _ =>
      revert H; generalize e; by apply sound_get_mwp end.
  - match goal with H : mapM _ _ _ = Raise _ |- _ =>
      apply (mapM_Raise (λ _, True)) in H as (x' & t & _ & _ & H); [|done|done] end.
    by eapply template_element_sound; [left|].
  - match goal with H : mapM _ _ _ = Raise _ |- _ =>
      apply (mapM_Raise (λ _, True)) in H as (x' & t & _ & _ & H); [|done|done] end.
    by eapply template_element_sound; [right|].
  - match goal with H : mapM _ _ _ = Raise _ |- _ =>
      apply (mapM_Raise (λ _, True)) in H as (x' & t & _ & _ & H); [|done|done] end.
    by eapply argument_symbol_sound; [right|].
  - match goal with H : mapM _ _ _ = Raise _ |- _ =>
      apply (mapM_Raise (λ _, True)) in H as (x' & t & _ & _ & H); [|done|done] end.
    by eapply argument_symbol_sound; [left|].
  - match goal with H : forM_ _ _ _ = Raise _ |- _ =>
      apply (forM__Raise (λ _, True)) in H as (x' & t & _ & _ & H); [|done|done] end.
    by eapply store_entity_sound.
Qed.

Ltac inv_M_branches :=
  repeat (inv_M;
    match goal with
    | H : (if ?b then _ else _) _ = Ok _ |- _ => destruct b eqn:?
    | H : (match ?x with _ => _ end) _ = Ok _ |- _ => destruct x eqn:?
    end);
  inv_M.

Lemma split_token_sound roots head_sym head indices loc tok s e :
  split_token roots head_sym head indices loc tok s = Raise e →
  ¬ internal_error e.
Proof.
  intros H. unfold split_token in H. inv_Raise; try by_sound.
  match goal with H : dict_get roots _ = Raise _ |- _ =>
    unfold dict_get in H end.
  match goal with H : is_pending_root _ _ _ = true |- _ =>
    unfold is_pending_root in H end.
  by destruct (roots !! tok.2).
Qed.

Lemma split_token_NEs roots head_sym head indices loc tok s loc' s' :
  split_token roots head_sym head indices loc tok s = Ok (loc', s') →
  _all_NEs_token_indices s' = _all_NEs_token_indices s.
Proof.
  intros H. unfold split_token in H. inv_M_branches.
  all: repeat match goal with
  | H : get_element_symbol _ _gensym_ent _ = Ok _ |- _ =>
      apply (get_element_symbol_allocates _ _ _ _ _ is_gensym_ent) in H
        as [(_ & _ & _ & _ & _ & ?) _]
  | H : get_element_symbol _ _gensym_pred _ = Ok _ |- _ =>
      apply (get_element_symbol_allocates _ _ _ _ _ is_gensym_pred) in H
        as [(_ & _ & _ & _ & _ & ?) _]
  | H : _gensym_pred _ = Ok _ |- _ =>
      apply _gensym_pred_grows in H as ((_ & _ & _ & _ & _ & ?) & _)
  end.
  all: simpl; congruence.
Qed.

Lemma split_entity_NEs heads roots by_tok loc item s loc' s' :
  split_entity heads roots by_tok loc item s = Ok (loc', s') →
  _all_NEs_token_indices s' = _all_NEs_token_indices s.
Proof.
  intros H. unfold split_entity in H. inv_M_branches.
  all: match goal with H : foldM _ _ _ ?t = _ |- _ =>
    eapply (hoare_foldM (λ _ t', _all_NEs_token_indices t'
                                 = _all_NEs_token_indices t));
      [|reflexivity|exact H] end.
  all: intros acc tok _ t1 acc' t2 HI Ht; apply split_token_NEs in Ht; congruence.
Qed.

Lemma split_entity_sound heads roots by_tok all_NEs loc item s e :
  is_Some (heads !! item.1) →
  _all_NEs_token_indices s = Some all_NEs →
  (∀ i, i ∈ all_NEs → is_Some (by_tok !! i)) →
  split_entity heads roots by_tok loc item s = Raise e →
  ¬ internal_error e.
Proof.
  intros Hhead HNEs Htoks H. unfold split_entity in H.
  apply bind_Raise in H as [H|(head & s0 & Hh & H)].
  { apply lift_Raise in H. revert H. generalize e. by apply sound_dict_get. }
  apply lift_Ok in Hh as [_ ->].
  apply bind_Raise in H as [H|(l & s0 & Hl & H)];
    [apply attr_Raise in H as ->; not_internal|].
  apply attr_Ok in Hl as [Hl ->]. assert (l = all_NEs) as -> by congruence.
  inv_Raise.
  - revert H. generalize e. apply sound_dict_get, Htoks.
    by eapply bool_decide_eq_true_1.
  - match goal with H : foldM _ _ _ _ = Raise _ |- _ =>
      apply (foldM_Raise (λ _ _, True)) in H as (? & ? & ? & _ & _ & H);
        [|done|done] end.
    by eapply split_token_sound.
Qed.

Lemma _split_entities_sound s e :
  keys_wf s →
  _split_entities hash_order spacy_ents s = Raise e → ¬ internal_error e.
Proof.
  intros (_ & Hents & _) H. unfold _split_entities, _get_named_entities in H.
  inv_Raise; inv_M; simpl in *; simplify_eq.
  match goal with
  | H : foldM _ _ _ (set_all_NEs_token_indices (Some ?L) _) = Raise _ |- _ =>
    apply (foldM_Raise (λ _ t, _all_NEs_token_indices t = Some L)) in H
      as (acc & item & t & Hitem & HNEs & H); [| |reflexivity] end.
  - eapply split_entity_sound; [| exact HNEs | | exact H].
    + rewrite (hash_order_yields_all _ _) in Hitem.
      destruct item as [sym ent]. apply elem_of_map_to_list in Hitem.
      destruct (Hents sym) as [i Hi]; [by eexists|]. simpl.
      apply (py_dict_is_Some _ _ i), list_elem_of_fmap. exists (i, sym).
      split; [done|]. rewrite (hash_order_yields_all _ _).
      by apply elem_of_map_to_list.
    + intros i Hi. apply elem_of_concat in Hi as (l & Hl & Hi).
      apply list_elem_of_fmap in Hl as (ne & -> & Hne).
      apply (py_dict_is_Some _ _ ne), elem_of_concat.
      exists ((λ ind, (ind, ne)) <$> NE_to_indices ne). split.
      * apply list_elem_of_fmap. by exists ne.
      * apply list_elem_of_fmap. by exists i.
  - intros acc item _ t1 acc' t2 HI Ht. apply split_entity_NEs in Ht. congruence.
Qed.

Lemma add_props_node_to_entities_sound ns h s e :
  add_props_node_to_entities hash_order ns h s = Raise e → ¬ internal_error e.
Proof.
  intros H. unfold add_props_node_to_entities, get_entity_symbol in H.
  inv_Raise; by_sound.
Qed.

Lemma add_modifier_sound ns ent modifier s e :
  add_modifier hash_order ns ent modifier s = Raise e → ¬ internal_error e.
Proof.
  intros H. unfold add_modifier in H. inv_Raise; try by_sound.
  - by eapply add_props_node_to_entities_sound.
  - match goal with H : mapM _ _ _ = Raise _ |- _ =>
      apply (mapM_Raise (λ _, True)) in H as (x' & t & _ & _ & H); [|done|done] end.
    unfold get_entity_symbol in H. inv_Raise; by_sound.
Qed.

Lemma add_modifiers_as_implicits_sound s e :
  add_modifiers_as_implicits recursion_limit hash_order COPULA s = Raise e → ¬ internal_error e.
Proof.
  intros H. unfold add_modifiers_as_implicits in H. inv_Raise.
  match goal with H : forM_ _ _ _ = Raise _ |- _ =>
    apply (forM__Raise (λ _, True)) in H as (x' & t & _ & _ & H); [|done|done] end.
  unfold get_entity_symbol in H. inv_Raise; try by_sound.
  match goal with H : forM_ _ _ _ = Raise _ |- _ =>
    apply (forM__Raise (λ _, True)) in H as (m & t' & _ & _ & H); [|done|done] end.
  by eapply add_modifier_sound.
Qed.

Lemma parse_selected_sound g selected s e :
  graph s = Some g →
  (∀ h, h ∈ selected → ∃ n, nodes g !! h = Some n ∧ Props.isPredicate n = true) →
  keys_wf s →
  parse_selected recursion_limit hash_order spacy_ents COPULA selected s = Raise e →
  ¬ internal_error e.
Proof.
  intros Hg Hsel HJ H. unfold parse_selected in H.
  apply bind_Raise in H as [H|(u & s1 & H1 & H)].
  { apply (forM__Raise (λ t, graph t = Some g)) in H as (h & t & Hh & Hgt & H);
      [| |done].
    - destruct (Hsel h Hh) as (n & Hn & Hp). by eapply parse_predicate_sound.
    - intros h _ t1 v t2 Hg1 Hstep.
      apply frame_parse_predicate in Hstep as (_ & _ & _ & Hg2 & _). congruence. }
  apply forM__keys in H1 as [HJ1 _]; [| |exact HJ].
  2: { intros h t1 v t2 _. apply parse_predicate_keys. }
  apply bind_Raise in H as [H|(ents & s2 & H2 & H)].
  { by eapply _split_entities_sound. }
  inv_Raise. by eapply add_modifiers_as_implicits_sound.
Qed.

Variable parseSentences : string → list (Graph * string).

(** X16. Whatever the parser and the tagger return, [parse] never fails
    one of its two assertions and never reads a dictionary at a key that
    it lacks: when it raises, the exception is neither an
    [AssertionError] nor a [KeyError]. *)
Theorem parse_raises (sent : string) (s : PropSWrapper) (e : exn) :
  parse recursion_limit hash_order parseSentences spacy_ents COPULA sent s = Raise e →
  e ≠ AssertionError ∧ e ≠ KeyError.
Proof.
  intros H.
  assert (Hnot : ¬ internal_error e);
    [|split; intros ->; apply Hnot; [by right|by left]].
  destruct (py_index (parseSentences sent) 0) as [[g t]|e'] eqn:Hg.
  2: { rewrite (parse_no_graph _ _ _ _ _ _ _ e' Hg) in H. injection H as ->.
       revert Hg. generalize e. apply sound_py_index. }
  rewrite (parse_loaded _ _ _ _ _ _ _ g t Hg) in H.
  eapply (parse_selected_sound g); [| |apply keys_wf_loaded|exact H]; [done|].
  intros h (n & Hn & Hv)%elem_of_selected. exists n. split; [done|].
  by apply is_valid_pred_spec in Hv as (? & _).
Qed.

End Exceptions.

Lemma parse_raises_witness :
  yields_all given_order
  ∧ orphan_parse (blank_wrapper false false false) = Raise ValueError
  ∧ ValueError ≠ AssertionError ∧ ValueError ≠ KeyError.
Proof.
  assert (Hall : yields_all given_order) by (intros A l; reflexivity).
  assert (Hrun : parse some_limit given_order (λ _, [(orphan_graph, "")]) (λ _, york_ents)
                   "SameAs" york_sentence (blank_wrapper false false false)
                 = Raise ValueError) by (vm_compute; reflexivity).
  split; [exact Hall|]. split; [exact Hrun|].
  exact (parse_raises some_limit given_order (λ _, york_ents) "SameAs" Hall
           (λ _, [(orphan_graph, "")]) york_sentence
           (blank_wrapper false false false) ValueError Hrun).
Defined.

(** ** The neighbours of a node: when the recursion ends *)




Section Returns.

Variable recursion_limit : nat.

Variable hash_order : ∀ A : Type, list A → list A.
Variable COPULA : string.



End Returns.

